(** * CPU adaptive max pooling (2D): a shallow embedding of
      [csrc/aten/cpu/AdaptiveMaxPooling.cpp] and its verification.

    The four kernels (contiguous / channels-last, forward / backward) and the
    two dispatch shells are transcribed as executable functions over flat
    buffers; tensor elements are IEEE-754 values of the three supported
    element types, taken from the specification of floating-point numbers of
    the Standard Library ([SpecFloat]). *)

From Stdlib Require Import ZArith List Bool Lia.
From Stdlib Require Import Floats.SpecFloat.
Import ListNotations.
Open Scope Z_scope.

(* ================================================================== *)
(** * Element types *)
(* ================================================================== *)

(** The element types accepted by
    [AT_DISPATCH_FLOATING_TYPES_AND(at::ScalarType::BFloat16, ...)]. *)
Inductive ScalarType := Float | Double | BFloat16.

(** Number of significand bits (implicit bit included) and exponent of the
    infinities of each format. *)
Definition prec (t : ScalarType) : Z :=
  match t with Float => 24 | Double => 53 | BFloat16 => 8 end.

Definition emax (t : ScalarType) : Z :=
  match t with Float => 128 | Double => 1024 | BFloat16 => 128 end.

(** [accscalar_t]: the dispatcher instantiates the contiguous kernel with
    [float] for [BFloat16] and with [scalar_t] itself otherwise. *)
Definition accscalar_t (t : ScalarType) : ScalarType :=
  match t with BFloat16 => Float | _ => t end.

(** [-std::numeric_limits<T>::infinity()] *)
Definition neg_infinity : spec_float := S754_infinity true.

(** [std::isnan] *)
Definition isnan (x : spec_float) : bool :=
  match x with S754_nan => true | _ => false end.

(** [a > b] on floating-point operands (false when either is NaN).  The
    elements of a tensor are the canonical values of its element type, on
    which [SFltb] is the IEEE comparison; a [BFloat16] element widened to
    [float] is the same value and compares the same. *)
Definition gt (a b : spec_float) : bool := SFltb b a.

(** Conversion of a floating-point value to the format [t], rounding to
    nearest, ties to even: [at::BFloat16(float)] and [static_cast<float>].
    Widening conversions are the special case in which nothing is lost. *)
Definition round_to (t : ScalarType) (x : spec_float) : spec_float :=
  match x with
  | S754_finite s m e => binary_normalize (prec t) (emax t) (Zpos m) e s
  | _ => x
  end.

(** A value is an element of format [t] when conversion to [t] keeps it. *)
Definition representable (t : ScalarType) (x : spec_float) : Prop :=
  round_to t x = x.

Definition int64_min : Z := - 2 ^ 63.
Definition int64_max : Z := 2 ^ 63 - 1.

(** [static_cast<float>(int64_t)] and [static_cast<double>(int64_t)]. *)
Definition int64_to (t : ScalarType) (z : Z) : spec_float :=
  binary_normalize (prec t) (emax t) z 0 false.

(** [scalar_t(maxindex)] for an [int64_t] argument.  [at::BFloat16] is only
    constructible from [float], so the integer is first converted to [float]
    and then rounded to 16 bits. *)
Definition scalar_of_int64 (t : ScalarType) (z : Z) : spec_float :=
  match t with
  | BFloat16 => round_to BFloat16 (int64_to Float z)
  | _ => int64_to t z
  end.

(** Conversion of a floating-point value to [int64_t]: truncation towards
    zero.  Infinities and NaN are undefined in C++; x86 yields the smallest
    integer. *)
Definition to_int64 (x : spec_float) : Z :=
  match x with
  | S754_zero _ => 0
  | S754_finite s m e =>
      let a := if 0 <=? e then Zpos m * 2 ^ e else Zpos m / 2 ^ (- e) in
      if s then - a else a
  | _ => int64_min
  end.

(** What line 71 of the contiguous kernel stores in the indices tensor:
    [indices_ptr[...] = scalar_t(maxindex)], an [int64_t] converted to the
    element type and back. *)
Definition index_through_scalar (t : ScalarType) (maxindex : Z) : Z :=
  to_int64 (scalar_of_int64 t maxindex).

(** [a + b] and [a * b] at element type [t].  [BFloat16] operands are widened
    to [float], combined there, and the result rounded back. *)
Definition scalar_add (t : ScalarType) (a b : spec_float) : spec_float :=
  round_to t (SFadd (prec (accscalar_t t)) (emax (accscalar_t t)) a b).

Definition scalar_mul (t : ScalarType) (a b : spec_float) : spec_float :=
  round_to t (SFmul (prec (accscalar_t t)) (emax (accscalar_t t)) a b).

(** [at::vec::int_same_size_t<scalar_t>]: width in bits of the integer lane
    that goes with each element type in the channels-last kernels (the
    [BFloat16] specialisation uses [int32_t]). *)
Definition integer_t_bits (t : ScalarType) : Z :=
  match t with Double => 64 | _ => 32 end.

(** [std::numeric_limits<integer_t>::max()] *)
Definition integer_t_max (t : ScalarType) : Z := 2 ^ (integer_t_bits t - 1) - 1.

(** Conversion of an [int64_t] to a signed integer of [w] bits. *)
Definition wrap_signed (w : Z) (z : Z) : Z :=
  (z + 2 ^ (w - 1)) mod 2 ^ w - 2 ^ (w - 1).

Definition to_integer_t (t : ScalarType) (z : Z) : Z :=
  wrap_signed (integer_t_bits t) z.

(* ================================================================== *)
(** * Buffers and loops *)
(* ================================================================== *)

(** A buffer is the memory behind a data pointer, addressed by element
    offset. *)
Definition buffer (A : Type) := Z -> A.

(** [p[i] = v] *)
Definition upd {A} (p : buffer A) (i : Z) (v : A) : buffer A :=
  fun j => if j =? i then v else p j.

(** [p + off] *)
Definition shift {A} (p : buffer A) (off : Z) : buffer A :=
  fun j => p (off + j).

(** [c10::irange(a, b)] and [for (i = a; i < b; i++)]. *)
Definition irange (a b : Z) : list Z :=
  map (fun k => a + Z.of_nat k) (seq 0 (Z.to_nat (b - a))).

(* ================================================================== *)
(** * Window index math *)
(* ================================================================== *)

Definition floor_div (a b : Z) : Z := a / b.
Definition ceil_div (a b : Z) : Z := - ((- a) / b).

(** Modelled from the spec: [start_index] and [end_index] are declared in
    [ATen/native/AdaptivePooling.h], which is not part of the sources; the
    specification gives start(o,O,I) = floor(o*I / O). *)
Definition start_index (o O I : Z) : Z := floor_div (o * I) O.

(** Modelled from the spec: end(o,O,I) = ceil((o+1)*I / O). *)
Definition end_index (o O I : Z) : Z := ceil_div ((o + 1) * I) O.

(* ================================================================== *)
(** * Tensors *)
(* ================================================================== *)

(** [at::MemoryFormat] *)
Inductive MemoryFormat := Contiguous | Preserve | ChannelsLast | ChannelsLast3d.

(** A dense floating-point tensor: element type, shape, the layout tag that
    [suggest_memory_format()] reports, and the buffer behind [data_ptr]. *)
Record Tensor := mkTensor {
  scalar_type : ScalarType;
  sizes : list Z;
  suggest_memory_format : MemoryFormat;
  data_ptr : buffer spec_float
}.

(** A tensor of [at::kLong] elements (the indices). *)
Record LongTensor := mkLongTensor {
  long_sizes : list Z;
  long_memory_format : MemoryFormat;
  long_data_ptr : buffer Z
}.

Definition dim_of (shape : list Z) (i : Z) : Z :=
  let ndim := Z.of_nat (length shape) in
  nth (Z.to_nat (if i <? 0 then ndim + i else i)) shape 0.

Definition ndimension (t : Tensor) : Z := Z.of_nat (length (sizes t)).

(** [t.size(i)]; a negative [i] counts from the last dimension. *)
Definition size (t : Tensor) (i : Z) : Z := dim_of (sizes t) i.

Definition set_data (t : Tensor) (d : buffer spec_float) : Tensor :=
  mkTensor (scalar_type t) (sizes t) (suggest_memory_format t) d.

Definition set_long_data (t : LongTensor) (d : buffer Z) : LongTensor :=
  mkLongTensor (long_sizes t) (long_memory_format t) d.

(** The thread pool behind [at::parallel_for]: for a range [begin, end), the
    sub-ranges it hands to its workers. *)
Definition ThreadPool := Z -> Z -> list (Z * Z).

(** [at::parallel_for(begin, end, grain_size, body)] calls [body] on each
    sub-range the pool chooses.  The workers run concurrently; the kernels
    below write disjoint locations from different sub-ranges and read no
    location that another worker writes, so the effect is that of the calls
    made one after the other. *)
Definition parallel_for {S : Type} (pool : ThreadPool) (begin end_ grain_size : Z)
    (body : Z -> Z -> S -> S) (st : S) : S :=
  fold_left (fun st chunk => body (fst chunk) (snd chunk) st) (pool begin end_) st.

(** Failures raised through [TORCH_CHECK]. *)
Inductive error :=
| ExpectedRank3or4          (* "Expected 3D or 4D tensor" *)
| EmptyNonBatchDim (i : Z)  (* "non-zero size for non-batch dimensions" *)
| OutputSizeArity           (* "internal error: output_size.size() must be 2" *)
| ChannelsLastNeeds4Dims    (* "channels last format supports tensors with 4 dims" *)
| IndexLaneOverflow         (* input_height * input_width <= max of integer_t *)
| UnsupportedMemoryFormat   (* "Supports only ChannelsLast, Contiguous" *)
| DtypeMismatch             (* "expected dtype ... for `grad_output`" *)
| NegativeDimension.        (* [at::empty]: "Trying to create tensor with negative dimension" *)

Inductive result (A : Type) :=
| Ok (a : A)
| Throw (e : error).
Arguments Ok {A} a.
Arguments Throw {A} e.

(* ================================================================== *)
(** * K-FWD-C: [cpu_adaptive_max_pool] *)
(* ================================================================== *)

(** Body of the innermost loop (lines 60 to 65): the running maximum and its
    flat index after looking at column [iw] of row [ih].  When [accscalar_t]
    is wider than [scalar_t] the element is widened for the comparison and
    the assignment, which changes neither its value nor the outcome. *)
Definition max_step (input_ptr : buffer spec_float) (input_width ih : Z)
    (st : spec_float * Z) (iw : Z) : spec_float * Z :=
  let index := ih * input_width + iw in
  let val := input_ptr index in
  if gt val (fst st) || isnan val then (val, index) else st.

(** Lines 56 to 67: [(maxval, maxindex)] of one window. *)
Definition local_max (input_ptr : buffer spec_float) (input_width ih0 ih1 iw0 iw1 : Z)
    : spec_float * Z :=
  fold_left
    (fun st ih => fold_left (max_step input_ptr input_width ih) (irange iw0 iw1) st)
    (irange ih0 ih1)
    (neg_infinity, ih0 * input_width + iw0).

(** [output_ptr[...] = maxval]: the accumulator narrowed to [scalar_t]. *)
Definition acc_to_scalar (scalar_t : ScalarType) (maxval : spec_float) : spec_float :=
  match scalar_t with
  | BFloat16 => round_to BFloat16 maxval
  | _ => maxval
  end.

(** One output cell [(oh, ow)] of plane [c] (lines 52 to 71). *)
Definition pool_cell (scalar_t : ScalarType) (input_data : buffer spec_float)
    (input_height input_width output_height output_width c oh : Z)
    (st : buffer spec_float * buffer Z) (ow : Z) : buffer spec_float * buffer Z :=
  let input_ptr := shift input_data (c * input_height * input_width) in
  let out_off := c * output_height * output_width in
  let ih0 := start_index oh output_height input_height in
  let ih1 := end_index oh output_height input_height in
  let iw0 := start_index ow output_width input_width in
  let iw1 := end_index ow output_width input_width in
  let m := local_max input_ptr input_width ih0 ih1 iw0 iw1 in
  (upd (fst st) (out_off + (oh * output_width + ow)) (acc_to_scalar scalar_t (fst m)),
   upd (snd st) (out_off + (oh * output_width + ow)) (index_through_scalar scalar_t (snd m))).

(** One plane [c] (lines 43 to 73). *)
Definition pool_plane (scalar_t : ScalarType) (input_data : buffer spec_float)
    (input_height input_width output_height output_width : Z)
    (st : buffer spec_float * buffer Z) (c : Z) : buffer spec_float * buffer Z :=
  fold_left
    (fun st oh =>
       fold_left
         (pool_cell scalar_t input_data input_height input_width
                    output_height output_width c oh)
         (irange 0 output_width) st)
    (irange 0 output_height) st.

(** The kernel.  The tensors it is called on are dense in the row-major
    layout, so that [contiguous()] returns them unchanged and the final
    [copy_] is skipped. *)
Definition cpu_adaptive_max_pool (pool : ThreadPool) (scalar_t : ScalarType)
    (output_ : Tensor) (indices_ : LongTensor) (input_ : Tensor)
    (output_size : list Z) : Tensor * LongTensor :=
  let input_data := data_ptr input_ in
  let ndim := ndimension input_ in
  let channels :=
    if ndim =? 3 then size input_ 0 else size input_ 0 * size input_ 1 in
  let input_height := size input_ (-2) in
  let input_width := size input_ (-1) in
  let output_height := nth 0 output_size 0 in
  let output_width := nth 1 output_size 0 in
  let st :=
    parallel_for pool 0 channels 0
      (fun begin end_ st =>
         fold_left
           (pool_plane scalar_t input_data input_height input_width
                       output_height output_width)
           (irange begin end_) st)
      (data_ptr output_, long_data_ptr indices_) in
  (set_data output_ (fst st), set_long_data indices_ (snd st)).

(* ================================================================== *)
(** * Vector registers and index iterators *)
(* ================================================================== *)

(** [sizeof(scalar_t)] *)
Definition sizeof (t : ScalarType) : Z :=
  match t with Float => 4 | Double => 8 | BFloat16 => 2 end.

(** [at::vec::Vectorized<T>::size()]: the number of lanes of a register of
    [VECTOR_WIDTH] bytes (32, or 64 under AVX-512). *)
Definition Vec_size (VECTOR_WIDTH : Z) (t : ScalarType) : Z :=
  Z.quot VECTOR_WIDTH (sizeof t).

(** A vector register, as a map from lane number to lane value. *)
Definition Vec (A : Type) := Z -> A.

(** [Vec(x)]: every lane holds [x]. *)
Definition broadcast {A} (x : A) : Vec A := fun _ => x.

(** [Vec::loadu(p + d)] *)
Definition loadu {A} (p : buffer A) (d : Z) : Vec A := fun k => p (d + k).

(** [v.store(p + d)] for a register of [lanes] lanes. *)
Definition store {A} (lanes : Z) (v : Vec A) (p : buffer A) (d : Z) : buffer A :=
  fun j => if (d <=? j) && (j <? d + lanes) then v (j - d) else p j.

(** Lane-wise [a > b], [a.isnan()] and [a | b] on masks; a mask lane is all
    ones ([true]) or all zeros ([false]). *)
Definition vec_gt (a b : Vec spec_float) : Vec bool := fun k => gt (a k) (b k).
Definition vec_isnan (a : Vec spec_float) : Vec bool := fun k => isnan (a k).
Definition vec_or (a b : Vec bool) : Vec bool := fun k => a k || b k.

(** [at::vec::cast<integer_t>(mask)] reinterprets the bits of each lane. *)
Definition vec_cast (mask : Vec bool) : Vec bool := mask.

(** [Vec::blendv(a, b, mask)]: lane of [b] where the mask is set. *)
Definition blendv {A} (a b : Vec A) (mask : Vec bool) : Vec A :=
  fun k => if mask k then b k else a k.

(** The values of [d] in [for (d = a; d < b; d += step)], and the value of
    [d] when that loop is left. *)
Definition strided (a b step : Z) : list Z :=
  map (fun k => a + Z.of_nat k * step)
      (seq 0 (Z.to_nat (ceil_div (b - a) step))).

Definition strided_end (a b step : Z) : Z :=
  a + Z.max 0 (ceil_div (b - a) step) * step.

(** [len = size - (size % Vec::size())]: the part of a row of [size]
    elements that is processed in whole registers. *)
Definition vec_len (size lanes : Z) : Z := size - Z.rem size lanes.

(** [at::vec::convert<integer_t, int64_t>(src, dst, n)] *)
Definition convert (src : buffer Z) (dst : buffer Z) (dst_off n : Z) : buffer Z :=
  fold_left (fun dst k => upd dst (dst_off + k) (src k)) (irange 0 n) dst.

(** [at::native::data_index_init(offset, n, N, oh, OH, ow, OW)]: the
    coordinates of the [offset]-th output position, last axis fastest. *)
Definition data_index_init (offset N OH OW : Z) : Z * Z * Z :=
  let ow := Z.rem offset OW in
  let offset := Z.quot offset OW in
  let oh := Z.rem offset OH in
  let offset := Z.quot offset OH in
  let n := Z.rem offset N in
  (n, oh, ow).

(** [at::native::data_index_step(n, N, oh, OH, ow, OW)]: increment with
    carry. *)
Definition data_index_step (N OH OW : Z) (idx : Z * Z * Z) : Z * Z * Z :=
  let '(n, oh, ow) := idx in
  let ow' := if ow + 1 =? OW then 0 else ow + 1 in
  if ow' =? 0 then
    let oh' := if oh + 1 =? OH then 0 else oh + 1 in
    if oh' =? 0 then
      let n' := if n + 1 =? N then 0 else n + 1 in
      (n', oh', ow')
    else (n, oh', ow')
  else (n, oh, ow').

(* ================================================================== *)
(** * K-FWD-CL: [cpu_adaptive_max_pool_channels_last] *)
(* ================================================================== *)

(** Memory touched by one worker of the generic kernel: the output and
    indices tensors and the worker's [index_buffer]. *)
Record cl_state := mkCl {
  cl_out : buffer spec_float;
  cl_ind : buffer Z;
  cl_index_buffer : buffer Z
}.

Section ChannelsLast.
Variable scalar_t : ScalarType.
Variable VECTOR_WIDTH : Z.
Variable input_data : buffer spec_float.
Variables channels input_height input_width : Z.

Local Abbreviation lanes := (Vec_size VECTOR_WIDTH scalar_t).
Local Abbreviation size_ := channels.
Local Abbreviation len := (vec_len channels (Vec_size VECTOR_WIDTH scalar_t)).

(** Pass I, vector part (lines 153 to 156); [out] is the offset of the
    [out] and [ind] pointers. *)
Definition cl_init_vec (out index0 : Z) (st : cl_state) (d1 : Z) : cl_state :=
  let index0_vec := broadcast (to_integer_t scalar_t index0) in
  let out_vec := broadcast neg_infinity in
  mkCl (store lanes out_vec (cl_out st) (out + d1))
       (cl_ind st)
       (store lanes index0_vec (cl_index_buffer st) d1).

(** Pass I, scalar tail (lines 157 to 160). *)
Definition cl_init_tail (out index0 : Z) (st : cl_state) (d1 : Z) : cl_state :=
  mkCl (upd (cl_out st) (out + d1) neg_infinity)
       (upd (cl_ind st) (out + d1) index0)
       (cl_index_buffer st).

(** Pass II, vector part (lines 169 to 183); [in_] is the offset of the
    [in] pointer. *)
Definition cl_max_vec (out in_ index : Z) (st : cl_state) (d2 : Z) : cl_state :=
  let index_vec := broadcast (to_integer_t scalar_t index) in
  let val_vec := loadu input_data (in_ + d2) in
  let maxindex_vec := loadu (cl_index_buffer st) d2 in
  let maxval_vec := loadu (cl_out st) (out + d2) in
  let mask := vec_or (vec_gt val_vec maxval_vec) (vec_isnan val_vec) in
  let imask := vec_cast mask in
  let out_vec := blendv maxval_vec val_vec mask in
  let ind_vec := blendv maxindex_vec index_vec imask in
  mkCl (store lanes out_vec (cl_out st) (out + d2))
       (cl_ind st)
       (store lanes ind_vec (cl_index_buffer st) d2).

(** Pass II, scalar tail (lines 184 to 193). *)
Definition cl_max_tail (out in_ index : Z) (st : cl_state) (d2 : Z) : cl_state :=
  let val := input_data (in_ + d2) in
  let maxindex := cl_ind st (out + d2) in
  let maxval := cl_out st (out + d2) in
  let mask := gt val maxval || isnan val in
  mkCl (upd (cl_out st) (out + d2) (if mask then val else maxval))
       (upd (cl_ind st) (out + d2) (if mask then index else maxindex))
       (cl_index_buffer st).

(** One input position [(ih, iw)] of the window (lines 164 to 193). *)
Definition cl_pixel (out n ih : Z) (st : cl_state) (iw : Z) : cl_state :=
  let in_ := n * input_height * input_width * channels
             + ih * input_width * channels + iw * channels in
  let index := ih * input_width + iw in
  let st := fold_left (cl_max_vec out in_ index) (strided 0 len lanes) st in
  fold_left (cl_max_tail out in_ index)
            (irange (strided_end 0 len lanes) size_) st.

(** One output position [i], at coordinates [(n, oh, ow)] (lines 140 to
    197). *)
Definition cl_position (output_height output_width : Z)
    (st : cl_state) (i n oh ow : Z) : cl_state :=
  let ih0 := start_index oh output_height input_height in
  let ih1 := end_index oh output_height input_height in
  let iw0 := start_index ow output_width input_width in
  let iw1 := end_index ow output_width input_width in
  let out := i * channels in
  let index0 := ih0 * input_width + iw0 in
  let st := fold_left (cl_init_vec out index0) (strided 0 len lanes) st in
  let st := fold_left (cl_init_tail out index0)
                      (irange (strided_end 0 len lanes) size_) st in
  let st :=
    fold_left
      (fun st ih => fold_left (cl_pixel out n ih) (irange iw0 iw1) st)
      (irange ih0 ih1) st in
  mkCl (cl_out st)
       (convert (cl_index_buffer st) (cl_ind st) out len)
       (cl_index_buffer st).

(** The loop of one worker over positions [begin, end) (lines 139 to 202);
    the coordinates are stepped along with [i]. *)
Definition cl_worker_step (nbatch output_height output_width : Z)
    (acc : cl_state * (Z * Z * Z)) (i : Z) : cl_state * (Z * Z * Z) :=
  let '(n, oh, ow) := snd acc in
  (cl_position output_height output_width (fst acc) i n oh ow,
   data_index_step nbatch output_height output_width (n, oh, ow)).

(** Body handed to [parallel_for] (lines 127 to 203).  The fresh
    [index_buffer] is written by Pass I before it is read. *)
Definition cl_worker (nbatch output_height output_width : Z)
    (begin end_ : Z) (st : buffer spec_float * buffer Z)
    : buffer spec_float * buffer Z :=
  let idx := data_index_init begin nbatch output_height output_width in
  let index_buffer : buffer Z := fun _ => 0 in
  let r := fold_left (cl_worker_step nbatch output_height output_width)
                     (irange begin end_)
                     (mkCl (fst st) (snd st) index_buffer, idx) in
  (cl_out (fst r), cl_ind (fst r)).
End ChannelsLast.

(** The generic kernel, for [float] and [double].  The tensors it is called
    on are dense in the channels-last layout. *)
Definition cpu_adaptive_max_pool_channels_last (pool : ThreadPool)
    (scalar_t : ScalarType) (VECTOR_WIDTH : Z)
    (output_ : Tensor) (indices_ : LongTensor) (input_ : Tensor)
    (output_size : list Z) : result (Tensor * LongTensor) :=
  if negb (ndimension input_ =? 4) then Throw ChannelsLastNeeds4Dims else
  let input_data := data_ptr input_ in
  let nbatch := size input_ 0 in
  let channels := size input_ 1 in
  let input_height := size input_ 2 in
  let input_width := size input_ 3 in
  let output_height := nth 0 output_size 0 in
  let output_width := nth 1 output_size 0 in
  if negb (input_height * input_width <=? integer_t_max scalar_t)
  then Throw IndexLaneOverflow else
  let st :=
    parallel_for pool 0 (nbatch * output_height * output_width) 0
      (cl_worker scalar_t VECTOR_WIDTH input_data channels
                 input_height input_width nbatch output_height output_width)
      (data_ptr output_, long_data_ptr indices_) in
  Ok (set_data output_ (fst st), set_long_data indices_ (snd st)).

(* ================================================================== *)
(** * K-FWD-CL, [at::BFloat16] specialisation *)
(* ================================================================== *)

(** Memory touched by one worker of the specialisation: it keeps the running
    maxima as [float] in [max_arr]. *)
Record bf_state := mkBf {
  bf_out : buffer spec_float;
  bf_ind : buffer Z;
  bf_index_buffer : buffer Z;
  bf_max : buffer spec_float
}.

(** [float(x)] for a [BFloat16] [x].  Widening appends sixteen zero bits and
    is exact: the value is the same, and so is every comparison made on it. *)
Definition to_float (x : spec_float) : spec_float := x.

(** [convert_bfloat16_float]: the lower and upper half of a [bVec], each
    widened to an [fVec] ([half] is [fVec::size()]). *)
Definition convert_bfloat16_float (half : Z) (v : Vec spec_float)
    : Vec spec_float * Vec spec_float :=
  (fun k => to_float (v k), fun k => to_float (v (half + k))).

(** [convert_float_bfloat16]: two [fVec] rounded and packed into a [bVec]. *)
Definition convert_float_bfloat16 (half : Z) (a b : Vec spec_float)
    : Vec spec_float :=
  fun k => round_to BFloat16 (if k <? half then a k else b (k - half)).

Section ChannelsLastBFloat16.
Variable VECTOR_WIDTH : Z.
Variable input_data : buffer spec_float.
Variables channels input_height input_width : Z.

Local Abbreviation bsize := (Vec_size VECTOR_WIDTH BFloat16).
Local Abbreviation fsize := (Vec_size VECTOR_WIDTH Float).
Local Abbreviation isize := (Vec_size VECTOR_WIDTH Float).
Local Abbreviation size_ := channels.
Local Abbreviation len := (vec_len channels (Vec_size VECTOR_WIDTH BFloat16)).

(** Pass I, vector part (lines 281 to 284). *)
Definition bf_init_vec (index0 : Z) (st : bf_state) (d1 : Z) : bf_state :=
  let index0_ivec := broadcast (wrap_signed 32 index0) in
  let max_fvec := broadcast neg_infinity in
  mkBf (bf_out st) (bf_ind st)
       (store isize index0_ivec (bf_index_buffer st) d1)
       (store fsize max_fvec (bf_max st) d1).

(** Pass I, scalar tail (lines 285 to 288). *)
Definition bf_init_tail (out index0 : Z) (st : bf_state) (d1 : Z) : bf_state :=
  mkBf (bf_out st)
       (upd (bf_ind st) (out + d1) index0)
       (bf_index_buffer st)
       (upd (bf_max st) d1 neg_infinity).

(** Pass II, vector part (lines 297 to 327). *)
Definition bf_max_vec (in_ index : Z) (st : bf_state) (d2 : Z) : bf_state :=
  let index_ivec := broadcast (wrap_signed 32 index) in
  let val_bvec := loadu input_data (in_ + d2) in
  let '(val_fvec0, val_fvec1) := convert_bfloat16_float fsize val_bvec in
  let maxindex_ivec0 := loadu (bf_index_buffer st) d2 in
  let maxindex_ivec1 := loadu (bf_index_buffer st) (d2 + isize) in
  let maxval_fvec0 := loadu (bf_max st) d2 in
  let maxval_fvec1 := loadu (bf_max st) (d2 + fsize) in
  let mask0 := vec_or (vec_gt val_fvec0 maxval_fvec0) (vec_isnan val_fvec0) in
  let mask1 := vec_or (vec_gt val_fvec1 maxval_fvec1) (vec_isnan val_fvec1) in
  let imask0 := vec_cast mask0 in
  let imask1 := vec_cast mask1 in
  let max_fvec0 := blendv maxval_fvec0 val_fvec0 mask0 in
  let max_fvec1 := blendv maxval_fvec1 val_fvec1 mask1 in
  let ind_ivec0 := blendv maxindex_ivec0 index_ivec imask0 in
  let ind_ivec1 := blendv maxindex_ivec1 index_ivec imask1 in
  let max1 := store fsize max_fvec0 (bf_max st) d2 in
  let max2 := store fsize max_fvec1 max1 (d2 + fsize) in
  let ib1 := store isize ind_ivec0 (bf_index_buffer st) d2 in
  let ib2 := store isize ind_ivec1 ib1 (d2 + isize) in
  mkBf (bf_out st) (bf_ind st) ib2 max2.

(** Pass II, scalar tail (lines 328 to 337). *)
Definition bf_max_tail (out in_ index : Z) (st : bf_state) (d2 : Z) : bf_state :=
  let val := to_float (input_data (in_ + d2)) in
  let maxindex := bf_ind st (out + d2) in
  let maxval := bf_max st d2 in
  let mask := gt val maxval || isnan val in
  mkBf (bf_out st)
       (upd (bf_ind st) (out + d2) (if mask then index else maxindex))
       (bf_index_buffer st)
       (upd (bf_max st) d2 (if mask then val else maxval)).

(** One input position of the window (lines 292 to 337). *)
Definition bf_pixel (out n ih : Z) (st : bf_state) (iw : Z) : bf_state :=
  let in_ := n * input_height * input_width * channels
             + ih * input_width * channels + iw * channels in
  let index := ih * input_width + iw in
  let st := fold_left (bf_max_vec in_ index) (strided 0 len bsize) st in
  fold_left (bf_max_tail out in_ index)
            (irange (strided_end 0 len bsize) size_) st.

(** Pass III, vector part (lines 342 to 347). *)
Definition bf_store_vec (out : Z) (st : bf_state) (d3 : Z) : bf_state :=
  let max_fvec0 := loadu (bf_max st) d3 in
  let max_fvec1 := loadu (bf_max st) (d3 + fsize) in
  let max_bvec := convert_float_bfloat16 fsize max_fvec0 max_fvec1 in
  mkBf (store bsize max_bvec (bf_out st) (out + d3))
       (bf_ind st) (bf_index_buffer st) (bf_max st).

(** Pass III, scalar tail (lines 348 to 350). *)
Definition bf_store_tail (out : Z) (st : bf_state) (d3 : Z) : bf_state :=
  mkBf (upd (bf_out st) (out + d3) (round_to BFloat16 (bf_max st d3)))
       (bf_ind st) (bf_index_buffer st) (bf_max st).

(** One output position (lines 268 to 352). *)
Definition bf_position (output_height output_width : Z)
    (st : bf_state) (i n oh ow : Z) : bf_state :=
  let ih0 := start_index oh output_height input_height in
  let ih1 := end_index oh output_height input_height in
  let iw0 := start_index ow output_width input_width in
  let iw1 := end_index ow output_width input_width in
  let out := i * channels in
  let index0 := ih0 * input_width + iw0 in
  let st := fold_left (bf_init_vec index0) (strided 0 len fsize) st in
  let st := fold_left (bf_init_tail out index0)
                      (irange (strided_end 0 len fsize) size_) st in
  let st :=
    fold_left
      (fun st ih => fold_left (bf_pixel out n ih) (irange iw0 iw1) st)
      (irange ih0 ih1) st in
  let st := fold_left (bf_store_vec out) (strided 0 len bsize) st in
  let st := fold_left (bf_store_tail out)
                      (irange (strided_end 0 len bsize) size_) st in
  mkBf (bf_out st)
       (convert (bf_index_buffer st) (bf_ind st) out len)
       (bf_index_buffer st) (bf_max st).

Definition bf_worker_step (nbatch output_height output_width : Z)
    (acc : bf_state * (Z * Z * Z)) (i : Z) : bf_state * (Z * Z * Z) :=
  let '(n, oh, ow) := snd acc in
  (bf_position output_height output_width (fst acc) i n oh ow,
   data_index_step nbatch output_height output_width (n, oh, ow)).

(** Body handed to [parallel_for] (lines 252 to 358).  [index_buffer] and
    [max_arr] are fresh and written by Pass I before they are read. *)
Definition bf_worker (nbatch output_height output_width : Z)
    (begin end_ : Z) (st : buffer spec_float * buffer Z)
    : buffer spec_float * buffer Z :=
  let idx := data_index_init begin nbatch output_height output_width in
  let index_buffer : buffer Z := fun _ => 0 in
  let max_arr : buffer spec_float := fun _ => S754_zero false in
  let r := fold_left (bf_worker_step nbatch output_height output_width)
                     (irange begin end_)
                     (mkBf (fst st) (snd st) index_buffer max_arr, idx) in
  (bf_out (fst r), bf_ind (fst r)).
End ChannelsLastBFloat16.

Definition cpu_adaptive_max_pool_channels_last_BFloat16
    (pool : ThreadPool) (VECTOR_WIDTH : Z)
    (output_ : Tensor) (indices_ : LongTensor) (input_ : Tensor)
    (output_size : list Z) : result (Tensor * LongTensor) :=
  if negb (ndimension input_ =? 4) then Throw ChannelsLastNeeds4Dims else
  let input_data := data_ptr input_ in
  let nbatch := size input_ 0 in
  let channels := size input_ 1 in
  let input_height := size input_ 2 in
  let input_width := size input_ 3 in
  let output_height := nth 0 output_size 0 in
  let output_width := nth 1 output_size 0 in
  if negb (input_height * input_width <=? 2 ^ 31 - 1)
  then Throw IndexLaneOverflow else
  let st :=
    parallel_for pool 0 (nbatch * output_height * output_width) 0
      (bf_worker VECTOR_WIDTH input_data channels
                 input_height input_width nbatch output_height output_width)
      (data_ptr output_, long_data_ptr indices_) in
  Ok (set_data output_ (fst st), set_long_data indices_ (snd st)).

(* ================================================================== *)
(** * K-BWD-C and K-BWD-CL *)
(* ================================================================== *)

(** The backward kernels are templates over the element type and use nothing
    of it but [+=]; they are transcribed over any type with an addition. *)
Section Backward.
Variable A : Type.
Variable add : A -> A -> A.
Variable grad_output_data : buffer A.
Variable indices_data : buffer Z.

(** Lines 402 to 406: one output cell of plane [c]. *)
Definition bwd_cell (input_height input_width output_height output_width c oh : Z)
    (grad_input_data : buffer A) (ow : Z) : buffer A :=
  let gi_off := c * input_height * input_width in
  let go_off := c * output_height * output_width in
  let index := oh * output_width + ow in
  let maxindex := indices_data (go_off + index) in
  upd grad_input_data (gi_off + maxindex)
      (add (grad_input_data (gi_off + maxindex)) (grad_output_data (go_off + index))).

(** Lines 392 to 409: one plane. *)
Definition bwd_plane (input_height input_width output_height output_width : Z)
    (grad_input_data : buffer A) (c : Z) : buffer A :=
  fold_left
    (fun gi oh =>
       fold_left
         (bwd_cell input_height input_width output_height output_width c oh)
         (irange 0 output_width) gi)
    (irange 0 output_height) grad_input_data.

(** Lines 391 to 410. *)
Definition backward_planes (pool : ThreadPool)
    (channels input_height input_width output_height output_width : Z)
    (grad_input_data : buffer A) : buffer A :=
  parallel_for pool 0 channels 0
    (fun begin end_ gi =>
       fold_left (bwd_plane input_height input_width output_height output_width)
                 (irange begin end_) gi)
    grad_input_data.

(** Lines 460 to 463: one channel of one output position of batch [n]. *)
Definition bwd_cl_channel
    (channels input_height input_width output_height output_width n oh ow : Z)
    (grad_input_data : buffer A) (c : Z) : buffer A :=
  let gi_off := n * input_height * input_width * channels in
  let go_off := n * output_height * output_width * channels in
  let gout := go_off + (oh * output_width * channels + ow * channels) in
  let maxindex := indices_data (gout + c) in
  upd grad_input_data (gi_off + (maxindex * channels + c))
      (add (grad_input_data (gi_off + (maxindex * channels + c)))
           (grad_output_data (gout + c))).

(** Lines 445 to 466: one batch entry. *)
Definition bwd_cl_batch
    (channels input_height input_width output_height output_width : Z)
    (grad_input_data : buffer A) (n : Z) : buffer A :=
  fold_left
    (fun gi oh =>
       fold_left
         (fun gi ow =>
            fold_left
              (bwd_cl_channel channels input_height input_width
                              output_height output_width n oh ow)
              (irange 0 channels) gi)
         (irange 0 output_width) gi)
    (irange 0 output_height) grad_input_data.

(** Lines 444 to 467. *)
Definition backward_batches (pool : ThreadPool)
    (nbatch channels input_height input_width output_height output_width : Z)
    (grad_input_data : buffer A) : buffer A :=
  parallel_for pool 0 nbatch 0
    (fun begin end_ gi =>
       fold_left (bwd_cl_batch channels input_height input_width
                               output_height output_width)
                 (irange begin end_) gi)
    grad_input_data.
End Backward.

Arguments bwd_cell {A}.
Arguments bwd_plane {A}.
Arguments backward_planes {A}.
Arguments bwd_cl_channel {A}.
Arguments bwd_cl_batch {A}.
Arguments backward_batches {A}.

Definition cpu_adaptive_max_pool_backward (pool : ThreadPool) (scalar_t : ScalarType)
    (grad_input_ grad_output_ : Tensor) (indices_ : LongTensor) : Tensor :=
  let ndim := ndimension grad_output_ in
  let channels :=
    if ndim =? 3 then size grad_output_ 0
    else size grad_output_ 0 * size grad_output_ 1 in
  let input_height := size grad_input_ (-2) in
  let input_width := size grad_input_ (-1) in
  let output_height := size grad_output_ (-2) in
  let output_width := size grad_output_ (-1) in
  set_data grad_input_
    (backward_planes (scalar_add scalar_t)
       (data_ptr grad_output_) (long_data_ptr indices_) pool
       channels input_height input_width output_height output_width
       (data_ptr grad_input_)).

Definition cpu_adaptive_max_pool_backward_channels_last (pool : ThreadPool)
    (scalar_t : ScalarType)
    (grad_input_ grad_output_ : Tensor) (indices_ : LongTensor) : result Tensor :=
  if negb (ndimension grad_output_ =? 4) then Throw ChannelsLastNeeds4Dims else
  let nbatch := size grad_input_ 0 in
  let channels := size grad_input_ 1 in
  let input_height := size grad_input_ 2 in
  let input_width := size grad_input_ 3 in
  let output_height := size grad_output_ 2 in
  let output_width := size grad_output_ 3 in
  Ok (set_data grad_input_
        (backward_batches (scalar_add scalar_t)
           (data_ptr grad_output_) (long_data_ptr indices_) pool
           nbatch channels input_height input_width output_height output_width
           (data_ptr grad_input_))).

(* ================================================================== *)
(** * Dispatch *)
(* ================================================================== *)

(** [cpu_adaptive_max_pool_channels_last<scalar_t>]: the instance the
    compiler selects, which is the specialisation for [at::BFloat16]. *)
Definition channels_last_instance (pool : ThreadPool)
    (scalar_t : ScalarType) (VECTOR_WIDTH : Z)
    (output : Tensor) (indices : LongTensor) (input : Tensor)
    (output_size : list Z) : result (Tensor * LongTensor) :=
  match scalar_t with
  | BFloat16 =>
      cpu_adaptive_max_pool_channels_last_BFloat16
        pool VECTOR_WIDTH output indices input output_size
  | t =>
      cpu_adaptive_max_pool_channels_last
        pool t VECTOR_WIDTH output indices input output_size
  end.

(** The contiguous branch instantiates [cpu_adaptive_max_pool] with
    [accscalar_t = float] for [BFloat16] and [accscalar_t = scalar_t]
    otherwise, which is what [accscalar_t] above computes. *)
Definition adaptive_max_pool2d_kernel_impl (pool : ThreadPool) (VECTOR_WIDTH : Z)
    (output : Tensor) (indices : LongTensor) (input : Tensor)
    (output_size : list Z) : result (Tensor * LongTensor) :=
  match suggest_memory_format input with
  | Contiguous =>
      Ok (cpu_adaptive_max_pool pool (scalar_type input)
                                output indices input output_size)
  | ChannelsLast =>
      channels_last_instance pool (scalar_type input) VECTOR_WIDTH
                             output indices input output_size
  | _ => Throw UnsupportedMemoryFormat
  end.

Definition adaptive_max_pool2d_backward_kernel_impl (pool : ThreadPool)
    (grad_input grad_output : Tensor) (indices : LongTensor) : result Tensor :=
  match suggest_memory_format grad_input with
  | Contiguous =>
      Ok (cpu_adaptive_max_pool_backward pool (scalar_type grad_output)
            grad_input grad_output indices)
  | ChannelsLast =>
      cpu_adaptive_max_pool_backward_channels_last pool (scalar_type grad_output)
        grad_input grad_output indices
  | _ => Throw UnsupportedMemoryFormat
  end.

(** [at::empty] raises an error when one of the sizes is negative. *)
Definition check_size_nonnegative (shape : list Z) : bool :=
  forallb (fun d => 0 <=? d) shape.

(** [at::empty(sizes, options.memory_format(format))], for sizes that are
    not negative: a caller that passes sizes of its own makes the check
    above first.  The contents are unspecified; the kernels overwrite every
    element.  A failure to obtain the memory is not modelled. *)
Definition at_empty (t : ScalarType) (shape : list Z) (format : MemoryFormat) : Tensor :=
  mkTensor t shape format (fun _ => S754_zero false).

Definition at_empty_long (shape : list Z) (format : MemoryFormat) : LongTensor :=
  mkLongTensor shape format (fun _ => 0).

(** [t.zero_()] *)
Definition zero_ (t : Tensor) : Tensor := set_data t (fun _ => S754_zero false).

(** The checks of lines 566 to 576: the first dimension that is empty, from
    dimension 1 on, if any. *)
Definition first_empty_dim (shape : list Z) : option Z :=
  find (fun i => negb (dim_of shape i >? 0)) (irange 1 (Z.of_nat (length shape))).

(** Lines 550 to 618.  The two result tensors are allocated after the three
    checks of the shell and before the kernel is selected. *)
Definition adaptive_max_pool2d_out_cpu (pool : ThreadPool) (VECTOR_WIDTH : Z)
    (input : Tensor) (output_size : list Z) : result (Tensor * LongTensor) :=
  let ndim := ndimension input in
  if negb ((ndim =? 3) || (ndim =? 4)) then Throw ExpectedRank3or4 else
  match first_empty_dim (sizes input) with
  | Some i => Throw (EmptyNonBatchDim i)
  | None =>
      if negb (Z.of_nat (length output_size) =? 2) then Throw OutputSizeArity else
      let dimH := if ndimension input =? 4 then 2 else 1 in
      let sizeB := if ndimension input =? 4 then size input 0 else 1 in
      let sizeD := size input (dimH - 1) in
      let osizeH := nth 0 output_size 0 in
      let osizeW := nth 1 output_size 0 in
      let shape :=
        if ndimension input =? 3 then [sizeD; osizeH; osizeW]
        else [sizeB; sizeD; osizeH; osizeW] in
      if negb (check_size_nonnegative shape) then Throw NegativeDimension else
      let '(output, indices) :=
        if ndimension input =? 3 then
          (at_empty (scalar_type input) [sizeD; osizeH; osizeW] Contiguous,
           at_empty_long [sizeD; osizeH; osizeW] Contiguous)
        else
          (at_empty (scalar_type input) [sizeB; sizeD; osizeH; osizeW]
                    (suggest_memory_format input),
           at_empty_long [sizeB; sizeD; osizeH; osizeW]
                         (suggest_memory_format input)) in
      adaptive_max_pool2d_kernel_impl pool VECTOR_WIDTH
                                      output indices input output_size
  end.

(** [grad_input] is allocated with the sizes of [input], an existing
    tensor, which are not negative. *)
Definition adaptive_max_pool2d_backward_out_cpu (pool : ThreadPool)
    (grad_output input : Tensor) (indices : LongTensor) : result Tensor :=
  let ndim := ndimension grad_output in
  if negb ((ndim =? 3) || (ndim =? 4)) then Throw ExpectedRank3or4 else
  match first_empty_dim (sizes grad_output) with
  | Some i => Throw (EmptyNonBatchDim i)
  | None =>
      if negb (match scalar_type input, scalar_type grad_output with
               | Float, Float | Double, Double | BFloat16, BFloat16 => true
               | _, _ => false
               end)
      then Throw DtypeMismatch else
      let grad_input :=
        zero_ (at_empty (scalar_type input) (sizes input)
                        (suggest_memory_format input)) in
      adaptive_max_pool2d_backward_kernel_impl pool grad_input grad_output indices
  end.

(* ================================================================== *)
(** * Notions used in the statements *)
(* ================================================================== *)

(** Offset of element [(n, c, h, w)] in a row-major tensor of [C] channels
    and [H] by [W] planes, and in a channels-last one. *)
Definition offset_nchw (C H W n c h w : Z) : Z := ((n * C + c) * H + h) * W + w.
Definition offset_nhwc (C H W n c h w : Z) : Z := ((n * H + h) * W + w) * C + c.

(** The flat indices [ih * W + iw] of a window, in scan order (rows outer,
    columns inner). *)
Definition window (input_width ih0 ih1 iw0 iw1 : Z) : list Z :=
  flat_map (fun ih => map (fun iw => ih * input_width + iw) (irange iw0 iw1))
           (irange ih0 ih1).

(** The window of output cell [(oh, ow)]. *)
Definition cell_window (input_height input_width output_height output_width oh ow : Z)
    : list Z :=
  window input_width
         (start_index oh output_height input_height)
         (end_index oh output_height input_height)
         (start_index ow output_width input_width)
         (end_index ow output_width input_width).

(** The scan of lines 58 to 67 over a list of flat indices: the running
    maximum and its index after each position. *)
Definition scan_step (p : buffer spec_float) (st : spec_float * Z) (index : Z)
    : spec_float * Z :=
  let val := p index in
  if gt val (fst st) || isnan val then (val, index) else st.

Definition scan (p : buffer spec_float) (l : list Z) (init : spec_float * Z)
    : spec_float * Z :=
  fold_left (scan_step p) l init.

(** What the specification prescribes for the scan of the positions [l] of
    [p], started at [(-inf, j0)]:
    - if a NaN occurs, NaN and the position of the last NaN;
    - otherwise, if some element exceeds minus infinity, the maximum and its
      first position: every earlier element is strictly smaller, no later
      one is greater;
    - otherwise every element is minus infinity and the initial pair stays. *)
Inductive pooled (p : buffer spec_float) (l : list Z) (j0 : Z)
    : spec_float * Z -> Prop :=
| pooled_nan l1 j l2 :
    l = l1 ++ j :: l2 ->
    isnan (p j) = true ->
    (forall k, In k l2 -> isnan (p k) = false) ->
    pooled p l j0 (S754_nan, j)
| pooled_max l1 j l2 :
    l = l1 ++ j :: l2 ->
    (forall k, In k l -> isnan (p k) = false) ->
    (forall k, In k l1 -> gt (p j) (p k) = true) ->
    (forall k, In k l2 -> gt (p k) (p j) = false) ->
    gt (p j) neg_infinity = true ->
    pooled p l j0 (p j, j)
| pooled_init :
    (forall k, In k l -> p k = neg_infinity) ->
    pooled p l j0 (neg_infinity, j0).

(** The cells [(c, oh, ow)] in the order the contiguous forward kernel
    fills them. *)
Definition forward_cells (channels output_height output_width : Z)
    : list (Z * Z * Z) :=
  flat_map
    (fun c =>
       flat_map (fun oh => map (fun ow => (c, oh, ow)) (irange 0 output_width))
                (irange 0 output_height))
    (irange 0 channels).

(** One lane of the channels-last reduction: the running maximum and index
    of a channel after an element [val] at flat index [index]. *)
Definition lane_step (val : spec_float) (index : Z) (st : spec_float * Z)
    : spec_float * Z :=
  if gt val (fst st) || isnan val then (val, index) else st.

(** The running pair of channel [a] at an output position whose [out] and
    [ind] pointers are at offset [out]: the index is kept in [index_buffer]
    for the channels processed in whole registers and in [ind] for the
    rest. *)
Definition cl_lane (len out : Z) (st : cl_state) (a : Z) : spec_float * Z :=
  (cl_out st (out + a),
   if a <? len then cl_index_buffer st a else cl_ind st (out + a)).

Definition bf_lane (len out : Z) (st : bf_state) (a : Z) : spec_float * Z :=
  (bf_max st a,
   if a <? len then bf_index_buffer st a else bf_ind st (out + a)).

(** Channel [d] of batch entry [n] of a channels-last buffer, as a plane
    addressed by flat index. *)
Definition channel_plane (data : buffer spec_float) (C H W n d : Z)
    : buffer spec_float :=
  fun index => data (n * H * W * C + index * C + d).

(** The coordinates of the [i]-th output position. *)
Definition position_coords (N OH OW i : Z) : Z * Z * Z :=
  ((i / (OH * OW)) mod N, (i / OW) mod OH, i mod OW).

(** The loop body of a channels-last worker, for either kernel: process
    position [i] at the current coordinates, then step the coordinates. *)
Definition worker_step {St} (position : St -> Z -> Z -> Z -> Z -> St)
    (N OH OW : Z) (acc : St * (Z * Z * Z)) (i : Z) : St * (Z * Z * Z) :=
  let '(n, oh, ow) := snd acc in
  (position (fst acc) i n oh ow, data_index_step N OH OW (n, oh, ow)).

(** The output cells [(oh, ow)] of a plane, in the order the backward kernels
    visit them. *)
Definition plane_cells (output_height output_width : Z) : list (Z * Z) :=
  flat_map (fun oh => map (fun ow => (oh, ow)) (irange 0 output_width))
           (irange 0 output_height).


(** A list of [p[a] += v] updates, applied in order. *)
Definition scatter_add {A} (add : A -> A -> A) (us : list (Z * A)) (g : buffer A)
    : buffer A :=
  fold_left (fun g u => upd g (fst u) (add (g (fst u)) (snd u))) us g.

(** The gradients that flow to flat index [target] of an input plane: those
    of the output cells whose stored index is [target], in visiting order.
    [addr] gives the offset of a cell in [grad_output] and [indices]. *)
Definition contributions {A} (grad_output : buffer A) (indices : buffer Z)
    (addr : Z * Z -> Z) (target : Z) (cells : list (Z * Z)) : list A :=
  map (fun cell => grad_output (addr cell))
      (filter (fun cell => indices (addr cell) =? target) cells).

(** The updates the contiguous backward kernel makes for plane [c], and those
    the channels-last one makes for batch entry [n], in order. *)
Definition plane_updates {A} (grad_output : buffer A) (indices : buffer Z)
    (IH IW OH OW c : Z) : list (Z * A) :=
  map (fun cell =>
         (c * IH * IW + indices (c * OH * OW + (fst cell * OW + snd cell)),
          grad_output (c * OH * OW + (fst cell * OW + snd cell))))
      (plane_cells OH OW).

Definition batch_updates {A} (grad_output : buffer A) (indices : buffer Z)
    (C IH IW OH OW n : Z) : list (Z * A) :=
  flat_map
    (fun cell =>
       map (fun c =>
              let gout := n * OH * OW * C + (fst cell * OW * C + snd cell * C) in
              (n * IH * IW * C + (indices (gout + c) * C + c),
               grad_output (gout + c)))
           (irange 0 C))
    (plane_cells OH OW).

(** The contract of the thread pool: the sub-ranges handed out are not
    empty and cover [begin, end) from left to right; an empty range is not
    handed to anyone. *)
Fixpoint covers (begin end_ : Z) (chunks : list (Z * Z)) : Prop :=
  match chunks with
  | [] => end_ <= begin
  | chunk :: rest =>
      fst chunk = begin /\ begin < snd chunk <= end_ /\ covers (snd chunk) end_ rest
  end.

Definition fair (pool : ThreadPool) : Prop :=
  forall begin end_, covers begin end_ (pool begin end_).

(** A pool with a single worker, and one that splits every range in two. *)
Definition single_worker : ThreadPool :=
  fun begin end_ => if begin <? end_ then [(begin, end_)] else [].

Definition two_workers : ThreadPool :=
  fun begin end_ =>
    let mid := begin + (end_ - begin) / 2 in
    if begin <? mid then [(begin, mid); (mid, end_)]
    else if begin <? end_ then [(begin, end_)] else [].

(** Conditions under which the forward shell raises an error. *)
Definition bad_rank (input : Tensor) : Prop :=
  ~ (ndimension input = 3 \/ ndimension input = 4).

Definition has_empty_dim (input : Tensor) : Prop :=
  exists i, 1 <= i < ndimension input /\ size input i = 0.

Definition bad_arity (output_size : list Z) : Prop :=
  length output_size <> 2%nat.

Definition negative_output_size (output_size : list Z) : Prop :=
  nth 0 output_size 0 < 0 \/ nth 1 output_size 0 < 0.

Definition lane_overflow (input : Tensor) : Prop :=
  suggest_memory_format input = ChannelsLast /\
  integer_t_max (scalar_type input) < size input 2 * size input 3.

(** What the dispatch shells may assume of a tensor handed to them: sizes are
    not negative, the spatial extent fits [int64_t], a tensor of rank 3 or 4
    reports one of the two layouts it can have, and channels-last is reported
    by tensors of rank 4 only. *)
Record well_formed (input : Tensor) : Prop := {
  wf_sizes : Forall (fun d => 0 <= d) (sizes input);
  wf_spatial : size input (-2) * size input (-1) <= int64_max;
  wf_layout : ndimension input = 3 \/ ndimension input = 4 ->
              suggest_memory_format input = Contiguous \/
              suggest_memory_format input = ChannelsLast;
  wf_channels_last : suggest_memory_format input = ChannelsLast ->
                     ndimension input = 4
}.

(** [alpha * g1 + beta * g2], element by element, over any type with an
    addition and a multiplication. *)
Definition axpby {A} (add mul : A -> A -> A) (alpha beta : A) (g1 g2 : buffer A)
    : buffer A :=
  fun i => add (mul alpha (g1 i)) (mul beta (g2 i)).

(** The buffer of a row-major tensor, permuted to the channels-last layout:
    element [(n, c, h, w)] moves from [offset_nchw] to [offset_nhwc]. *)
Definition to_channels_last (C H W : Z) (data : buffer spec_float)
    : buffer spec_float :=
  fun a =>
    let c := a mod C in
    let p := a / C in
    let w := p mod W in
    let q := p / W in
    let h := q mod H in
    let n := q / H in
    data (offset_nchw C H W n c h w).

(** Inputs used as examples below. *)
Definition zeros : buffer spec_float := fun _ => S754_zero false.

Definition huge_channels_last_input : Tensor :=
  mkTensor Float [1; 2; 65536; 32768] ChannelsLast zeros.

Definition small_input : Tensor :=
  mkTensor Float [1; 1; 4; 4] Contiguous
           (fun i => int64_to Float i).

(** [double] values 1, 3 and 2^-53, and a gradient that sends both cells of
    a 1 by 2 output to the single cell of a 1 by 1 input. *)
Definition d_one : spec_float := int64_to Double 1.
Definition d_tiny : spec_float := S754_finite false (2 ^ 52) (-105).

Definition lin_g1 : buffer spec_float := fun i => if i =? 0 then d_one else d_tiny.
Definition lin_g2 : buffer spec_float := zeros.
Definition lin_indices : LongTensor := mkLongTensor [1; 1; 1; 2] Contiguous (fun _ => 0).

(** Scenario S6 of the specification: unit gradients of a 2 by 2 output whose
    maxima sit at flat indices 5, 7, 13 and 15 of a 4 by 4 input. *)
Definition s6_grad_output : buffer spec_float := fun _ => int64_to Float 1.
Definition s6_indices : buffer Z := fun a => nth (Z.to_nat a) [5; 7; 13; 15] 0.

(** [BFloat16] values and inputs on which the contiguous forward kernel is
    evaluated. *)
Definition bf_zero : spec_float := S754_zero false.
Definition bf_one : spec_float := scalar_of_int64 BFloat16 1.

Definition empty_like (t : ScalarType) (shape : list Z) : Tensor * LongTensor :=
  (at_empty t shape Contiguous, at_empty_long shape Contiguous).

(** 1 x 1 x 1 x 260, zero everywhere but at flat index 259. *)
Definition peak_at_259 : Tensor :=
  mkTensor BFloat16 [1; 1; 1; 260] Contiguous
           (fun i => if i =? 259 then bf_one else bf_zero).

(** 1 x 2 x 1 x 258: channel 0 peaks at flat index 257, channel 1 at 3. *)
Definition two_channel_data : buffer spec_float :=
  fun a => if (a =? 257) || (a =? 258 + 3) then bf_one else bf_zero.

Definition two_channel_contiguous : Tensor :=
  mkTensor BFloat16 [1; 2; 1; 258] Contiguous two_channel_data.

Definition two_channel_channels_last : Tensor :=
  mkTensor BFloat16 [1; 2; 1; 258] ChannelsLast
           (to_channels_last 2 1 258 two_channel_data).

(** 1 x 1 x 1 x 258 with NaN at flat indices 3 and 257. *)
Definition nan_at_3_and_257 : Tensor :=
  mkTensor BFloat16 [1; 1; 1; 258] Contiguous
           (fun i => if (i =? 3) || (i =? 257) then S754_nan else bf_zero).

(** 1 x 1 x 1 x 300: zero before flat index 257, one from there on. *)
Definition step_at_257 : Tensor :=
  mkTensor BFloat16 [1; 1; 1; 300] Contiguous
           (fun i => if i <? 257 then bf_zero else bf_one).

(** 1 x 1 x 1 x 514, every element minus infinity. *)
Definition all_neg_infinity : Tensor :=
  mkTensor BFloat16 [1; 1; 1; 514] Contiguous (fun _ => neg_infinity).

(** A gradient or an index buffer in the two layouts: the channels-last one
    holds at [offset_nhwc] what the row-major one holds at [offset_nchw]. *)
Definition same_elements {A} (N C H W : Z) (row_major channels_last : buffer A)
    : Prop :=
  forall n c h w,
    0 <= n < N -> 0 <= c < C -> 0 <= h < H -> 0 <= w < W ->
    channels_last (offset_nhwc C H W n c h w) = row_major (offset_nchw C H W n c h w).


(** A plane of 16 [float] elements, zero everywhere but at flat index 5, and
    a gradient of ones. *)
Definition peak_at_5 : buffer spec_float :=
  fun i => if i =? 5 then int64_to Float 1 else S754_zero false.

Definition ones : buffer spec_float := fun _ => int64_to Float 1.

(** Plane [(n, c)] of a 4D input buffer addressed by flat index
    [ih * W + iw], and the offset of cell [(n, c, oh, ow)] of the result, in
    the layout [fmt]. *)
Definition plane_of (fmt : MemoryFormat) (data : buffer spec_float)
    (C H W n c : Z) : buffer spec_float :=
  match fmt with
  | ChannelsLast => channel_plane data C H W n c
  | _ => shift data (offset_nchw C H W n c 0 0)
  end.

Definition cell_offset (fmt : MemoryFormat) (C OH OW n c oh ow : Z) : Z :=
  match fmt with
  | ChannelsLast => offset_nhwc C OH OW n c oh ow
  | _ => offset_nchw C OH OW n c oh ow
  end.

(** [peak_at_5] with one more non-zero element, far from the first plane. *)
Definition peak_at_5_and_100 : buffer spec_float :=
  fun i => if i =? 100 then int64_to Float 1 else peak_at_5 i.





(** [double] values -1 and plus infinity, indices that send each cell of a
    1 by 2 output to its own element of a 1 by 2 input, and the backward
    kernel on a 1 by 2 input whose second element no cell of [lin_indices]
    points at. *)
Definition d_minus_one : spec_float := int64_to Double (-1).
Definition d_infinity : spec_float := S754_infinity false.


Definition lin_backward_wide (g : buffer spec_float) (a : Z) : spec_float :=
  data_ptr (cpu_adaptive_max_pool_backward two_workers Double
              (zero_ (at_empty Double [1; 1; 1; 2] Contiguous))
              (mkTensor Double [1; 1; 1; 2] Contiguous g) lin_indices) a.

(* ================================================================== *)
(** * Windows *)
(* ================================================================== *)

Lemma floor_div_spec a b : 0 < b -> b * floor_div a b <= a < b * floor_div a b + b.
Proof.
  intros Hb. unfold floor_div.
  pose proof (Z.mul_div_le a b Hb). pose proof (Z.mul_succ_div_gt a b Hb). lia.
Qed.

Lemma ceil_div_spec a b : 0 < b -> b * ceil_div a b - b < a <= b * ceil_div a b.
Proof.
  intros Hb. unfold ceil_div.
  pose proof (Z.mul_div_le (- a) b Hb). pose proof (Z.mul_succ_div_gt (- a) b Hb). lia.
Qed.

Lemma window_bounds o O I :
  1 <= O -> 1 <= I -> 0 <= o < O ->
  0 <= start_index o O I /\ start_index o O I < end_index o O I /\ end_index o O I <= I.
Proof.
  intros HO HI Ho. unfold start_index, end_index.
  pose proof (floor_div_spec (o * I) O ltac:(lia)) as Hs.
  pose proof (ceil_div_spec ((o + 1) * I) O ltac:(lia)) as He.
  set (s := floor_div (o * I) O) in *. set (e := ceil_div ((o + 1) * I) O) in *.
  repeat split; nia.
Qed.

Lemma window_cover O I i :
  1 <= O -> 1 <= I -> 0 <= i < I ->
  exists o, 0 <= o < O /\ start_index o O I <= i < end_index o O I.
Proof.
  intros HO HI Hi. exists (floor_div (i * O) I).
  pose proof (floor_div_spec (i * O) I ltac:(lia)) as Ho.
  set (o := floor_div (i * O) I) in *.
  unfold start_index, end_index.
  pose proof (floor_div_spec (o * I) O ltac:(lia)) as Hs.
  pose proof (ceil_div_spec ((o + 1) * I) O ltac:(lia)) as He.
  set (s := floor_div (o * I) O) in *. set (e := ceil_div ((o + 1) * I) O) in *.
  repeat split; nia.
Qed.

Lemma window_adjacent O I o :
  1 <= O -> (O | I) -> end_index o O I = start_index (o + 1) O I.
Proof.
  intros HO [k ->]. unfold start_index, end_index, ceil_div, floor_div.
  replace (- ((o + 1) * (k * O))) with ((- ((o + 1) * k)) * O) by ring.
  replace ((o + 1) * (k * O)) with (((o + 1) * k) * O) by ring.
  rewrite !Z.div_mul by lia. lia.
Qed.

(** C6. For output extent [O >= 1] and input extent [I >= 1], every window
    [start_index o O I, end_index o O I) with [0 <= o < O] lies in [0, I) and
    has at least one element, the windows together cover exactly [0, I), and
    when [O] divides [I] consecutive windows do not overlap. *)
Theorem windows_tile_input (O I : Z) (HO : 1 <= O) (HI : 1 <= I) :
  (forall o, 0 <= o < O ->
     0 <= start_index o O I /\
     1 <= end_index o O I - start_index o O I /\
     end_index o O I <= I) /\
  (forall i, 0 <= i < I <->
     exists o, 0 <= o < O /\ start_index o O I <= i < end_index o O I) /\
  ((O | I) -> forall o, end_index o O I = start_index (o + 1) O I).
Proof.
  split; [|split].
  - intros o Ho. destruct (window_bounds o O I HO HI Ho) as (H1 & H2 & H3). lia.
  - intros i. split.
    + intros Hi. now apply window_cover.
    + intros (o & Ho & Hi).
      destruct (window_bounds o O I HO HI Ho) as (H1 & H2 & H3). lia.
  - intros Hd o. now apply window_adjacent.
Qed.

Lemma windows_tile_input_witness :
  (forall o, 0 <= o < 2 ->
     0 <= start_index o 2 3 /\
     1 <= end_index o 2 3 - start_index o 2 3 /\
     end_index o 2 3 <= 3) /\
  (forall i, 0 <= i < 3 <->
     exists o, 0 <= o < 2 /\ start_index o 2 3 <= i < end_index o 2 3) /\
  ((2 | 3) -> forall o, end_index o 2 3 = start_index (o + 1) 2 3).
Proof. apply (windows_tile_input 2 3); lia. Defined.

(* ================================================================== *)
(** * Error handling of the forward path *)
(* ================================================================== *)

Lemma In_irange a b x : In x (irange a b) <-> a <= x < b.
Proof.
  unfold irange. rewrite in_map_iff. split.
  - intros (k & <- & Hk). apply in_seq in Hk. lia.
  - intros Hx. exists (Z.to_nat (x - a)). split; [lia|]. apply in_seq. lia.
Qed.

Lemma dim_of_nonneg shape i :
  Forall (fun d => 0 <= d) shape -> 0 <= dim_of shape i.
Proof.
  intros Hs. unfold dim_of.
  set (k := Z.to_nat _). clearbody k. revert k.
  induction Hs as [|d l Hd _ IH]; intros [|k]; simpl; auto; lia.
Qed.

Lemma first_empty_dim_none shape :
  first_empty_dim shape = None <->
  forall i, 1 <= i < Z.of_nat (length shape) -> 0 < dim_of shape i.
Proof.
  unfold first_empty_dim. split.
  - intros Hn i Hi.
    pose proof (find_none _ _ Hn i (proj2 (In_irange _ _ _) Hi)) as Hf.
    apply negb_false_iff in Hf. lia.
  - intros Hall. destruct (find _ _) as [i|] eqn:Hf; [|reflexivity].
    apply find_some in Hf. destruct Hf as [Hin Hf].
    apply In_irange in Hin. specialize (Hall i Hin).
    apply negb_true_iff in Hf. lia.
Qed.

Lemma first_empty_dim_some shape i :
  first_empty_dim shape = Some i ->
  1 <= i < Z.of_nat (length shape) /\ dim_of shape i <= 0.
Proof.
  unfold first_empty_dim. intros Hf. apply find_some in Hf.
  destruct Hf as [Hin Hf]. apply In_irange in Hin.
  apply negb_true_iff in Hf. lia.
Qed.

Lemma has_empty_dim_iff input :
  Forall (fun d => 0 <= d) (sizes input) ->
  has_empty_dim input <-> first_empty_dim (sizes input) <> None.
Proof.
  intros Hs. unfold has_empty_dim, size, ndimension. split.
  - intros (i & Hi & Hz) Hn.
    pose proof (proj1 (first_empty_dim_none _) Hn i Hi). lia.
  - intros Hn. destruct (first_empty_dim (sizes input)) as [i|] eqn:Hf; [|congruence].
    apply first_empty_dim_some in Hf. exists i. split; [tauto|].
    pose proof (dim_of_nonneg (sizes input) i Hs). lia.
Qed.

(** The generic channels-last kernel fails exactly on its two checks. *)
Lemma channels_last_generic_outcome pool scalar_t VW output indices input osz :
  ndimension input = 4 ->
  (integer_t_max scalar_t < size input 2 * size input 3 ->
   cpu_adaptive_max_pool_channels_last pool scalar_t VW output indices input osz
   = Throw IndexLaneOverflow) /\
  (size input 2 * size input 3 <= integer_t_max scalar_t ->
   exists out ind,
     cpu_adaptive_max_pool_channels_last pool scalar_t VW output indices input osz
     = Ok (out, ind)).
Proof.
  intros H4. unfold cpu_adaptive_max_pool_channels_last.
  rewrite H4. simpl (negb (4 =? 4)). cbv iota. split; intros Hc.
  - destruct (Z.leb_spec (size input 2 * size input 3) (integer_t_max scalar_t));
      [lia | reflexivity].
  - destruct (Z.leb_spec (size input 2 * size input 3) (integer_t_max scalar_t));
      [|lia]. simpl. eauto.
Qed.

Lemma channels_last_bfloat16_outcome pool VW output indices input osz :
  ndimension input = 4 ->
  (integer_t_max BFloat16 < size input 2 * size input 3 ->
   cpu_adaptive_max_pool_channels_last_BFloat16 pool VW output indices input osz
   = Throw IndexLaneOverflow) /\
  (size input 2 * size input 3 <= integer_t_max BFloat16 ->
   exists out ind,
     cpu_adaptive_max_pool_channels_last_BFloat16 pool VW output indices input osz
     = Ok (out, ind)).
Proof.
  intros H4. unfold cpu_adaptive_max_pool_channels_last_BFloat16.
  rewrite H4. simpl (negb (4 =? 4)). cbv iota.
  change (integer_t_max BFloat16) with (2 ^ 31 - 1). split; intros Hc.
  - destruct (Z.leb_spec (size input 2 * size input 3) (2 ^ 31 - 1));
      [lia | reflexivity].
  - destruct (Z.leb_spec (size input 2 * size input 3) (2 ^ 31 - 1));
      [|lia]. simpl. eauto.
Qed.

Lemma channels_last_instance_outcome pool scalar_t VW output indices input osz :
  ndimension input = 4 ->
  (integer_t_max scalar_t < size input 2 * size input 3 ->
   channels_last_instance pool scalar_t VW output indices input osz
   = Throw IndexLaneOverflow) /\
  (size input 2 * size input 3 <= integer_t_max scalar_t ->
   exists out ind,
     channels_last_instance pool scalar_t VW output indices input osz = Ok (out, ind)).
Proof.
  intros H4. destruct scalar_t; unfold channels_last_instance.
  - now apply channels_last_generic_outcome.
  - now apply channels_last_generic_outcome.
  - now apply channels_last_bfloat16_outcome.
Qed.

(** C7. On a 4D input whose spatial extent [H * W] is an [int64_t], the
    channels-last forward kernel raises the overflow error, and returns no
    output, whenever [H * W] exceeds the largest value of the index lane; the
    lane is a 32-bit signed integer for [float] and [BFloat16] and a 64-bit one
    for [double] (so that the check cannot fail for [double]); when [H * W] is
    within the bound the kernel returns its two tensors. *)
Theorem channels_last_overflow_check
    (pool : ThreadPool) (scalar_t : ScalarType) (VECTOR_WIDTH : Z)
    (output : Tensor) (indices : LongTensor) (input : Tensor) (output_size : list Z)
    (H4 : ndimension input = 4)
    (Hfit : size input 2 * size input 3 <= int64_max) :
  (integer_t_max Float = 2 ^ 31 - 1 /\
   integer_t_max BFloat16 = 2 ^ 31 - 1 /\
   integer_t_max Double = 2 ^ 63 - 1) /\
  (integer_t_max scalar_t < size input 2 * size input 3 ->
   channels_last_instance pool scalar_t VECTOR_WIDTH output indices input output_size
   = Throw IndexLaneOverflow) /\
  (size input 2 * size input 3 <= integer_t_max scalar_t ->
   exists out ind,
     channels_last_instance pool scalar_t VECTOR_WIDTH output indices input output_size
     = Ok (out, ind)) /\
  (scalar_t = Double ->
   exists out ind,
     channels_last_instance pool scalar_t VECTOR_WIDTH output indices input output_size
     = Ok (out, ind)).
Proof.
  destruct (channels_last_instance_outcome
              pool scalar_t VECTOR_WIDTH output indices input output_size H4)
    as [Hthrow Hok].
  repeat split; auto.
  intros ->. apply Hok. exact Hfit.
Qed.

Lemma channels_last_overflow_check_witness :
  ndimension huge_channels_last_input = 4 /\
  size huge_channels_last_input 2 * size huge_channels_last_input 3 <= int64_max /\
  integer_t_max Float < size huge_channels_last_input 2 * size huge_channels_last_input 3 /\
  channels_last_instance single_worker Float 32
    (at_empty Float [1; 2; 1; 1] ChannelsLast)
    (at_empty_long [1; 2; 1; 1] ChannelsLast)
    huge_channels_last_input [1; 1]
  = Throw IndexLaneOverflow.
Proof.
  assert (H4 : ndimension huge_channels_last_input = 4) by reflexivity.
  assert (Hfit : size huge_channels_last_input 2 * size huge_channels_last_input 3
                 <= int64_max) by (vm_compute; discriminate).
  assert (Hov : integer_t_max Float
                < size huge_channels_last_input 2 * size huge_channels_last_input 3)
    by (vm_compute; reflexivity).
  split; [exact H4 | split; [exact Hfit | split; [exact Hov |]]].
  exact (proj1 (proj2 (channels_last_overflow_check
                         single_worker Float 32
                         (at_empty Float [1; 2; 1; 1] ChannelsLast)
                         (at_empty_long [1; 2; 1; 1] ChannelsLast)
                         huge_channels_last_input [1; 1] H4 Hfit)) Hov).
Defined.

Lemma shell_rank_ok input :
  ~ bad_rank input ->
  ((ndimension input =? 3) || (ndimension input =? 4)) = true.
Proof.
  unfold bad_rank. intros Hr.
  destruct (Z.eqb_spec (ndimension input) 3); [reflexivity|].
  destruct (Z.eqb_spec (ndimension input) 4); [reflexivity|]. tauto.
Qed.

Lemma shell_rank_bad input :
  bad_rank input ->
  ((ndimension input =? 3) || (ndimension input =? 4)) = false.
Proof.
  unfold bad_rank. intros Hr.
  destruct (Z.eqb_spec (ndimension input) 3); [tauto|].
  destruct (Z.eqb_spec (ndimension input) 4); [tauto|]. reflexivity.
Qed.

Lemma shell_arity_ok (output_size : list Z) :
  ~ bad_arity output_size -> (Z.of_nat (length output_size) =? 2) = true.
Proof. unfold bad_arity. intros H. apply Z.eqb_eq. lia. Qed.

Lemma shell_arity_bad (output_size : list Z) :
  bad_arity output_size -> (Z.of_nat (length output_size) =? 2) = false.
Proof. unfold bad_arity. intros H. apply Z.eqb_neq. lia. Qed.

(** Once the three checks of the shell have passed, [at::empty] raises its
    error when an element of [output_size] is negative; otherwise the result
    of the shell is that of the kernel selected by the layout tag. *)
Lemma shell_after_checks pool VW input osz :
  Forall (fun d => 0 <= d) (sizes input) ->
  ~ bad_rank input -> first_empty_dim (sizes input) = None -> ~ bad_arity osz ->
  (negative_output_size osz ->
   adaptive_max_pool2d_out_cpu pool VW input osz = Throw NegativeDimension) /\
  (~ negative_output_size osz ->
   exists output indices,
     adaptive_max_pool2d_out_cpu pool VW input osz
     = adaptive_max_pool2d_kernel_impl pool VW output indices input osz).
Proof.
  intros Hs Hr He Ha. unfold adaptive_max_pool2d_out_cpu.
  rewrite (shell_rank_ok _ Hr), He, (shell_arity_ok _ Ha). simpl negb. cbv iota.
  assert (Hd : forall i, (0 <=? size input i) = true).
  { intros i. apply Z.leb_le, dim_of_nonneg, Hs. }
  unfold negative_output_size.
  destruct (ndimension input =? 3); destruct (ndimension input =? 4);
    cbn [check_size_nonnegative forallb]; rewrite ?Hd; cbn [andb];
    destruct (Z.leb_spec 0 (nth 0 osz 0)); destruct (Z.leb_spec 0 (nth 1 osz 0));
    cbn [andb negb]; split; intros Hneg;
    solve [ reflexivity | eexists _, _; reflexivity
          | exfalso; lia | exfalso; apply Hneg; lia ].
Qed.

(** C8, as stated, fails: a channels-last [float] input of 65536 by 32768
    pixels passes the three checks of the shell and has a supported layout,
    and the call still raises an error. *)
Lemma forward_shell_claim_counterexample :
  ~ bad_rank huge_channels_last_input /\
  ~ has_empty_dim huge_channels_last_input /\
  ~ bad_arity [1; 1] /\
  suggest_memory_format huge_channels_last_input = ChannelsLast /\
  adaptive_max_pool2d_out_cpu single_worker 32 huge_channels_last_input [1; 1]
  = Throw IndexLaneOverflow.
Proof.
  split; [|split; [|split; [|split]]].
  - unfold bad_rank. intros H. apply H. right. reflexivity.
  - intros (i & Hi & Hz).
    change (ndimension huge_channels_last_input) with 4 in Hi.
    assert (Hc : i = 1 \/ i = 2 \/ i = 3) by lia.
    destruct Hc as [-> | [-> | ->]]; vm_compute in Hz; discriminate.
  - unfold bad_arity. simpl. intros H. now apply H.
  - reflexivity.
  - vm_compute. reflexivity.
Qed.

(** A second way in which C8, as stated, fails: [output_size = (-1, 2)] has
    two elements and the input passes the checks of the shell, and the
    allocation of the result raises an error. *)
Lemma forward_shell_negative_output_size :
  ~ bad_arity [-1; 2] /\
  adaptive_max_pool2d_out_cpu single_worker 32 small_input [-1; 2]
  = Throw NegativeDimension.
Proof.
  split; [|reflexivity]. unfold bad_arity. simpl. intros H. now apply H.
Qed.

(** C8, amended.  For a well-formed input, the forward shell raises an error
    exactly when the rank is not 3 or 4, or a dimension of index 1 or more
    is empty, or [output_size] does not have two elements (these three
    before anything is allocated), or an element of [output_size] is
    negative (raised by [at::empty] when the result is allocated, before any
    kernel is started), or the input is channels-last and [H * W] exceeds
    the index lane of its element type (raised by the kernel's own check,
    before any output is computed); in every other case it returns an
    (output, indices) pair. *)
Theorem forward_shell_outcome
    (pool : ThreadPool) (VECTOR_WIDTH : Z) (input : Tensor) (output_size : list Z)
    (Hwf : well_formed input) :
  (bad_rank input ->
   adaptive_max_pool2d_out_cpu pool VECTOR_WIDTH input output_size
   = Throw ExpectedRank3or4) /\
  (~ bad_rank input -> has_empty_dim input ->
   exists i, adaptive_max_pool2d_out_cpu pool VECTOR_WIDTH input output_size
             = Throw (EmptyNonBatchDim i)) /\
  (~ bad_rank input -> ~ has_empty_dim input -> bad_arity output_size ->
   adaptive_max_pool2d_out_cpu pool VECTOR_WIDTH input output_size
   = Throw OutputSizeArity) /\
  (~ bad_rank input -> ~ has_empty_dim input -> ~ bad_arity output_size ->
   negative_output_size output_size ->
   adaptive_max_pool2d_out_cpu pool VECTOR_WIDTH input output_size
   = Throw NegativeDimension) /\
  (~ bad_rank input -> ~ has_empty_dim input -> ~ bad_arity output_size ->
   ~ negative_output_size output_size -> lane_overflow input ->
   adaptive_max_pool2d_out_cpu pool VECTOR_WIDTH input output_size
   = Throw IndexLaneOverflow) /\
  (~ bad_rank input -> ~ has_empty_dim input -> ~ bad_arity output_size ->
   ~ negative_output_size output_size -> ~ lane_overflow input ->
   exists output indices,
     adaptive_max_pool2d_out_cpu pool VECTOR_WIDTH input output_size
     = Ok (output, indices)).
Proof.
  destruct Hwf as [Hsizes Hspatial Hlayout Hcl].
  pose proof (has_empty_dim_iff input Hsizes) as Hempty.
  assert (Hnone : ~ has_empty_dim input -> first_empty_dim (sizes input) = None).
  { intros He. destruct (first_empty_dim (sizes input)) eqn:Hf; [|reflexivity].
    exfalso. apply He, Hempty. congruence. }
  split; [|split; [|split; [|split; [|split]]]].
  - intros Hr. unfold adaptive_max_pool2d_out_cpu.
    now rewrite (shell_rank_bad _ Hr).
  - intros Hr He. unfold adaptive_max_pool2d_out_cpu.
    rewrite (shell_rank_ok _ Hr). simpl negb. cbv iota.
    apply Hempty in He.
    destruct (first_empty_dim (sizes input)) as [i|]; [eauto | congruence].
  - intros Hr He Ha. unfold adaptive_max_pool2d_out_cpu.
    rewrite (shell_rank_ok _ Hr). simpl negb. cbv iota.
    rewrite (Hnone He). now rewrite (shell_arity_bad _ Ha).
  - intros Hr He Ha Hneg.
    now apply (shell_after_checks pool VECTOR_WIDTH input output_size
                 Hsizes Hr (Hnone He) Ha).
  - intros Hr He Ha Hneg [Hfmt Hov].
    destruct (proj2 (shell_after_checks pool VECTOR_WIDTH input output_size
                       Hsizes Hr (Hnone He) Ha) Hneg)
      as (output & indices & ->).
    unfold adaptive_max_pool2d_kernel_impl. rewrite Hfmt.
    now apply channels_last_instance_outcome; auto.
  - intros Hr He Ha Hneg Hov.
    destruct (proj2 (shell_after_checks pool VECTOR_WIDTH input output_size
                       Hsizes Hr (Hnone He) Ha) Hneg)
      as (output & indices & ->).
    unfold adaptive_max_pool2d_kernel_impl.
    assert (Hrank : ndimension input = 3 \/ ndimension input = 4).
    { destruct (Z.eq_dec (ndimension input) 3); [now left|].
      destruct (Z.eq_dec (ndimension input) 4); [now right|].
      exfalso. apply Hr. unfold bad_rank. tauto. }
    destruct (Hlayout Hrank) as [Hfmt | Hfmt]; rewrite Hfmt.
    + unfold cpu_adaptive_max_pool. eauto.
    + apply channels_last_instance_outcome; auto.
      unfold lane_overflow in Hov.
      destruct (Z.le_gt_cases (size input 2 * size input 3)
                              (integer_t_max (scalar_type input))); [assumption|].
      exfalso. apply Hov. split; [assumption | lia].
Qed.

Lemma small_input_well_formed : well_formed small_input.
Proof.
  constructor.
  - simpl. repeat constructor; lia.
  - vm_compute. discriminate.
  - intros _. left. reflexivity.
  - simpl. discriminate.
Defined.

Lemma forward_shell_outcome_witness :
  well_formed small_input /\
  exists output indices,
    adaptive_max_pool2d_out_cpu two_workers 32 small_input [2; 2] = Ok (output, indices).
Proof.
  split; [exact small_input_well_formed|].
  apply (forward_shell_outcome two_workers 32 small_input [2; 2] small_input_well_formed).
  - unfold bad_rank. intros H. apply H. right. reflexivity.
  - intros (i & Hi & Hz).
    change (ndimension small_input) with 4 in Hi.
    assert (Hc : i = 1 \/ i = 2 \/ i = 3) by lia.
    destruct Hc as [-> | [-> | ->]]; vm_compute in Hz; discriminate.
  - unfold bad_arity. simpl. intros H. now apply H.
  - unfold negative_output_size. cbn [nth]. lia.
  - intros [Hfmt _]. simpl in Hfmt. discriminate.
Defined.

(* ================================================================== *)
(** * Backward kernels: accumulation *)
(* ================================================================== *)

Lemma fold_left_flat_map {A B C} (f : A -> B -> A) (g : C -> list B) l a :
  fold_left f (flat_map g l) a = fold_left (fun a x => fold_left f (g x) a) l a.
Proof.
  revert a. induction l as [|x l IH]; intros a; simpl; [reflexivity|].
  now rewrite fold_left_app, IH.
Qed.

Lemma fold_left_map {A B C} (f : A -> B -> A) (h : C -> B) l a :
  fold_left f (map h l) a = fold_left (fun a x => f a (h x)) l a.
Proof.
  revert a. induction l as [|x l IH]; intros a; simpl; [reflexivity|]. apply IH.
Qed.

Lemma fold_left_ext_in {A B} (f g : A -> B -> A) l a :
  (forall a x, In x l -> f a x = g a x) -> fold_left f l a = fold_left g l a.
Proof.
  revert a. induction l as [|x l IH]; intros a H; simpl; [reflexivity|].
  rewrite H by (now left). apply IH. intros; apply H; now right.
Qed.

Lemma irange_nil a b : b <= a -> irange a b = [].
Proof. intros H. unfold irange. replace (Z.to_nat (b - a)) with 0%nat by lia. reflexivity. Qed.

Lemma irange_cons a b : a < b -> irange a b = a :: irange (a + 1) b.
Proof.
  intros H. unfold irange.
  replace (Z.to_nat (b - a)) with (S (Z.to_nat (b - (a + 1)))) by lia.
  rewrite <- cons_seq. simpl. rewrite Z.add_0_r. f_equal.
  rewrite <- seq_shift, map_map. apply map_ext. intros k. lia.
Qed.

Lemma map_seq_from {B} (f : nat -> B) n s len :
  map f (seq (n + s) len) = map (fun k => f (n + k)%nat) (seq s len).
Proof.
  revert s. induction len as [|len IH]; intros s; simpl; [reflexivity|].
  f_equal. rewrite <- IH. f_equal. f_equal. lia.
Qed.

Lemma irange_app a b c : a <= b <= c -> irange a c = irange a b ++ irange b c.
Proof.
  intros H. unfold irange.
  replace (Z.to_nat (c - a)) with (Z.to_nat (b - a) + Z.to_nat (c - b))%nat by lia.
  rewrite seq_app, map_app. f_equal. simpl.
  rewrite <- (Nat.add_0_r (Z.to_nat (b - a))) at 1.
  rewrite map_seq_from. apply map_ext. intros k. lia.
Qed.

Lemma irange_split a b x : a <= x < b -> irange a b = irange a x ++ x :: irange (x + 1) b.
Proof.
  intros H. rewrite (irange_app a x b) by lia. f_equal. apply irange_cons. lia.
Qed.

(** When the body of a [parallel_for] is itself a loop over its sub-range,
    a fair pool makes the whole a loop over the full range. *)
Lemma covers_ranges {St} (f : St -> Z -> St) chunks :
  forall b e st,
    covers b e chunks ->
    fold_left (fun st chunk => fold_left f (irange (fst chunk) (snd chunk)) st)
              chunks st
    = fold_left f (irange b e) st.
Proof.
  induction chunks as [|[lo hi] rest IH]; intros b e st Hc; cbn [covers] in Hc.
  - rewrite (irange_nil b e) by lia. reflexivity.
  - cbn [fst snd] in Hc. destruct Hc as (-> & Hhi & Hrest).
    cbn [fold_left fst snd]. rewrite (IH hi e _ Hrest).
    rewrite (irange_app b hi e) by lia. now rewrite fold_left_app.
Qed.

Lemma parallel_for_ranges {St} pool b e grain (f : St -> Z -> St) st :
  fair pool ->
  parallel_for pool b e grain (fun lo hi s => fold_left f (irange lo hi) s) st
  = fold_left f (irange b e) st.
Proof. intros Hfair. unfold parallel_for. apply covers_ranges, Hfair. Qed.

(** The two pools are fair. *)
Lemma two_workers_fair : fair two_workers.
Proof.
  intros b e. unfold two_workers.
  pose proof (Z.div_pos (e - b) 2) as Hpos.
  destruct (Z.ltb_spec b (b + (e - b) / 2)) as [Hm|Hm].
  - assert (b < e) by (pose proof (Z.mul_div_le (e - b) 2); lia).
    pose proof (Z.mul_div_le (e - b) 2 ltac:(lia)).
    cbn [covers fst snd]. repeat split; lia.
  - destruct (Z.ltb_spec b e); cbn [covers fst snd]; repeat split; lia.
Qed.

Lemma single_worker_fair : fair single_worker.
Proof.
  intros b e. unfold single_worker.
  destruct (Z.ltb_spec b e); cbn [covers fst snd]; repeat split; lia.
Qed.

Lemma In_plane_cells OH OW oh ow :
  In (oh, ow) (plane_cells OH OW) <-> 0 <= oh < OH /\ 0 <= ow < OW.
Proof.
  unfold plane_cells. rewrite in_flat_map. split.
  - intros (x & Hx & Hin). apply In_irange in Hx. apply in_map_iff in Hin.
    destruct Hin as (y & Heq & Hy). apply In_irange in Hy.
    inversion Heq; subst. lia.
  - intros [Hoh How]. exists oh. split; [now apply In_irange|].
    apply in_map_iff. exists ow. split; [reflexivity | now apply In_irange].
Qed.

Lemma filter_nil {B} (f : B -> bool) l :
  (forall x, In x l -> f x = false) -> filter f l = [].
Proof.
  induction l as [|x l IH]; intros H; simpl; [reflexivity|].
  rewrite (H x) by (now left). apply IH. intros; apply H; now right.
Qed.

Lemma mul_add_inj C m c t c0 :
  0 <= c < C -> 0 <= c0 < C -> m * C + c = t * C + c0 -> m = t /\ c = c0.
Proof.
  intros Hc Hc0 H. apply (Z.div_mod_unique C); [left; lia | left; lia | lia].
Qed.

Section BackwardFacts.
Context {A : Type} (add : A -> A -> A).

Lemma scatter_add_at us (g : buffer A) j :
  scatter_add add us g j
  = fold_left add (map snd (filter (fun u => fst u =? j) us)) (g j).
Proof.
  unfold scatter_add. revert g.
  induction us as [|[a v] us IH]; intros g; simpl; [reflexivity|].
  rewrite IH. unfold upd. rewrite (Z.eqb_sym j a).
  destruct (Z.eqb_spec a j) as [->|Hne]; reflexivity.
Qed.

Lemma scatter_add_app us vs (g : buffer A) :
  scatter_add add (us ++ vs) g = scatter_add add vs (scatter_add add us g).
Proof. unfold scatter_add. apply fold_left_app. Qed.

(** An address none of the updates names keeps its content. *)
Lemma scatter_add_other us (g : buffer A) j :
  (forall u, In u us -> fst u <> j) -> scatter_add add us g j = g j.
Proof.
  intros Hne. rewrite scatter_add_at.
  replace (filter (fun u => fst u =? j) us) with (@nil (Z * A)); [reflexivity|].
  symmetry. induction us as [|u us IH]; simpl; [reflexivity|].
  destruct (Z.eqb_spec (fst u) j) as [He|_].
  - exfalso. apply (Hne u); [now left | assumption].
  - apply IH. intros v Hv. apply Hne. now right.
Qed.

Variable grad_output : buffer A.
Variable indices : buffer Z.

Lemma bwd_plane_scatter IH IW OH OW gi c :
  bwd_plane add grad_output indices IH IW OH OW gi c
  = scatter_add add (plane_updates grad_output indices IH IW OH OW c) gi.
Proof.
  unfold bwd_plane, scatter_add, plane_updates, plane_cells.
  rewrite fold_left_map, fold_left_flat_map.
  apply fold_left_ext_in. intros g oh _.
  rewrite fold_left_map. reflexivity.
Qed.

(** Plane [c] writes inside its own plane of [grad_input] only. *)
Lemma bwd_plane_other IH IW OH OW gi c a :
  (forall oh ow, 0 <= oh < OH -> 0 <= ow < OW ->
     0 <= indices (c * OH * OW + (oh * OW + ow)) < IH * IW) ->
  ~ (c * IH * IW <= a < c * IH * IW + IH * IW) ->
  bwd_plane add grad_output indices IH IW OH OW gi c a = gi a.
Proof.
  intros Hind Ha. rewrite bwd_plane_scatter. apply scatter_add_other.
  intros u Hu. unfold plane_updates in Hu. apply in_map_iff in Hu.
  destruct Hu as ([oh ow] & <- & Hin). apply In_plane_cells in Hin.
  simpl. specialize (Hind oh ow (proj1 Hin) (proj2 Hin)). lia.
Qed.

Lemma bwd_plane_self IH IW OH OW gi c t :
  bwd_plane add grad_output indices IH IW OH OW gi c (c * IH * IW + t)
  = fold_left add
      (contributions grad_output indices
         (fun cell => c * OH * OW + (fst cell * OW + snd cell)) t
         (plane_cells OH OW))
      (gi (c * IH * IW + t)).
Proof.
  rewrite bwd_plane_scatter, scatter_add_at. f_equal.
  unfold plane_updates, contributions.
  induction (plane_cells OH OW) as [|cell l IHl]; simpl; [reflexivity|].
  replace (c * IH * IW + indices (c * OH * OW + (fst cell * OW + snd cell))
           =? c * IH * IW + t)
    with (indices (c * OH * OW + (fst cell * OW + snd cell)) =? t).
  - destruct (_ =? t); simpl; now rewrite IHl.
  - destruct (Z.eqb_spec (indices (c * OH * OW + (fst cell * OW + snd cell))) t);
      symmetry; [apply Z.eqb_eq | apply Z.eqb_neq]; lia.
Qed.

Lemma fold_bwd_plane_other IH IW OH OW planes gi a :
  (forall c, In c planes ->
     (forall oh ow, 0 <= oh < OH -> 0 <= ow < OW ->
        0 <= indices (c * OH * OW + (oh * OW + ow)) < IH * IW) /\
     ~ (c * IH * IW <= a < c * IH * IW + IH * IW)) ->
  fold_left (bwd_plane add grad_output indices IH IW OH OW) planes gi a = gi a.
Proof.
  revert gi. induction planes as [|c planes IHp]; intros gi H; simpl; [reflexivity|].
  rewrite IHp by (intros; apply H; now right).
  apply bwd_plane_other; apply H; now left.
Qed.

(** The contiguous kernel: what plane [p] of [grad_input] holds at flat
    index [t] afterwards. *)
Lemma backward_planes_at pool channels IH IW OH OW gi p t :
  fair pool -> 0 <= IH -> 0 <= IW ->
  (forall c oh ow, 0 <= c < channels -> 0 <= oh < OH -> 0 <= ow < OW ->
     0 <= indices (c * OH * OW + (oh * OW + ow)) < IH * IW) ->
  0 <= p < channels -> 0 <= t < IH * IW ->
  backward_planes add grad_output indices pool channels IH IW OH OW gi
                  (p * IH * IW + t)
  = fold_left add
      (contributions grad_output indices
         (fun cell => p * OH * OW + (fst cell * OW + snd cell)) t
         (plane_cells OH OW))
      (gi (p * IH * IW + t)).
Proof.
  intros Hfair HIH HIW Hind Hp Ht. unfold backward_planes.
  rewrite parallel_for_ranges by assumption.
  rewrite (irange_split 0 channels p) by lia.
  rewrite fold_left_app. simpl.
  rewrite fold_bwd_plane_other.
  - rewrite bwd_plane_self. f_equal.
    apply fold_bwd_plane_other. intros c Hc. apply In_irange in Hc. split.
    + intros oh ow Hoh How. apply Hind; lia.
    + nia.
  - intros c Hc. apply In_irange in Hc. split.
    + intros oh ow Hoh How. apply Hind; lia.
    + nia.
Qed.

Lemma bwd_cl_batch_scatter C IH IW OH OW gi n :
  bwd_cl_batch add grad_output indices C IH IW OH OW gi n
  = scatter_add add (batch_updates grad_output indices C IH IW OH OW n) gi.
Proof.
  unfold bwd_cl_batch, scatter_add, batch_updates, plane_cells.
  rewrite fold_left_flat_map, fold_left_flat_map.
  apply fold_left_ext_in. intros g oh _.
  rewrite fold_left_map.
  apply fold_left_ext_in. intros g' ow _.
  rewrite fold_left_map. reflexivity.
Qed.

Lemma bwd_cl_batch_other C IH IW OH OW gi n a :
  0 <= C ->
  (forall oh ow c, 0 <= oh < OH -> 0 <= ow < OW -> 0 <= c < C ->
     0 <= indices (n * OH * OW * C + (oh * OW * C + ow * C) + c) < IH * IW) ->
  ~ (n * IH * IW * C <= a < n * IH * IW * C + IH * IW * C) ->
  bwd_cl_batch add grad_output indices C IH IW OH OW gi n a = gi a.
Proof.
  intros HC Hind Ha. rewrite bwd_cl_batch_scatter. apply scatter_add_other.
  intros u Hu. unfold batch_updates in Hu. apply in_flat_map in Hu.
  destruct Hu as ([oh ow] & Hcell & Hu). apply In_plane_cells in Hcell.
  apply in_map_iff in Hu. destruct Hu as (c & <- & Hc). apply In_irange in Hc.
  simpl. specialize (Hind oh ow c (proj1 Hcell) (proj2 Hcell) Hc).
  set (m := indices _) in *. nia.
Qed.

Lemma bwd_cl_batch_self C IH IW OH OW gi n t c0 :
  0 <= c0 < C ->
  bwd_cl_batch add grad_output indices C IH IW OH OW gi n
               (n * IH * IW * C + (t * C + c0))
  = fold_left add
      (contributions grad_output indices
         (fun cell => n * OH * OW * C + (fst cell * OW * C + snd cell * C) + c0) t
         (plane_cells OH OW))
      (gi (n * IH * IW * C + (t * C + c0))).
Proof.
  intros Hc0. rewrite bwd_cl_batch_scatter, scatter_add_at. f_equal.
  unfold batch_updates, contributions.
  induction (plane_cells OH OW) as [|cell l IHl]; simpl; [reflexivity|].
  rewrite filter_app, map_app, IHl. clear IHl.
  set (gout := n * OH * OW * C + (fst cell * OW * C + snd cell * C)).
  rewrite (irange_split 0 C c0) by lia.
  rewrite map_app, filter_app. simpl.
  rewrite (filter_nil _ (map _ (irange 0 c0))), (filter_nil _ (map _ (irange (c0 + 1) C))).
  - simpl.
    replace (n * IH * IW * C + (indices (gout + c0) * C + c0)
             =? n * IH * IW * C + (t * C + c0))
      with (indices (gout + c0) =? t).
    + destruct (_ =? t); reflexivity.
    + destruct (Z.eqb_spec (indices (gout + c0)) t);
        symmetry; [apply Z.eqb_eq | apply Z.eqb_neq]; nia.
  - intros u Hu. apply in_map_iff in Hu. destruct Hu as (c & <- & Hc).
    apply In_irange in Hc. simpl. apply Z.eqb_neq. intros Heq.
    destruct (mul_add_inj C (indices (gout + c)) c t c0); lia.
  - intros u Hu. apply in_map_iff in Hu. destruct Hu as (c & <- & Hc).
    apply In_irange in Hc. simpl. apply Z.eqb_neq. intros Heq.
    destruct (mul_add_inj C (indices (gout + c)) c t c0); lia.
Qed.

Lemma fold_bwd_cl_batch_other C IH IW OH OW batches gi a :
  0 <= C ->
  (forall n, In n batches ->
     (forall oh ow c, 0 <= oh < OH -> 0 <= ow < OW -> 0 <= c < C ->
        0 <= indices (n * OH * OW * C + (oh * OW * C + ow * C) + c) < IH * IW) /\
     ~ (n * IH * IW * C <= a < n * IH * IW * C + IH * IW * C)) ->
  fold_left (bwd_cl_batch add grad_output indices C IH IW OH OW) batches gi a = gi a.
Proof.
  intros HC. revert gi.
  induction batches as [|n batches IHb]; intros gi H; simpl; [reflexivity|].
  rewrite IHb by (intros; apply H; now right).
  apply bwd_cl_batch_other; [assumption | apply H; now left ..].
Qed.

(** The channels-last kernel: what batch entry [n] of [grad_input] holds at
    flat index [t] of channel [c0] afterwards. *)
Lemma backward_batches_at pool N C IH IW OH OW gi n t c0 :
  fair pool -> 0 <= C -> 0 <= IH -> 0 <= IW ->
  (forall n oh ow c, 0 <= n < N -> 0 <= oh < OH -> 0 <= ow < OW -> 0 <= c < C ->
     0 <= indices (n * OH * OW * C + (oh * OW * C + ow * C) + c) < IH * IW) ->
  0 <= n < N -> 0 <= t < IH * IW -> 0 <= c0 < C ->
  backward_batches add grad_output indices pool N C IH IW OH OW gi
                   (n * IH * IW * C + (t * C + c0))
  = fold_left add
      (contributions grad_output indices
         (fun cell => n * OH * OW * C + (fst cell * OW * C + snd cell * C) + c0) t
         (plane_cells OH OW))
      (gi (n * IH * IW * C + (t * C + c0))).
Proof.
  intros Hfair HC HIH HIW Hind Hn Ht Hc0. unfold backward_batches.
  rewrite parallel_for_ranges by assumption.
  rewrite (irange_split 0 N n) by lia.
  rewrite fold_left_app. simpl.
  rewrite fold_bwd_cl_batch_other; [|assumption|].
  - rewrite bwd_cl_batch_self by assumption. f_equal.
    apply fold_bwd_cl_batch_other; [assumption|].
    intros n' Hn'. apply In_irange in Hn'. split.
    + intros oh ow c Hoh How Hc. apply Hind; lia.
    + nia.
  - intros n' Hn'. apply In_irange in Hn'. split.
    + intros oh ow c Hoh How Hc. apply Hind; lia.
    + nia.
Qed.
End BackwardFacts.

Lemma contributions_ext {A} (go : buffer A) ind addr addr' t cells :
  (forall cell, In cell cells -> addr cell = addr' cell) ->
  contributions go ind addr t cells = contributions go ind addr' t cells.
Proof.
  intros H. unfold contributions.
  induction cells as [|cell l IH]; simpl; [reflexivity|].
  assert (IH' : map (fun cell => go (addr cell))
                    (filter (fun cell => ind (addr cell) =? t) l)
                = map (fun cell => go (addr' cell))
                      (filter (fun cell => ind (addr' cell) =? t) l)).
  { apply IH. intros; apply H; now right. }
  assert (Hc : addr cell = addr' cell) by (apply H; now left).
  rewrite <- Hc.
  destruct (_ =? t); simpl; rewrite <- ?Hc; now rewrite IH'.
Qed.

Lemma dim_of_4d a b c d :
  dim_of [a; b; c; d] 0 = a /\ dim_of [a; b; c; d] 1 = b /\
  dim_of [a; b; c; d] 2 = c /\ dim_of [a; b; c; d] 3 = d /\
  dim_of [a; b; c; d] (-2) = c /\ dim_of [a; b; c; d] (-1) = d.
Proof. repeat split. Qed.


Lemma s6_indices_in_range a : 0 <= s6_indices a < 4 * 4.
Proof.
  unfold s6_indices.
  destruct (Z.to_nat a) as [|[|[|[|[|k]]]]]; simpl; lia.
Qed.


(* ================================================================== *)
(** * Backward kernels: linearity *)
(* ================================================================== *)


(* ================================================================== *)
(** * The comparison of floating-point values *)
(* ================================================================== *)

Ltac compare_cases :=
  repeat match goal with
  | H : context [Z.compare ?a ?b] |- _ => destruct (Z.compare_spec a b); subst
  | |- context [Z.compare ?a ?b] => destruct (Z.compare_spec a b); subst
  | H : context [Pos.compare_cont Eq ?a ?b] |- _ =>
      change (Pos.compare_cont Eq a b) with (Pos.compare a b) in *;
      destruct (Pos.compare_spec a b); subst
  | |- context [Pos.compare_cont Eq ?a ?b] =>
      change (Pos.compare_cont Eq a b) with (Pos.compare a b) in *;
      destruct (Pos.compare_spec a b); subst
  end.

(** Case analysis on the operands of [gt] down to comparisons of exponents
    and significands. *)
Ltac float_order :=
  unfold gt, SFltb, SFcompare, isnan, neg_infinity in *;
  repeat match goal with
  | x : spec_float |- _ => destruct x
  | s : bool |- _ => destruct s
  end;
  simpl in *; try discriminate; try reflexivity;
  compare_cases; simpl in *; try discriminate; try reflexivity; try lia.

Lemma gt_irrefl x : gt x x = false.
Proof. float_order. Qed.

Lemma gt_nan_l x : gt S754_nan x = false.
Proof. float_order. Qed.

Lemma gt_nan_r x : gt x S754_nan = false.
Proof. float_order. Qed.

Lemma gt_asym x y : gt y x = true -> gt x y = false.
Proof. float_order. Qed.

Lemma gt_trans x y z : gt x y = true -> gt y z = true -> gt x z = true.
Proof. float_order. Qed.

(** [x <= v < y] gives [x < y] when [x] is a number. *)
Lemma gt_above x v y :
  gt x v = false -> gt y v = true -> isnan x = false -> gt y x = true.
Proof. float_order. Qed.

Lemma gt_not_nan x y : gt x y = true -> isnan x = false /\ isnan y = false.
Proof. float_order; split; reflexivity. Qed.

Lemma not_gt_neg_infinity x :
  gt x neg_infinity = false -> isnan x = false -> x = neg_infinity.
Proof. float_order. Qed.

Lemma isnan_true x : isnan x = true -> x = S754_nan.
Proof. destruct x; simpl; congruence. Qed.

(* ================================================================== *)
(** * The scan of one window *)
(* ================================================================== *)

Lemma scan_snoc p l x init :
  scan p (l ++ [x]) init = scan_step p (scan p l init) x.
Proof. unfold scan. now rewrite fold_left_app. Qed.

(** The scan computes what the specification prescribes. *)
Lemma scan_pooled p l j0 : pooled p l j0 (scan p l (neg_infinity, j0)).
Proof.
  induction l as [|x l IH] using rev_ind.
  - apply pooled_init. intros k [].
  - rewrite scan_snoc. unfold scan_step.
    destruct (isnan (p x)) eqn:Hnan.
    + rewrite orb_true_r. rewrite (isnan_true _ Hnan).
      apply (pooled_nan p (l ++ [x]) j0 l x []); auto.
      intros k [].
    + rewrite orb_false_r.
      inversion IH as [l1 j l2 Hl Hj Hl2 Heq | l1 j l2 Hl Hno Hl1 Hl2 Hj Heq | Hall Heq].
      * (* a NaN is installed: only a NaN replaces it *)
        cbn [fst]. rewrite gt_nan_r.
        apply (pooled_nan p (l ++ [x]) j0 l1 j (l2 ++ [x])); auto.
        -- rewrite Hl, <- app_assoc. reflexivity.
        -- intros k Hk. apply in_app_or in Hk.
           destruct Hk as [Hk | [<- | []]]; auto.
      * cbn [fst]. destruct (gt (p x) (p j)) eqn:Hgt.
        -- (* a new strict maximum *)
           apply (pooled_max p (l ++ [x]) j0 l x []).
           ++ reflexivity.
           ++ intros k Hk. apply in_app_or in Hk.
              destruct Hk as [Hk | [<- | []]]; auto.
           ++ intros k Hk. rewrite Hl in Hk. apply in_app_or in Hk.
              destruct Hk as [Hk | [<- | Hk]].
              ** apply gt_trans with (p j); auto.
              ** exact Hgt.
              ** apply gt_above with (p j); auto.
                 apply Hno. rewrite Hl. apply in_or_app. right. now right.
           ++ intros k [].
           ++ apply gt_trans with (p j); auto.
        -- apply (pooled_max p (l ++ [x]) j0 l1 j (l2 ++ [x])); auto.
           ++ rewrite Hl, <- app_assoc. reflexivity.
           ++ intros k Hk. apply in_app_or in Hk.
              destruct Hk as [Hk | [<- | []]]; auto.
           ++ intros k Hk. apply in_app_or in Hk.
              destruct Hk as [Hk | [<- | []]]; auto.
      * cbn [fst]. destruct (gt (p x) neg_infinity) eqn:Hgt.
        -- (* the first element above minus infinity *)
           apply (pooled_max p (l ++ [x]) j0 l x []); auto.
           ++ intros k Hk. apply in_app_or in Hk.
              destruct Hk as [Hk | [<- | []]]; auto.
              rewrite (Hall k Hk). reflexivity.
           ++ intros k Hk. rewrite (Hall k Hk). exact Hgt.
           ++ intros k [].
        -- apply pooled_init. intros k Hk. apply in_app_or in Hk.
           destruct Hk as [Hk | [<- | []]]; auto.
           now apply not_gt_neg_infinity.
Qed.

(** [local_max] is that scan over the window. *)
Lemma local_max_scan p W ih0 ih1 iw0 iw1 :
  local_max p W ih0 ih1 iw0 iw1
  = scan p (window W ih0 ih1 iw0 iw1) (neg_infinity, ih0 * W + iw0).
Proof.
  unfold local_max, scan, window. rewrite fold_left_flat_map.
  apply fold_left_ext_in. intros st ih _.
  rewrite fold_left_map. reflexivity.
Qed.

Lemma In_window W ih0 ih1 iw0 iw1 k :
  In k (window W ih0 ih1 iw0 iw1) <->
  exists ih iw, ih0 <= ih < ih1 /\ iw0 <= iw < iw1 /\ k = ih * W + iw.
Proof.
  unfold window. rewrite in_flat_map. split.
  - intros (ih & Hih & Hin). apply In_irange in Hih.
    apply in_map_iff in Hin. destruct Hin as (iw & <- & Hiw).
    apply In_irange in Hiw. eauto.
  - intros (ih & iw & Hih & Hiw & ->). exists ih.
    split; [now apply In_irange|]. apply in_map_iff.
    exists iw. split; [reflexivity | now apply In_irange].
Qed.

Lemma window_head W ih0 ih1 iw0 iw1 :
  ih0 < ih1 -> iw0 < iw1 ->
  exists rest, window W ih0 ih1 iw0 iw1 = (ih0 * W + iw0) :: rest.
Proof.
  intros Hh Hw. unfold window.
  rewrite (irange_cons ih0 ih1 Hh). simpl.
  rewrite (irange_cons iw0 iw1 Hw). simpl. eauto.
Qed.

(** P4: a window that contains a NaN yields NaN and the position of its
    last NaN. *)
Lemma local_max_last_nan p W ih0 ih1 iw0 iw1 :
  (exists k, In k (window W ih0 ih1 iw0 iw1) /\ isnan (p k) = true) ->
  exists l1 l2,
    window W ih0 ih1 iw0 iw1 = l1 ++ snd (local_max p W ih0 ih1 iw0 iw1) :: l2 /\
    fst (local_max p W ih0 ih1 iw0 iw1) = S754_nan /\
    isnan (p (snd (local_max p W ih0 ih1 iw0 iw1))) = true /\
    (forall k, In k l2 -> isnan (p k) = false).
Proof.
  intros (k & Hk & Hnan). rewrite local_max_scan.
  pose proof (scan_pooled p (window W ih0 ih1 iw0 iw1) (ih0 * W + iw0)) as H.
  inversion H as [l1 j l2 Hl Hj Hl2 Heq | l1 j l2 Hl Hno Hl1 Hl2 Hj Heq | Hall Heq].
  - exists l1, l2. cbn [fst snd]. auto.
  - rewrite (Hno k Hk) in Hnan. discriminate.
  - rewrite (Hall k Hk) in Hnan. discriminate.
Qed.

(** P3: a non-empty window without NaN yields its maximum (no element is
    greater) and the first position that holds it (every earlier element is
    strictly smaller). *)
Lemma local_max_first_max p W ih0 ih1 iw0 iw1 :
  ih0 < ih1 -> iw0 < iw1 ->
  (forall k, In k (window W ih0 ih1 iw0 iw1) -> isnan (p k) = false) ->
  exists l1 l2,
    window W ih0 ih1 iw0 iw1 = l1 ++ snd (local_max p W ih0 ih1 iw0 iw1) :: l2 /\
    fst (local_max p W ih0 ih1 iw0 iw1) = p (snd (local_max p W ih0 ih1 iw0 iw1)) /\
    (forall k, In k l1 ->
       gt (fst (local_max p W ih0 ih1 iw0 iw1)) (p k) = true) /\
    (forall k, In k (window W ih0 ih1 iw0 iw1) ->
       gt (p k) (fst (local_max p W ih0 ih1 iw0 iw1)) = false).
Proof.
  intros Hh Hw Hno. rewrite local_max_scan.
  destruct (window_head W ih0 ih1 iw0 iw1 Hh Hw) as (rest & Hwin).
  pose proof (scan_pooled p (window W ih0 ih1 iw0 iw1) (ih0 * W + iw0)) as H.
  inversion H as [l1 j l2 Hl Hj Hl2 Heq | l1 j l2 Hl _ Hl1 Hl2 Hj Heq | Hall Heq].
  - assert (Hin : In j (window W ih0 ih1 iw0 iw1)).
    { rewrite Hl. apply in_or_app. right. now left. }
    rewrite (Hno j Hin) in Hj. discriminate.
  - exists l1, l2. cbn [fst snd]. repeat split; auto.
    intros k Hk. rewrite Hl in Hk. apply in_app_or in Hk.
    destruct Hk as [Hk | [<- | Hk]].
    + apply gt_asym. auto.
    + apply gt_irrefl.
    + auto.
  - exists [], rest. cbn [fst snd]. repeat split.
    + exact Hwin.
    + symmetry. apply Hall. rewrite Hwin. now left.
    + intros k [].
    + intros k Hk. rewrite (Hall k Hk). apply gt_irrefl.
Qed.

(** A window of minus infinities keeps the initial pair. *)
Lemma local_max_all_neg_infinity p W ih0 ih1 iw0 iw1 :
  (forall k, In k (window W ih0 ih1 iw0 iw1) -> p k = neg_infinity) ->
  local_max p W ih0 ih1 iw0 iw1 = (neg_infinity, ih0 * W + iw0).
Proof.
  intros Hall. rewrite local_max_scan.
  pose proof (scan_pooled p (window W ih0 ih1 iw0 iw1) (ih0 * W + iw0)) as H.
  inversion H as [l1 j l2 Hl Hj Hl2 Heq | l1 j l2 Hl _ Hl1 Hl2 Hj Heq | _ Heq].
  - assert (Hin : In j (window W ih0 ih1 iw0 iw1)).
    { rewrite Hl. apply in_or_app. right. now left. }
    rewrite (Hall j Hin) in Hj. discriminate.
  - assert (Hin : In j (window W ih0 ih1 iw0 iw1)).
    { rewrite Hl. apply in_or_app. right. now left. }
    rewrite (Hall j Hin), gt_irrefl in Hj. discriminate.
  - reflexivity.
Qed.

(** The flat index found by the scan is a position of the window, hence
    inside the plane. *)
Lemma local_max_in_window p W ih0 ih1 iw0 iw1 :
  ih0 < ih1 -> iw0 < iw1 ->
  In (snd (local_max p W ih0 ih1 iw0 iw1)) (window W ih0 ih1 iw0 iw1).
Proof.
  intros Hh Hw. rewrite local_max_scan.
  destruct (window_head W ih0 ih1 iw0 iw1 Hh Hw) as (rest & Hwin).
  pose proof (scan_pooled p (window W ih0 ih1 iw0 iw1) (ih0 * W + iw0)) as H.
  inversion H as [l1 j l2 Hl Hj Hl2 Heq | l1 j l2 Hl _ Hl1 Hl2 Hj Heq | _ Heq];
    cbn [snd].
  - rewrite Hl. apply in_or_app. right. now left.
  - rewrite Hl. apply in_or_app. right. now left.
  - rewrite Hwin. now left.
Qed.

(** The value found is the element at the index found. *)
Lemma local_max_value p W ih0 ih1 iw0 iw1 :
  ih0 < ih1 -> iw0 < iw1 ->
  fst (local_max p W ih0 ih1 iw0 iw1) = p (snd (local_max p W ih0 ih1 iw0 iw1)).
Proof.
  intros Hh Hw. rewrite local_max_scan.
  destruct (window_head W ih0 ih1 iw0 iw1 Hh Hw) as (rest & Hwin).
  pose proof (scan_pooled p (window W ih0 ih1 iw0 iw1) (ih0 * W + iw0)) as H.
  inversion H as [l1 j l2 Hl Hj Hl2 Heq | l1 j l2 Hl _ Hl1 Hl2 Hj Heq | Hall Heq];
    cbn [fst snd].
  - symmetry. now apply isnan_true.
  - reflexivity.
  - symmetry. apply Hall. rewrite Hwin. now left.
Qed.

Lemma cell_window_in_plane H W OH OW oh ow k :
  1 <= H -> 1 <= W -> 0 <= oh < OH -> 0 <= ow < OW ->
  In k (cell_window H W OH OW oh ow) ->
  exists ih iw, 0 <= ih < H /\ 0 <= iw < W /\ k = ih * W + iw /\ 0 <= k < H * W.
Proof.
  intros HH HW Hoh How Hin. unfold cell_window in Hin.
  apply In_window in Hin. destruct Hin as (ih & iw & Hih & Hiw & ->).
  destruct (window_bounds oh OH H ltac:(lia) HH Hoh) as (Ha & Hb & Hc).
  destruct (window_bounds ow OW W ltac:(lia) HW How) as (Hd & He & Hf).
  exists ih, iw. repeat split; try lia; nia.
Qed.

(* ================================================================== *)
(** * The contiguous forward kernel, cell by cell *)
(* ================================================================== *)

(** A loop of paired stores [o[addr k] = f k; i[addr k] = g k]: a location
    named by one key only holds the values of that key. *)
Lemma fold_store_pair_in {K} (addr : K -> Z) (f : K -> spec_float) (g : K -> Z)
    (l : list K) (st : buffer spec_float * buffer Z) k :
  In k l ->
  (forall k', In k' l -> addr k' = addr k -> k' = k) ->
  let r := fold_left
             (fun st k => (upd (fst st) (addr k) (f k), upd (snd st) (addr k) (g k)))
             l st in
  fst r (addr k) = f k /\ snd r (addr k) = g k.
Proof.
  induction l as [|x l IH] using rev_ind; intros Hin Hinj; [destruct Hin|].
  cbv zeta. rewrite fold_left_app. cbn [fold_left fst snd]. unfold upd.
  destruct (Z.eqb_spec (addr k) (addr x)) as [He|Hne].
  - assert (x = k) as ->.
    { apply Hinj; [apply in_or_app; right; now left | congruence]. }
    split; reflexivity.
  - apply IH.
    + apply in_app_or in Hin. destruct Hin as [Hin | [-> | []]]; [assumption|].
      congruence.
    + intros k' Hk'. apply Hinj. apply in_or_app. now left.
Qed.

Lemma fold_store_pair_out {K} (addr : K -> Z) (f : K -> spec_float) (g : K -> Z)
    (l : list K) (st : buffer spec_float * buffer Z) a :
  (forall k, In k l -> addr k <> a) ->
  let r := fold_left
             (fun st k => (upd (fst st) (addr k) (f k), upd (snd st) (addr k) (g k)))
             l st in
  fst r a = fst st a /\ snd r a = snd st a.
Proof.
  induction l as [|x l IH] using rev_ind; intros Hout; [split; reflexivity|].
  cbv zeta. rewrite fold_left_app. cbn [fold_left fst snd]. unfold upd.
  destruct (Z.eqb_spec a (addr x)) as [He|Hne].
  - exfalso. apply (Hout x); [apply in_or_app; right; now left | congruence].
  - apply IH. intros k Hk. apply Hout. apply in_or_app. now left.
Qed.

Lemma In_forward_cells channels OH OW c oh ow :
  In (c, oh, ow) (forward_cells channels OH OW) <->
  0 <= c < channels /\ 0 <= oh < OH /\ 0 <= ow < OW.
Proof.
  unfold forward_cells. rewrite in_flat_map. split.
  - intros (c' & Hc & Hin). apply In_irange in Hc.
    apply in_flat_map in Hin. destruct Hin as (oh' & Hoh & Hin).
    apply In_irange in Hoh. apply in_map_iff in Hin.
    destruct Hin as (ow' & Heq & How). apply In_irange in How.
    inversion Heq; subst. lia.
  - intros (Hc & Hoh & How). exists c. split; [now apply In_irange|].
    apply in_flat_map. exists oh. split; [now apply In_irange|].
    apply in_map_iff. exists ow. split; [reflexivity | now apply In_irange].
Qed.

(** The planes loop of the contiguous kernel is one loop of paired stores
    over [forward_cells]. *)
Lemma pool_planes_flat scalar_t input_data H W OH OW channels st :
  fold_left (pool_plane scalar_t input_data H W OH OW) (irange 0 channels) st
  = fold_left
      (fun st k =>
         pool_cell scalar_t input_data H W OH OW (fst (fst k)) (snd (fst k)) st (snd k))
      (forward_cells channels OH OW) st.
Proof.
  unfold forward_cells. rewrite fold_left_flat_map.
  apply fold_left_ext_in. intros s c _. unfold pool_plane.
  rewrite fold_left_flat_map.
  apply fold_left_ext_in. intros s' oh _.
  rewrite fold_left_map. reflexivity.
Qed.

Lemma cell_offset_inj OH OW c oh ow c' oh' ow' :
  0 <= oh < OH -> 0 <= ow < OW -> 0 <= oh' < OH -> 0 <= ow' < OW ->
  c * OH * OW + (oh * OW + ow) = c' * OH * OW + (oh' * OW + ow') ->
  c = c' /\ oh = oh' /\ ow = ow'.
Proof.
  intros Hoh How Hoh' How' Heq.
  destruct (mul_add_inj OW (c * OH + oh) ow (c' * OH + oh') ow' How How')
    as [H1 H2]; [lia|].
  destruct (mul_add_inj OH c oh c' oh' Hoh Hoh' H1) as [H3 H4]. auto.
Qed.

(** What the contiguous kernel leaves at cell [(oh, ow)] of plane [c]: the
    value found by the scan, and the index found by the scan after its
    round trip through [scalar_t]. *)
Lemma pool_planes_cell scalar_t input_data H W OH OW channels st c oh ow :
  0 <= c < channels -> 0 <= oh < OH -> 0 <= ow < OW ->
  let r := fold_left (pool_plane scalar_t input_data H W OH OW)
                     (irange 0 channels) st in
  let m := local_max (shift input_data (c * H * W)) W
                     (start_index oh OH H) (end_index oh OH H)
                     (start_index ow OW W) (end_index ow OW W) in
  fst r (c * OH * OW + (oh * OW + ow)) = acc_to_scalar scalar_t (fst m) /\
  snd r (c * OH * OW + (oh * OW + ow)) = index_through_scalar scalar_t (snd m).
Proof.
  intros Hc Hoh How. cbv zeta. rewrite pool_planes_flat.
  apply (fold_store_pair_in
           (fun k => fst (fst k) * OH * OW + (snd (fst k) * OW + snd k))
           (fun k => acc_to_scalar scalar_t
                       (fst (local_max (shift input_data (fst (fst k) * H * W)) W
                               (start_index (snd (fst k)) OH H)
                               (end_index (snd (fst k)) OH H)
                               (start_index (snd k) OW W) (end_index (snd k) OW W))))
           (fun k => index_through_scalar scalar_t
                       (snd (local_max (shift input_data (fst (fst k) * H * W)) W
                               (start_index (snd (fst k)) OH H)
                               (end_index (snd (fst k)) OH H)
                               (start_index (snd k) OW W) (end_index (snd k) OW W))))
           (forward_cells channels OH OW) st (c, oh, ow)).
  - now apply In_forward_cells.
  - intros [[c' oh'] ow'] Hin Heq. apply In_forward_cells in Hin.
    cbn [fst snd] in Heq.
    destruct (cell_offset_inj OH OW c' oh' ow' c oh ow) as (-> & -> & ->);
      solve [tauto | lia | reflexivity].
Qed.

(* ================================================================== *)
(** * Loops over lanes *)
(* ================================================================== *)

(** A loop over whole registers of [L] lanes: when a step rewrites the lanes
    of its register by [phi] and leaves the other lanes alone, the loop
    rewrites every lane below [q * L] once. *)
Lemma fold_chunks {St X} (get : St -> Z -> X) (step : St -> Z -> St)
    (phi : Z -> X -> X) (L : Z) :
  0 < L ->
  (forall st d a,
     get (step st d) a
     = if (d <=? a) && (a <? d + L) then phi a (get st a) else get st a) ->
  forall q st a,
    get (fold_left step (map (fun k => Z.of_nat k * L) (seq 0 q)) st) a
    = if (0 <=? a) && (a <? Z.of_nat q * L) then phi a (get st a) else get st a.
Proof.
  intros HL Hstep. induction q as [|q IH]; intros st a.
  - simpl. destruct (0 <=? a) eqn:E; simpl; [|reflexivity].
    destruct (Z.ltb_spec a 0); [lia | reflexivity].
  - rewrite seq_S, map_app, fold_left_app. cbn [map fold_left Nat.add].
    rewrite Hstep, IH.
    destruct (Z.leb_spec (Z.of_nat q * L) a), (Z.ltb_spec a (Z.of_nat q * L + L)),
      (Z.leb_spec 0 a), (Z.ltb_spec a (Z.of_nat q * L)),
      (Z.ltb_spec a (Z.of_nat (S q) * L));
      cbn [andb]; try reflexivity; try lia.
Qed.

(** A scalar loop over [lo, hi): when a step rewrites its own lane by [phi]
    and leaves the others alone, the loop rewrites every lane of the range
    once. *)
Lemma fold_points {St X} (get : St -> Z -> X) (step : St -> Z -> St)
    (phi : Z -> X -> X) :
  (forall st d a,
     get (step st d) a = if a =? d then phi a (get st a) else get st a) ->
  forall n lo hi st a,
    Z.to_nat (hi - lo) = n ->
    get (fold_left step (irange lo hi) st) a
    = if (lo <=? a) && (a <? hi) then phi a (get st a) else get st a.
Proof.
  intros Hstep. induction n as [|n IH]; intros lo hi st a Hn.
  - rewrite irange_nil by lia. simpl.
    destruct (Z.leb_spec lo a), (Z.ltb_spec a hi); cbn [andb]; try reflexivity; lia.
  - rewrite irange_cons by lia. cbn [fold_left].
    rewrite (IH (lo + 1) hi) by lia. rewrite Hstep.
    destruct (Z.eqb_spec a lo), (Z.leb_spec (lo + 1) a), (Z.ltb_spec a hi),
      (Z.leb_spec lo a); cbn [andb]; try reflexivity; try lia.
Qed.

(** A loop whose steps leave a component alone leaves it alone. *)
Lemma fold_unchanged {St Y K} (get : St -> Y) (step : St -> K -> St) l :
  (forall st d, get (step st d) = get st) ->
  forall st, get (fold_left step l st) = get st.
Proof.
  intros Hstep. induction l as [|x l IH]; intros st; simpl; [reflexivity|].
  now rewrite IH, Hstep.
Qed.

(** Two loops over the same list keep a relation that each step keeps on
    the elements of the list. *)
Lemma fold_left_rel2 {St T X} (R : St -> T -> Prop)
    (f : St -> X -> St) (g : T -> X -> T) l :
  (forall s t x, In x l -> R s t -> R (f s x) (g t x)) ->
  forall s t, R s t -> R (fold_left f l s) (fold_left g l t).
Proof.
  induction l as [|x l IH]; intros Hstep s t HR; simpl; [assumption|].
  apply IH.
  - intros s' t' y Hy. apply Hstep. now right.
  - apply Hstep; [now left | assumption].
Qed.

(** The part of a row processed in whole registers. *)
Lemma vec_len_spec C L :
  0 <= C -> 0 < L ->
  vec_len C L = Z.of_nat (Z.to_nat (C / L)) * L /\
  0 <= vec_len C L <= C /\ C - vec_len C L < L.
Proof.
  intros HC HL. unfold vec_len.
  rewrite Z.rem_mod_nonneg by lia.
  pose proof (Z.div_mod C L ltac:(lia)) as Hdm.
  pose proof (Z.mod_pos_bound C L HL) as Hm.
  assert (0 <= C / L) by (apply Z.div_pos; lia).
  rewrite Z2Nat.id by lia. lia.
Qed.

Lemma ceil_div_mul q L : 0 < L -> ceil_div (q * L - 0) L = q.
Proof.
  intros HL. unfold ceil_div. rewrite Z.sub_0_r.
  replace (- (q * L)) with ((- q) * L) by ring.
  rewrite Z.div_mul by lia. lia.
Qed.

Lemma strided_whole q L :
  0 < L ->
  strided 0 (Z.of_nat q * L) L = map (fun k => Z.of_nat k * L) (seq 0 q) /\
  strided_end 0 (Z.of_nat q * L) L = Z.of_nat q * L.
Proof.
  intros HL. unfold strided, strided_end.
  rewrite ceil_div_mul by assumption. rewrite Nat2Z.id. split.
  - apply map_ext. intros k. lia.
  - lia.
Qed.

(* ================================================================== *)
(** * The index iterator of the channels-last kernels *)
(* ================================================================== *)

Lemma data_index_init_coords N OH OW i :
  0 < N -> 0 < OH -> 0 < OW -> 0 <= i ->
  data_index_init i N OH OW = position_coords N OH OW i.
Proof.
  intros HN HOH HOW Hi. unfold data_index_init, position_coords.
  assert (0 <= i / OW) by (apply Z.div_pos; lia).
  assert (0 <= i / OW / OH) by (apply Z.div_pos; lia).
  rewrite (Z.quot_div_nonneg i OW) by lia.
  rewrite (Z.quot_div_nonneg (i / OW) OH) by lia.
  rewrite !Z.rem_mod_nonneg by lia.
  rewrite Z.div_div by lia. rewrite (Z.mul_comm OW OH). reflexivity.
Qed.

Lemma succ_div_mod i B :
  0 < B -> 0 <= i ->
  ((i mod B + 1 = B) /\ (i + 1) mod B = 0 /\ (i + 1) / B = i / B + 1) \/
  ((i mod B + 1 <> B) /\ (i + 1) mod B = i mod B + 1 /\ (i + 1) / B = i / B).
Proof.
  intros HB Hi.
  pose proof (Z.div_mod i B ltac:(lia)) as Hdm.
  pose proof (Z.mod_pos_bound i B HB) as Hm.
  destruct (Z.eq_dec (i mod B + 1) B) as [He|Hne].
  - left. split; [assumption|].
    assert (Heq : i + 1 = B * (i / B + 1) + 0) by lia.
    split; symmetry.
    + apply (Z.mod_unique (i + 1) B (i / B + 1) 0); [left; lia | exact Heq].
    + apply (Z.div_unique (i + 1) B (i / B + 1) 0); [left; lia | exact Heq].
  - right. split; [assumption|].
    assert (Heq : i + 1 = B * (i / B) + (i mod B + 1)) by lia.
    split; symmetry.
    + apply (Z.mod_unique (i + 1) B (i / B) (i mod B + 1)); [left; lia | exact Heq].
    + apply (Z.div_unique (i + 1) B (i / B) (i mod B + 1)); [left; lia | exact Heq].
Qed.

Lemma data_index_step_coords N OH OW i :
  0 < N -> 0 < OH -> 0 < OW -> 0 <= i ->
  data_index_step N OH OW (position_coords N OH OW i)
  = position_coords N OH OW (i + 1).
Proof.
  intros HN HOH HOW Hi. unfold data_index_step, position_coords.
  assert (Hq : 0 <= i / OW) by (apply Z.div_pos; lia).
  assert (Hq2 : 0 <= i / OW / OH) by (apply Z.div_pos; lia).
  rewrite !(Z.mul_comm OH OW).
  rewrite <- !(Z.div_div _ OW OH) by lia.
  destruct (succ_div_mod i OW HOW Hi) as [(E1 & E2 & E3) | (E1 & E2 & E3)].
  - rewrite E2, E3. destruct (Z.eqb_spec (i mod OW + 1) OW); [|lia].
    cbn [Z.eqb].
    destruct (succ_div_mod (i / OW) OH HOH Hq) as [(F1 & F2 & F3) | (F1 & F2 & F3)].
    + rewrite F2, F3. destruct (Z.eqb_spec ((i / OW) mod OH + 1) OH); [|lia].
      cbn [Z.eqb].
      destruct (succ_div_mod (i / OW / OH) N HN Hq2)
        as [(G1 & G2 & G3) | (G1 & G2 & G3)].
      * rewrite G2. destruct (Z.eqb_spec ((i / OW / OH) mod N + 1) N); [|lia].
        reflexivity.
      * rewrite G2. destruct (Z.eqb_spec ((i / OW / OH) mod N + 1) N); [lia|].
        reflexivity.
    + rewrite F2, F3. destruct (Z.eqb_spec ((i / OW) mod OH + 1) OH); [lia|].
      pose proof (Z.mod_pos_bound (i / OW) OH HOH).
      destruct (Z.eqb_spec ((i / OW) mod OH + 1) 0); [lia|]. reflexivity.
  - rewrite E2, E3. destruct (Z.eqb_spec (i mod OW + 1) OW); [lia|].
    pose proof (Z.mod_pos_bound i OW HOW).
    destruct (Z.eqb_spec (i mod OW + 1) 0); [lia|]. reflexivity.
Qed.

(** A loop on a family of lanes that acts lane by lane is, on each lane, the
    loop of that lane. *)
Lemma fold_left_pointwise {X K} (F : (Z -> X) -> K -> (Z -> X))
    (g : Z -> X -> K -> X) l :
  (forall S x a, F S x a = g a (S a) x) ->
  forall S0 a, fold_left F l S0 a = fold_left (g a) l (S0 a).
Proof.
  intros HF. induction l as [|x l IH]; intros S0 a; simpl; [reflexivity|].
  now rewrite IH, HF.
Qed.

(** An index that fits the integer lane is not changed by the conversion. *)
Lemma to_integer_t_small t z :
  0 <= z <= integer_t_max t -> to_integer_t t z = z.
Proof.
  unfold to_integer_t, wrap_signed, integer_t_max. intros Hz.
  assert (Hp : 2 ^ integer_t_bits t = 2 * 2 ^ (integer_t_bits t - 1)).
  { rewrite <- Z.pow_succ_r by (destruct t; simpl; lia). f_equal. lia. }
  assert (0 < 2 ^ (integer_t_bits t - 1)) by (apply Z.pow_pos_nonneg; destruct t; simpl; lia).
  rewrite Z.mod_small by lia. lia.
Qed.

Lemma wrap_signed_32_small z : 0 <= z <= 2 ^ 31 - 1 -> wrap_signed 32 z = z.
Proof. intros Hz. apply (to_integer_t_small Float z). exact Hz. Qed.

Lemma position_coords_range N OH OW i :
  0 < N -> 0 < OH -> 0 < OW ->
  let '(n, oh, ow) := position_coords N OH OW i in
  0 <= n < N /\ 0 <= oh < OH /\ 0 <= ow < OW.
Proof.
  intros HN HOH HOW. unfold position_coords.
  repeat split; apply Z.mod_pos_bound; assumption.
Qed.

Lemma position_coords_offset N OH OW n oh ow :
  0 <= n < N -> 0 <= oh < OH -> 0 <= ow < OW ->
  position_coords N OH OW ((n * OH + oh) * OW + ow) = (n, oh, ow).
Proof.
  intros Hn Hoh How. unfold position_coords.
  assert (E1 : ((n * OH + oh) * OW + ow) / OW = n * OH + oh).
  { symmetry. apply (Z.div_unique _ OW _ ow); [left; lia | ring]. }
  assert (E2 : ((n * OH + oh) * OW + ow) mod OW = ow).
  { symmetry. apply (Z.mod_unique _ OW (n * OH + oh) ow); [left; lia | ring]. }
  assert (E3 : (n * OH + oh) mod OH = oh).
  { symmetry. apply (Z.mod_unique _ OH n oh); [left; lia | ring]. }
  assert (E4 : ((n * OH + oh) * OW + ow) / (OH * OW) = n).
  { rewrite (Z.mul_comm OH OW), <- Z.div_div, E1 by lia.
    symmetry. apply (Z.div_unique _ OH _ oh); [left; lia | ring]. }
  rewrite E1, E2, E3, E4, Z.mod_small by lia. reflexivity.
Qed.

Lemma position_index_range N OH OW n oh ow :
  0 <= n < N -> 0 <= oh < OH -> 0 <= ow < OW ->
  0 <= (n * OH + oh) * OW + ow < N * OH * OW.
Proof.
  intros Hn Hoh How.
  assert (H1 : 0 <= n * OH) by (apply Z.mul_nonneg_nonneg; lia).
  assert (H2 : 0 <= (n * OH + oh) * OW) by (apply Z.mul_nonneg_nonneg; lia).
  assert (H3 : (n + 1) * OH <= N * OH) by (apply Z.mul_le_mono_nonneg_r; lia).
  assert (H4 : (n * OH + oh + 1) * OW <= N * OH * OW)
    by (apply Z.mul_le_mono_nonneg_r; lia).
  lia.
Qed.

(** A pass over the channels of one position: whole registers of [L] lanes
    up to [len = q * L], then the scalar tail up to [C].  The running value
    of a channel is [val]; its running index is [ib] (the index buffer)
    below [len] and [ind] (the indices tensor) from [len] on.  When a vector
    step rewrites [(val, ib)] on its lanes, a scalar step rewrites
    [(val, ind)] on its lane, and neither touches anything else, the pass
    rewrites every channel once and nothing outside the row. *)
Lemma row_pass {St V I} (val : St -> Z -> V) (ib ind : St -> Z -> I)
    (vstep tstep : St -> Z -> St) (phiv phit : Z -> V * I -> V * I)
    (L C : Z) (q : nat) :
  0 < L -> Z.of_nat q * L <= C ->
  (forall st d a,
     (val (vstep st d) a, ib (vstep st d) a)
     = if (d <=? a) && (a <? d + L) then phiv a (val st a, ib st a)
       else (val st a, ib st a)) ->
  (forall st d, ind (vstep st d) = ind st) ->
  (forall st d a,
     (val (tstep st d) a, ind (tstep st d) a)
     = if a =? d then phit a (val st a, ind st a) else (val st a, ind st a)) ->
  (forall st d, ib (tstep st d) = ib st) ->
  forall st,
    let len := Z.of_nat q * L in
    let st' := fold_left tstep (irange (strided_end 0 len L) C)
                         (fold_left vstep (strided 0 len L) st) in
    (forall a, 0 <= a < C ->
       (val st' a, if a <? len then ib st' a else ind st' a)
       = (if a <? len then phiv a else phit a)
           (val st a, if a <? len then ib st a else ind st a)) /\
    (forall a, ~ 0 <= a < C -> val st' a = val st a) /\
    (forall a, ~ len <= a < C -> ind st' a = ind st a).
Proof.
  intros HL Hbound Hv Hvi Ht Hti st.
  destruct (strided_whole q L HL) as [Hs He].
  cbv zeta. rewrite Hs, He.
  set (len := Z.of_nat q * L) in *.
  set (st1 := fold_left vstep (map (fun k => Z.of_nat k * L) (seq 0 q)) st).
  assert (H1 : forall a,
             (val st1 a, ib st1 a)
             = if (0 <=? a) && (a <? len) then phiv a (val st a, ib st a)
               else (val st a, ib st a)).
  { intros a. unfold st1, len.
    apply (fold_chunks (fun st a => (val st a, ib st a)) vstep phiv L HL Hv). }
  assert (H1i : ind st1 = ind st).
  { unfold st1. now apply (fold_unchanged ind). }
  set (st2 := fold_left tstep (irange len C) st1).
  assert (H2 : forall a,
             (val st2 a, ind st2 a)
             = if (len <=? a) && (a <? C) then phit a (val st1 a, ind st1 a)
               else (val st1 a, ind st1 a)).
  { intros a. unfold st2.
    apply (fold_points (fun st a => (val st a, ind st a))
                       tstep phit Ht (Z.to_nat (C - len))). reflexivity. }
  assert (H2b : ib st2 = ib st1).
  { unfold st2. now apply (fold_unchanged ib). }
  split; [|split].
  - intros a Ha. rewrite H2b.
    specialize (H1 a). specialize (H2 a). rewrite H1i in H2.
    destruct (Z.ltb_spec a len).
    + destruct (Z.leb_spec len a); [lia|]. cbn [andb] in H2.
      destruct (Z.leb_spec 0 a); [|lia].
      destruct (Z.ltb_spec a len); [|lia]. cbn [andb] in H1.
      rewrite <- H1. f_equal. congruence.
    + destruct (Z.leb_spec len a); [|lia].
      destruct (Z.ltb_spec a C); [|lia]. cbn [andb] in H2.
      destruct (Z.ltb_spec a len); [lia|]. rewrite andb_false_r in H1.
      assert (val st1 a = val st a) as Ho by congruence.
      rewrite Ho in H2. rewrite <- H2. reflexivity.
  - intros a Ha. specialize (H1 a). specialize (H2 a).
    destruct (Z.leb_spec len a), (Z.ltb_spec a C), (Z.leb_spec 0 a),
      (Z.ltb_spec a len); cbn [andb] in *; try lia; congruence.
  - intros a Ha. specialize (H2 a). rewrite H1i in H2.
    destruct (Z.leb_spec len a), (Z.ltb_spec a C); cbn [andb] in *;
      try lia; congruence.
Qed.

(** A component that no step of a pass touches is unchanged by the pass. *)
Lemma row_pass_unchanged {St Y} (other : St -> Y) (vstep tstep : St -> Z -> St)
    (lv lt : list Z) st :
  (forall st d, other (vstep st d) = other st) ->
  (forall st d, other (tstep st d) = other st) ->
  other (fold_left tstep lt (fold_left vstep lv st)) = other st.
Proof.
  intros Hv Ht.
  rewrite (fold_unchanged other tstep lt Ht).
  apply (fold_unchanged other vstep lv Hv).
Qed.

Lemma worker_step_eq {St} (position : St -> Z -> Z -> Z -> Z -> St)
    N OH OW acc i n oh ow :
  snd acc = (n, oh, ow) ->
  worker_step position N OH OW acc i
  = (position (fst acc) i n oh ow, data_index_step N OH OW (n, oh, ow)).
Proof. unfold worker_step. intros ->. reflexivity. Qed.

(** The loop of a channels-last worker over [k] positions from [begin] on,
    entered with the coordinates of [begin].  When processing a position
    fills the row of that position with [cell] and touches no other row, the
    loop fills every row of its range and nothing else. *)
Lemma worker_loop {St V} (out : St -> buffer V) (ind : St -> buffer Z)
    (position : St -> Z -> Z -> Z -> Z -> St)
    (cell : Z -> Z -> Z -> Z -> V * Z) (C N OH OW : Z) :
  0 <= C -> 0 < N -> 0 < OH -> 0 < OW ->
  (forall st i n oh ow,
     0 <= n < N -> 0 <= oh < OH -> 0 <= ow < OW ->
     (forall d, 0 <= d < C ->
        (out (position st i n oh ow) (i * C + d),
         ind (position st i n oh ow) (i * C + d)) = cell n oh ow d) /\
     (forall x, ~ i * C <= x < i * C + C ->
        out (position st i n oh ow) x = out st x /\
        ind (position st i n oh ow) x = ind st x)) ->
  forall st begin k,
    0 <= begin ->
    let r := fold_left (worker_step position N OH OW)
                       (irange begin (begin + Z.of_nat k))
                       (st, position_coords N OH OW begin) in
    snd r = position_coords N OH OW (begin + Z.of_nat k) /\
    (forall i d, begin <= i < begin + Z.of_nat k -> 0 <= d < C ->
       (out (fst r) (i * C + d), ind (fst r) (i * C + d))
       = cell (fst (fst (position_coords N OH OW i)))
              (snd (fst (position_coords N OH OW i)))
              (snd (position_coords N OH OW i)) d) /\
    (forall x, ~ begin * C <= x < (begin + Z.of_nat k) * C ->
       out (fst r) x = out st x /\ ind (fst r) x = ind st x).
Proof.
  intros HC HN HOH HOW Hpos st begin k Hb. induction k as [|k IH].
  - rewrite irange_nil by lia. cbv zeta. cbn [fold_left fst snd].
    split; [f_equal; lia|]. split; [intros; lia | auto].
  - rewrite (irange_app begin (begin + Z.of_nat k)) by lia.
    rewrite (irange_cons (begin + Z.of_nat k)) by lia.
    rewrite (irange_nil (begin + Z.of_nat k + 1)) by lia.
    cbv zeta in *. rewrite fold_left_app. cbn [fold_left].
    set (r := fold_left _ (irange begin (begin + Z.of_nat k)) _) in *.
    destruct IH as (Hc & Hrows & Hframe).
    set (e := begin + Z.of_nat k) in *.
    pose proof (position_coords_range N OH OW e HN HOH HOW) as Hrange.
    pose proof (data_index_step_coords N OH OW e HN HOH HOW ltac:(lia)) as Hstep.
    destruct (position_coords N OH OW e) as [[n oh] ow] eqn:Hpe.
    destruct Hrange as (Hn & Hoh & How).
    rewrite (worker_step_eq position N OH OW r e n oh ow Hc).
    cbn [fst snd].
    destruct (Hpos (fst r) e n oh ow Hn Hoh How) as [Hrow Hfr].
    split; [|split].
    + rewrite Hstep. f_equal. lia.
    + intros i d Hi Hd.
      destruct (Z.eq_dec i e) as [->|Hne].
      * rewrite (Hrow d Hd), Hpe. reflexivity.
      * destruct (Hfr (i * C + d) ltac:(nia)) as [-> ->].
        apply Hrows; lia.
    + intros x Hx.
      destruct (Hfr x ltac:(nia)) as [-> ->].
      apply Hframe. nia.
Qed.

(** The workers of a channels-last kernel under a fair pool.  When the
    worker of a sub-range fills the rows of its positions with [row] and
    touches no other row, the workers together fill the rows of every
    position of the range, and nothing else. *)
Lemma workers_fill_rows {V}
    (worker : Z -> Z -> buffer V * buffer Z -> buffer V * buffer Z)
    (row : Z -> Z -> V * Z) (C : Z) :
  0 <= C ->
  (forall lo hi st, 0 <= lo -> lo < hi ->
     (forall i d, lo <= i < hi -> 0 <= d < C ->
        (fst (worker lo hi st) (i * C + d), snd (worker lo hi st) (i * C + d))
        = row i d) /\
     (forall x, ~ lo * C <= x < hi * C ->
        fst (worker lo hi st) x = fst st x /\
        snd (worker lo hi st) x = snd st x)) ->
  forall chunks b e st,
    0 <= b -> covers b e chunks ->
    let st' := fold_left (fun st chunk => worker (fst chunk) (snd chunk) st)
                         chunks st in
    (forall i d, b <= i < e -> 0 <= d < C ->
       (fst st' (i * C + d), snd st' (i * C + d)) = row i d) /\
    (forall x, ~ b * C <= x < e * C ->
       fst st' x = fst st x /\ snd st' x = snd st x).
Proof.
  intros HC Hworker.
  induction chunks as [|[lo hi] rest IH]; intros b e st Hb Hc; cbn [covers] in Hc.
  - cbv zeta. cbn [fold_left]. split; [intros; lia | auto].
  - cbn [fst snd] in Hc. destruct Hc as (-> & Hhi & Hrest).
    cbv zeta. cbn [fold_left fst snd].
    destruct (Hworker b hi st Hb ltac:(lia)) as [Hrows Hframe].
    destruct (IH hi e (worker b hi st) ltac:(lia) Hrest) as [IHrows IHframe].
    cbv zeta in IHrows, IHframe.
    split.
    + intros i d Hi Hd.
      destruct (Z.lt_ge_cases i hi) as [Hlt|Hge].
      * destruct (IHframe (i * C + d) ltac:(nia)) as [-> ->].
        apply Hrows; lia.
      * apply IHrows; lia.
    + intros x Hx.
      destruct (IHframe x ltac:(nia)) as [-> ->].
      apply Hframe. nia.
Qed.

(* ================================================================== *)
(** * The generic channels-last kernel, lane by lane *)
(* ================================================================== *)

Section ChannelsLastFacts.
Variable scalar_t : ScalarType.
Variable VECTOR_WIDTH : Z.
Variable input_data : buffer spec_float.
Variables C H W : Z.
Hypothesis HC : 0 <= C.
Hypothesis HL : 0 < Vec_size VECTOR_WIDTH scalar_t.

Local Abbreviation L := (Vec_size VECTOR_WIDTH scalar_t).
Local Abbreviation len := (vec_len C (Vec_size VECTOR_WIDTH scalar_t)).

Lemma cl_init_vec_lane out index0 st d1 a :
  (cl_out (cl_init_vec scalar_t VECTOR_WIDTH out index0 st d1) (out + a),
   cl_index_buffer (cl_init_vec scalar_t VECTOR_WIDTH out index0 st d1) a)
  = if (d1 <=? a) && (a <? d1 + L)
    then (neg_infinity, to_integer_t scalar_t index0)
    else (cl_out st (out + a), cl_index_buffer st a).
Proof.
  unfold cl_init_vec, store, broadcast. cbn [cl_out cl_index_buffer].
  destruct (Z.leb_spec d1 a), (Z.ltb_spec a (d1 + L)),
    (Z.leb_spec (out + d1) (out + a)), (Z.ltb_spec (out + a) (out + d1 + L));
    cbn [andb]; try reflexivity; lia.
Qed.

Lemma cl_init_tail_lane out index0 st d1 a :
  (cl_out (cl_init_tail out index0 st d1) (out + a),
   cl_ind (cl_init_tail out index0 st d1) (out + a))
  = if a =? d1 then (neg_infinity, index0)
    else (cl_out st (out + a), cl_ind st (out + a)).
Proof.
  unfold cl_init_tail, upd. cbn [cl_out cl_ind].
  destruct (Z.eqb_spec a d1), (Z.eqb_spec (out + a) (out + d1));
    try reflexivity; lia.
Qed.

Lemma cl_max_vec_lane out in_ index st d2 a :
  (cl_out (cl_max_vec scalar_t VECTOR_WIDTH input_data out in_ index st d2) (out + a),
   cl_index_buffer
     (cl_max_vec scalar_t VECTOR_WIDTH input_data out in_ index st d2) a)
  = if (d2 <=? a) && (a <? d2 + L)
    then lane_step (input_data (in_ + a)) (to_integer_t scalar_t index)
                   (cl_out st (out + a), cl_index_buffer st a)
    else (cl_out st (out + a), cl_index_buffer st a).
Proof.
  unfold cl_max_vec, store, blendv, vec_cast, vec_or, vec_gt, vec_isnan,
    loadu, broadcast, lane_step.
  cbn [cl_out cl_index_buffer fst snd].
  destruct (Z.leb_spec d2 a), (Z.ltb_spec a (d2 + L)),
    (Z.leb_spec (out + d2) (out + a)), (Z.ltb_spec (out + a) (out + d2 + L));
    cbn [andb]; try reflexivity; try lia.
  replace (out + a - (out + d2)) with (a - d2) by lia.
  replace (in_ + d2 + (a - d2)) with (in_ + a) by lia.
  replace (out + d2 + (a - d2)) with (out + a) by lia.
  replace (d2 + (a - d2)) with a by lia.
  destruct (gt (input_data (in_ + a)) (cl_out st (out + a))
            || isnan (input_data (in_ + a))); reflexivity.
Qed.

Lemma cl_max_tail_lane out in_ index st d2 a :
  (cl_out (cl_max_tail input_data out in_ index st d2) (out + a),
   cl_ind (cl_max_tail input_data out in_ index st d2) (out + a))
  = if a =? d2
    then lane_step (input_data (in_ + a)) index
                   (cl_out st (out + a), cl_ind st (out + a))
    else (cl_out st (out + a), cl_ind st (out + a)).
Proof.
  unfold cl_max_tail, upd, lane_step. cbn [cl_out cl_ind fst snd].
  destruct (Z.eqb_spec a d2) as [->|Hne].
  - rewrite Z.eqb_refl.
    destruct (gt (input_data (in_ + d2)) (cl_out st (out + d2))
              || isnan (input_data (in_ + d2))); reflexivity.
  - destruct (Z.eqb_spec (out + a) (out + d2)); [lia | reflexivity].
Qed.

Lemma cl_init_lanes out index0 st :
  to_integer_t scalar_t index0 = index0 ->
  let st' := fold_left (cl_init_tail out index0)
                       (irange (strided_end 0 len L) C)
                       (fold_left (cl_init_vec scalar_t VECTOR_WIDTH out index0)
                                  (strided 0 len L) st) in
  (forall a, 0 <= a < C -> cl_lane len out st' a = (neg_infinity, index0)) /\
  (forall a, ~ 0 <= a < C -> cl_out st' (out + a) = cl_out st (out + a)) /\
  (forall a, ~ len <= a < C -> cl_ind st' (out + a) = cl_ind st (out + a)).
Proof.
  intros Hw.
  destruct (vec_len_spec C L HC HL) as (Hlen & Hbound & _).
  rewrite Hlen.
  destruct (row_pass (fun st a => cl_out st (out + a)) cl_index_buffer
                     (fun st a => cl_ind st (out + a))
                     (cl_init_vec scalar_t VECTOR_WIDTH out index0)
                     (cl_init_tail out index0)
                     (fun _ _ => (neg_infinity, to_integer_t scalar_t index0))
                     (fun _ _ => (neg_infinity, index0))
                     L C (Z.to_nat (C / L)) HL ltac:(lia)
                     (cl_init_vec_lane out index0)
                     ltac:(reflexivity)
                     (cl_init_tail_lane out index0)
                     ltac:(reflexivity) st)
    as (R1 & R2 & R3).
  cbv zeta. split; [|split]; auto.
  intros a Ha. unfold cl_lane. rewrite (R1 a Ha), Hw.
  now destruct (a <? _).
Qed.

Lemma cl_pixel_lanes out n ih iw st :
  to_integer_t scalar_t (ih * W + iw) = ih * W + iw ->
  let st' := cl_pixel scalar_t VECTOR_WIDTH input_data C H W out n ih st iw in
  (forall a, 0 <= a < C ->
     cl_lane len out st' a
     = max_step (channel_plane input_data C H W n a) W ih (cl_lane len out st a) iw) /\
  (forall a, ~ 0 <= a < C -> cl_out st' (out + a) = cl_out st (out + a)) /\
  (forall a, ~ len <= a < C -> cl_ind st' (out + a) = cl_ind st (out + a)).
Proof.
  intros Hw. unfold cl_pixel.
  set (in_ := n * H * W * C + ih * W * C + iw * C).
  set (index := ih * W + iw) in *.
  destruct (vec_len_spec C L HC HL) as (Hlen & Hbound & _).
  rewrite Hlen.
  destruct (row_pass (fun st a => cl_out st (out + a)) cl_index_buffer
              (fun st a => cl_ind st (out + a))
              (cl_max_vec scalar_t VECTOR_WIDTH input_data out in_ index)
              (cl_max_tail input_data out in_ index)
              (fun a => lane_step (input_data (in_ + a)) (to_integer_t scalar_t index))
              (fun a => lane_step (input_data (in_ + a)) index)
              L C (Z.to_nat (C / L)) HL ltac:(lia)
              (cl_max_vec_lane out in_ index)
              ltac:(reflexivity)
              (cl_max_tail_lane out in_ index)
              ltac:(reflexivity) st)
    as (R1 & R2 & R3).
  cbv zeta. split; [|split]; auto.
  intros a Ha. unfold cl_lane. rewrite (R1 a Ha), Hw.
  assert (Hin : channel_plane input_data C H W n a index = input_data (in_ + a)).
  { unfold channel_plane, in_, index. f_equal. ring. }
  unfold max_step. fold index. rewrite Hin.
  now destruct (a <? _).
Qed.

(** What one output position leaves in [out] and [ind]: for each channel,
    the pair found by the scan of that channel's window; nothing outside
    the row of the position changes. *)
Lemma cl_position_lanes OH OW st i n oh ow :
  1 <= H -> 1 <= W -> 0 <= oh < OH -> 0 <= ow < OW ->
  H * W <= integer_t_max scalar_t ->
  let st' := cl_position scalar_t VECTOR_WIDTH input_data C H W OH OW
                         st i n oh ow in
  (forall d, 0 <= d < C ->
     (cl_out st' (i * C + d), cl_ind st' (i * C + d))
     = local_max (channel_plane input_data C H W n d) W
                 (start_index oh OH H) (end_index oh OH H)
                 (start_index ow OW W) (end_index ow OW W)) /\
  (forall a, ~ 0 <= a < C ->
     cl_out st' (i * C + a) = cl_out st (i * C + a) /\
     cl_ind st' (i * C + a) = cl_ind st (i * C + a)).
Proof.
  intros HH HW Hoh How Hfit.
  destruct (window_bounds oh OH H ltac:(lia) HH Hoh) as (Hh0 & Hh1 & Hh2).
  destruct (window_bounds ow OW W ltac:(lia) HW How) as (Hw0 & Hw1 & Hw2).
  destruct (vec_len_spec C L HC HL) as (_ & Hlen & _).
  unfold cl_position.
  set (ih0 := start_index oh OH H) in *. set (ih1 := end_index oh OH H) in *.
  set (iw0 := start_index ow OW W) in *. set (iw1 := end_index ow OW W) in *.
  set (out := i * C). set (index0 := ih0 * W + iw0).
  assert (Hsmall : forall ih iw, ih0 <= ih < ih1 -> iw0 <= iw < iw1 ->
                     to_integer_t scalar_t (ih * W + iw) = ih * W + iw).
  { intros ih iw Hih Hiw. apply to_integer_t_small. nia. }
  destruct (cl_init_lanes out index0 st (Hsmall ih0 iw0 ltac:(lia) ltac:(lia)))
    as (I1 & I2 & I3).
  set (st1 := fold_left (cl_init_tail out index0) _ _) in *.
  (* the relation kept by the pixel loops *)
  set (R := fun (s : cl_state) (S : Z -> spec_float * Z) =>
              (forall a, 0 <= a < C -> cl_lane len out s a = S a) /\
              (forall a, ~ 0 <= a < C -> cl_out s (out + a) = cl_out st (out + a)) /\
              (forall a, ~ len <= a < C -> cl_ind s (out + a) = cl_ind st (out + a))).
  set (p := channel_plane input_data C H W n).
  assert (Hloop :
    R (fold_left
         (fun s ih =>
            fold_left (cl_pixel scalar_t VECTOR_WIDTH input_data C H W out n ih)
                      (irange iw0 iw1) s)
         (irange ih0 ih1) st1)
      (fold_left
         (fun S ih =>
            fold_left (fun S iw a => max_step (p a) W ih (S a) iw)
                      (irange iw0 iw1) S)
         (irange ih0 ih1) (fun _ => (neg_infinity, index0)))).
  { apply fold_left_rel2.
    - intros s S ih Hih HR. apply In_irange in Hih.
      apply fold_left_rel2; [|exact HR].
      intros s' S' iw Hiw (A1 & A2 & A3). apply In_irange in Hiw.
      destruct (cl_pixel_lanes out n ih iw s' (Hsmall ih iw Hih Hiw))
        as (P1 & P2 & P3).
      split; [|split].
      + intros a Ha. rewrite (P1 a Ha), (A1 a Ha). reflexivity.
      + intros a Ha. rewrite (P2 a Ha). auto.
      + intros a Ha. rewrite (P3 a Ha). auto.
    - split; [|split]; auto. }
  destruct Hloop as (L1 & L2 & L3).
  set (st2 := fold_left _ (irange ih0 ih1) st1) in *.
  assert (Hlanes : forall d, 0 <= d < C ->
            cl_lane len out st2 d = local_max (p d) W ih0 ih1 iw0 iw1).
  { intros d Hd. rewrite (L1 d Hd). unfold local_max.
    rewrite (fold_left_pointwise
               (fun S ih => fold_left (fun S iw a => max_step (p a) W ih (S a) iw)
                                      (irange iw0 iw1) S)
               (fun a s ih => fold_left (max_step (p a) W ih) (irange iw0 iw1) s)).
    - reflexivity.
    - intros S ih a.
      apply (fold_left_pointwise
               (fun S iw a => max_step (p a) W ih (S a) iw)
               (fun a s iw => max_step (p a) W ih s iw)).
      reflexivity. }
  cbv zeta. cbn [cl_out cl_ind].
  assert (Hconv : forall a,
            convert (cl_index_buffer st2) (cl_ind st2) out len (out + a)
            = if (0 <=? a) && (a <? len) then cl_index_buffer st2 a
              else cl_ind st2 (out + a)).
  { intros a. unfold convert.
    apply (fold_points (fun (dst : buffer Z) a => dst (out + a))
                       (fun dst k => upd dst (out + k) (cl_index_buffer st2 k))
                       (fun a _ => cl_index_buffer st2 a)) with (n := Z.to_nat (len - 0));
      [|reflexivity].
    intros dst d a'. unfold upd.
    destruct (Z.eqb_spec a' d), (Z.eqb_spec (out + a') (out + d));
      try reflexivity; try lia. now subst. }
  split.
  - intros d Hd. rewrite Hconv, <- (Hlanes d Hd). unfold cl_lane.
    destruct (Z.leb_spec 0 d); [|lia]. cbn [andb]. reflexivity.
  - intros a Ha. rewrite Hconv. split; [now apply L2|].
    destruct (Z.leb_spec 0 a), (Z.ltb_spec a len); cbn [andb]; try lia;
      apply L3; lia.
Qed.

Lemma cl_position_frame OH OW st i n oh ow x :
  1 <= H -> 1 <= W -> 0 <= oh < OH -> 0 <= ow < OW ->
  H * W <= integer_t_max scalar_t ->
  ~ i * C <= x < i * C + C ->
  let st' := cl_position scalar_t VECTOR_WIDTH input_data C H W OH OW
                         st i n oh ow in
  cl_out st' x = cl_out st x /\ cl_ind st' x = cl_ind st x.
Proof.
  intros HH HW Hoh How Hfit Hx.
  destruct (cl_position_lanes OH OW st i n oh ow HH HW Hoh How Hfit) as [_ Hf].
  specialize (Hf (x - i * C) ltac:(lia)).
  replace (i * C + (x - i * C)) with x in Hf by lia. exact Hf.
Qed.

End ChannelsLastFacts.

(** The worker of the generic kernel on the sub-range [lo, hi). *)
Lemma cl_worker_rows scalar_t VW data C H W N OH OW lo hi st :
  0 <= C -> 0 < Vec_size VW scalar_t ->
  0 < N -> 0 < OH -> 0 < OW -> 1 <= H -> 1 <= W ->
  H * W <= integer_t_max scalar_t ->
  0 <= lo -> lo < hi ->
  let st' := cl_worker scalar_t VW data C H W N OH OW lo hi st in
  (forall i d, lo <= i < hi -> 0 <= d < C ->
     (fst st' (i * C + d), snd st' (i * C + d))
     = local_max
         (channel_plane data C H W (fst (fst (position_coords N OH OW i))) d) W
         (start_index (snd (fst (position_coords N OH OW i))) OH H)
         (end_index (snd (fst (position_coords N OH OW i))) OH H)
         (start_index (snd (position_coords N OH OW i)) OW W)
         (end_index (snd (position_coords N OH OW i)) OW W)) /\
  (forall x, ~ lo * C <= x < hi * C ->
     fst st' x = fst st x /\ snd st' x = snd st x).
Proof.
  intros HC HL HN HOH HOW HH HW Hfit Hlo Hhi. cbv zeta.
  unfold cl_worker. cbn [fst snd].
  rewrite data_index_init_coords by lia.
  pose proof (worker_loop cl_out cl_ind
                (cl_position scalar_t VW data C H W OH OW)
                (fun n oh ow d =>
                   local_max (channel_plane data C H W n d) W
                             (start_index oh OH H) (end_index oh OH H)
                             (start_index ow OW W) (end_index ow OW W))
                C N OH OW HC HN HOH HOW) as Hloop.
  specialize (Hloop
    (fun s i n' oh' ow' _ Hoh' How' =>
       conj (proj1 (cl_position_lanes scalar_t VW data C H W HC HL
                      OH OW s i n' oh' ow' HH HW Hoh' How' Hfit))
            (fun x Hx => cl_position_frame scalar_t VW data C H W HC HL
                           OH OW s i n' oh' ow' x HH HW Hoh' How' Hfit Hx))
    (mkCl (fst st) (snd st) (fun _ => 0))
    lo (Z.to_nat (hi - lo)) Hlo).
  change (cl_worker_step scalar_t VW data C H W N OH OW)
    with (worker_step (cl_position scalar_t VW data C H W OH OW) N OH OW).
  cbv zeta in Hloop. rewrite Z2Nat.id in Hloop by lia.
  replace (lo + (hi - lo)) with hi in Hloop by lia.
  destruct Hloop as (_ & Hrows & Hframe). split; assumption.
Qed.

(** The generic channels-last kernel on a 4D input: it returns, and cell
    [(n, c, oh, ow)] of its two tensors holds the pair found by the scan of
    the window of channel [c], the index as found. *)
Lemma channels_last_generic_cell pool scalar_t VW out0 ind0 data
    N C H W OH OW n c oh ow :
  fair pool -> 0 < Vec_size VW scalar_t ->
  1 <= H -> 1 <= W -> H * W <= integer_t_max scalar_t ->
  0 <= n < N -> 0 <= c < C -> 0 <= oh < OH -> 0 <= ow < OW ->
  exists out ind,
    cpu_adaptive_max_pool_channels_last pool scalar_t VW out0 ind0
      (mkTensor scalar_t [N; C; H; W] ChannelsLast data) [OH; OW] = Ok (out, ind) /\
    (data_ptr out (offset_nhwc C OH OW n c oh ow),
     long_data_ptr ind (offset_nhwc C OH OW n c oh ow))
    = local_max (channel_plane data C H W n c) W
                (start_index oh OH H) (end_index oh OH H)
                (start_index ow OW W) (end_index ow OW W).
Proof.
  intros Hfair HL HH HW Hfit Hn Hc Hoh How.
  unfold cpu_adaptive_max_pool_channels_last, ndimension, size.
  cbn [sizes data_ptr length nth].
  change (negb (Z.of_nat 4 =? 4)) with false. cbv iota.
  destruct (dim_of_4d N C H W) as (E0 & E1 & E2 & E3 & _ & _).
  rewrite E0, E1, E2, E3.
  destruct (Z.leb_spec (H * W) (integer_t_max scalar_t)); [|lia].
  cbn [negb]. eexists _, _. split; [reflexivity|].
  cbn [set_data set_long_data data_ptr long_data_ptr].
  unfold parallel_for.
  pose proof (position_index_range N OH OW n oh ow Hn Hoh How) as Hidx.
  destruct (workers_fill_rows
              (cl_worker scalar_t VW data C H W N OH OW)
              (fun i d =>
                 local_max
                   (channel_plane data C H W (fst (fst (position_coords N OH OW i))) d) W
                   (start_index (snd (fst (position_coords N OH OW i))) OH H)
                   (end_index (snd (fst (position_coords N OH OW i))) OH H)
                   (start_index (snd (position_coords N OH OW i)) OW W)
                   (end_index (snd (position_coords N OH OW i)) OW W))
              C ltac:(lia)
              (fun lo hi st Hlo Hhi =>
                 cl_worker_rows scalar_t VW data C H W N OH OW lo hi st
                   ltac:(lia) HL ltac:(lia) ltac:(lia) ltac:(lia) HH HW Hfit Hlo Hhi)
              (pool 0 (N * OH * OW)) 0 (N * OH * OW)
              (data_ptr out0, long_data_ptr ind0) ltac:(lia) (Hfair _ _))
    as [Hrows _].
  specialize (Hrows ((n * OH + oh) * OW + ow) c Hidx Hc).
  rewrite position_coords_offset in Hrows by lia. cbn [fst snd] in Hrows.
  unfold offset_nhwc. exact Hrows.
Qed.

(* ================================================================== *)
(** * The [BFloat16] channels-last kernel, lane by lane *)
(* ================================================================== *)

Section ChannelsLastBFloat16Facts.
Variable VECTOR_WIDTH : Z.
Variable input_data : buffer spec_float.
Variables C H W : Z.
Hypothesis HC : 0 <= C.
Hypothesis Hf : 0 < Vec_size VECTOR_WIDTH Float.
Hypothesis Hb : Vec_size VECTOR_WIDTH BFloat16 = 2 * Vec_size VECTOR_WIDTH Float.

Local Abbreviation fsize := (Vec_size VECTOR_WIDTH Float).
Local Abbreviation bsize := (Vec_size VECTOR_WIDTH BFloat16).
Local Abbreviation len := (vec_len C (Vec_size VECTOR_WIDTH BFloat16)).

Lemma bf_len_spec :
  len = Z.of_nat (Z.to_nat (C / bsize)) * bsize /\
  len = Z.of_nat (2 * Z.to_nat (C / bsize)) * fsize /\
  0 <= len <= C.
Proof.
  destruct (vec_len_spec C bsize HC ltac:(lia)) as (Hlen & Hbound & _).
  split; [exact Hlen|]. split; [|exact Hbound].
  rewrite Hlen, Hb. lia.
Qed.

Lemma bf_init_vec_lane index0 st d1 a :
  (bf_max (bf_init_vec VECTOR_WIDTH index0 st d1) a,
   bf_index_buffer (bf_init_vec VECTOR_WIDTH index0 st d1) a)
  = if (d1 <=? a) && (a <? d1 + fsize)
    then (neg_infinity, wrap_signed 32 index0)
    else (bf_max st a, bf_index_buffer st a).
Proof.
  unfold bf_init_vec, store, broadcast. cbn [bf_max bf_index_buffer].
  destruct ((d1 <=? a) && (a <? d1 + fsize)); reflexivity.
Qed.

Lemma bf_init_tail_lane out index0 st d1 a :
  (bf_max (bf_init_tail out index0 st d1) a,
   bf_ind (bf_init_tail out index0 st d1) (out + a))
  = if a =? d1 then (neg_infinity, index0)
    else (bf_max st a, bf_ind st (out + a)).
Proof.
  unfold bf_init_tail, upd. cbn [bf_max bf_ind].
  destruct (Z.eqb_spec a d1), (Z.eqb_spec (out + a) (out + d1));
    try reflexivity; lia.
Qed.

Lemma bf_max_vec_lane in_ index st d2 a :
  (bf_max (bf_max_vec VECTOR_WIDTH input_data in_ index st d2) a,
   bf_index_buffer (bf_max_vec VECTOR_WIDTH input_data in_ index st d2) a)
  = if (d2 <=? a) && (a <? d2 + bsize)
    then lane_step (input_data (in_ + a)) (wrap_signed 32 index)
                   (bf_max st a, bf_index_buffer st a)
    else (bf_max st a, bf_index_buffer st a).
Proof.
  unfold bf_max_vec, convert_bfloat16_float, to_float, store, blendv, vec_cast,
    vec_or, vec_gt, vec_isnan, loadu, broadcast, lane_step.
  cbn [bf_max bf_index_buffer fst snd].
  rewrite Hb.
  destruct (Z.leb_spec d2 a), (Z.ltb_spec a (d2 + 2 * fsize)),
    (Z.leb_spec (d2 + fsize) a), (Z.ltb_spec a (d2 + fsize + fsize)),
    (Z.ltb_spec a (d2 + fsize));
    cbn [andb]; try reflexivity; try lia.
  - replace (in_ + d2 + (fsize + (a - (d2 + fsize)))) with (in_ + a) by lia.
    replace (d2 + fsize + (a - (d2 + fsize))) with a by lia.
    destruct (gt (input_data (in_ + a)) (bf_max st a) || isnan (input_data (in_ + a)));
      reflexivity.
  - replace (in_ + d2 + (a - d2)) with (in_ + a) by lia.
    replace (d2 + (a - d2)) with a by lia.
    destruct (gt (input_data (in_ + a)) (bf_max st a) || isnan (input_data (in_ + a)));
      reflexivity.
Qed.

Lemma bf_max_tail_lane out in_ index st d2 a :
  (bf_max (bf_max_tail input_data out in_ index st d2) a,
   bf_ind (bf_max_tail input_data out in_ index st d2) (out + a))
  = if a =? d2
    then lane_step (input_data (in_ + a)) index (bf_max st a, bf_ind st (out + a))
    else (bf_max st a, bf_ind st (out + a)).
Proof.
  unfold bf_max_tail, to_float, upd, lane_step. cbn [bf_max bf_ind fst snd].
  destruct (Z.eqb_spec a d2) as [->|Hne].
  - rewrite Z.eqb_refl.
    destruct (gt (input_data (in_ + d2)) (bf_max st d2)
              || isnan (input_data (in_ + d2))); reflexivity.
  - destruct (Z.eqb_spec (out + a) (out + d2)); [lia | reflexivity].
Qed.

Lemma bf_store_vec_lane out st d3 a :
  (bf_out (bf_store_vec VECTOR_WIDTH out st d3) (out + a),
   bf_max (bf_store_vec VECTOR_WIDTH out st d3) a)
  = if (d3 <=? a) && (a <? d3 + bsize)
    then (round_to BFloat16 (bf_max st a), bf_max st a)
    else (bf_out st (out + a), bf_max st a).
Proof.
  unfold bf_store_vec, convert_float_bfloat16, store, loadu.
  cbn [bf_out bf_max].
  destruct (Z.leb_spec d3 a), (Z.ltb_spec a (d3 + bsize)),
    (Z.leb_spec (out + d3) (out + a)), (Z.ltb_spec (out + a) (out + d3 + bsize));
    cbn [andb]; try reflexivity; try lia.
  replace (out + a - (out + d3)) with (a - d3) by lia.
  destruct (Z.ltb_spec (a - d3) fsize).
  - replace (d3 + (a - d3)) with a by lia. reflexivity.
  - replace (d3 + fsize + (a - d3 - fsize)) with a by lia. reflexivity.
Qed.

Lemma bf_store_tail_lane out st d3 a :
  (bf_out (bf_store_tail out st d3) (out + a),
   bf_max (bf_store_tail out st d3) a)
  = if a =? d3
    then (round_to BFloat16 (bf_max st a), bf_max st a)
    else (bf_out st (out + a), bf_max st a).
Proof.
  unfold bf_store_tail, upd. cbn [bf_out bf_max].
  destruct (Z.eqb_spec a d3) as [->|Hne].
  - rewrite Z.eqb_refl. reflexivity.
  - destruct (Z.eqb_spec (out + a) (out + d3)); [lia | reflexivity].
Qed.

Lemma bf_init_lanes out index0 st :
  wrap_signed 32 index0 = index0 ->
  let st' := fold_left (bf_init_tail out index0)
                       (irange (strided_end 0 len fsize) C)
                       (fold_left (bf_init_vec VECTOR_WIDTH index0)
                                  (strided 0 len fsize) st) in
  (forall a, 0 <= a < C -> bf_lane len out st' a = (neg_infinity, index0)) /\
  (forall a, ~ len <= a < C -> bf_ind st' (out + a) = bf_ind st (out + a)) /\
  bf_out st' = bf_out st.
Proof.
  intros Hw.
  destruct bf_len_spec as (_ & Hlen & Hbound).
  cbv zeta. split; [|split].
  3: { apply row_pass_unchanged; reflexivity. }
  all: rewrite Hlen;
    destruct (row_pass bf_max bf_index_buffer
                       (fun st a => bf_ind st (out + a))
                       (bf_init_vec VECTOR_WIDTH index0)
                       (bf_init_tail out index0)
                       (fun _ _ => (neg_infinity, wrap_signed 32 index0))
                       (fun _ _ => (neg_infinity, index0))
                       fsize C (2 * Z.to_nat (C / bsize)) Hf ltac:(lia)
                       (bf_init_vec_lane index0)
                       ltac:(reflexivity)
                       (bf_init_tail_lane out index0)
                       ltac:(reflexivity) st)
      as (R1 & R2 & R3); cbv zeta in *.
  - intros a Ha. unfold bf_lane. rewrite (R1 a Ha), Hw.
    now destruct (a <? _).
  - exact R3.
Qed.

Lemma bf_pixel_lanes out n ih iw st :
  wrap_signed 32 (ih * W + iw) = ih * W + iw ->
  let st' := bf_pixel VECTOR_WIDTH input_data C H W out n ih st iw in
  (forall a, 0 <= a < C ->
     bf_lane len out st' a
     = max_step (channel_plane input_data C H W n a) W ih (bf_lane len out st a) iw) /\
  (forall a, ~ len <= a < C -> bf_ind st' (out + a) = bf_ind st (out + a)) /\
  bf_out st' = bf_out st.
Proof.
  intros Hw. unfold bf_pixel.
  set (in_ := n * H * W * C + ih * W * C + iw * C).
  set (index := ih * W + iw) in *.
  destruct bf_len_spec as (Hlen & _ & Hbound).
  cbv zeta. split; [|split].
  3: { apply row_pass_unchanged; reflexivity. }
  all: rewrite Hlen;
    destruct (row_pass bf_max bf_index_buffer
                (fun st a => bf_ind st (out + a))
                (bf_max_vec VECTOR_WIDTH input_data in_ index)
                (bf_max_tail input_data out in_ index)
                (fun a => lane_step (input_data (in_ + a)) (wrap_signed 32 index))
                (fun a => lane_step (input_data (in_ + a)) index)
                bsize C (Z.to_nat (C / bsize)) ltac:(lia) ltac:(lia)
                (bf_max_vec_lane in_ index)
                ltac:(reflexivity)
                (bf_max_tail_lane out in_ index)
                ltac:(reflexivity) st)
      as (R1 & R2 & R3); cbv zeta in *.
  - intros a Ha. unfold bf_lane. rewrite (R1 a Ha), Hw.
    assert (Hin : channel_plane input_data C H W n a index = input_data (in_ + a)).
    { unfold channel_plane, in_, index. f_equal. ring. }
    unfold max_step. fold index. rewrite Hin.
    now destruct (a <? _).
  - exact R3.
Qed.

(** Pass III: every channel of the row receives its running maximum,
    rounded to [BFloat16]. *)
Lemma bf_store_lanes out st :
  let st' := fold_left (bf_store_tail out)
                       (irange (strided_end 0 len bsize) C)
                       (fold_left (bf_store_vec VECTOR_WIDTH out)
                                  (strided 0 len bsize) st) in
  (forall a, 0 <= a < C ->
     bf_out st' (out + a) = round_to BFloat16 (bf_max st a)) /\
  (forall a, ~ 0 <= a < C -> bf_out st' (out + a) = bf_out st (out + a)) /\
  bf_ind st' = bf_ind st /\ bf_index_buffer st' = bf_index_buffer st.
Proof.
  destruct bf_len_spec as (Hlen & _ & Hbound).
  cbv zeta. split; [|split; [|split]].
  3: { apply row_pass_unchanged; reflexivity. }
  3: { apply row_pass_unchanged; reflexivity. }
  all: rewrite Hlen in *;
    destruct (strided_whole (Z.to_nat (C / bsize)) bsize ltac:(lia)) as [Hs He];
    rewrite Hs, He;
    set (q := Z.to_nat (C / bsize)) in *;
    set (st1 := fold_left (bf_store_vec VECTOR_WIDTH out) _ st);
    set (st2 := fold_left (bf_store_tail out) _ st1);
    pose proof (fun a =>
      fold_chunks (fun st a => (bf_out st (out + a), bf_max st a))
                  (bf_store_vec VECTOR_WIDTH out)
                  (fun _ x => (round_to BFloat16 (snd x), snd x))
                  bsize ltac:(lia) (bf_store_vec_lane out) q st a) as H1;
    pose proof (fun a =>
      fold_points (fun st a => (bf_out st (out + a), bf_max st a))
                  (bf_store_tail out)
                  (fun _ x => (round_to BFloat16 (snd x), snd x))
                  (bf_store_tail_lane out)
                  (Z.to_nat (C - Z.of_nat q * bsize)) (Z.of_nat q * bsize) C st1 a
                  eq_refl) as H2;
    fold st1 in H1; fold st2 in H2; cbn [snd] in H1, H2;
    intros a Ha; specialize (H1 a); specialize (H2 a);
    destruct (Z.leb_spec (Z.of_nat q * bsize) a), (Z.ltb_spec a C),
      (Z.leb_spec 0 a), (Z.ltb_spec a (Z.of_nat q * bsize));
      cbn [andb] in *; try lia; congruence.
Qed.

(** What one output position leaves in [out] and [ind]: for each channel,
    the value found by the scan of that channel's window, rounded to
    [BFloat16], and the index found; nothing outside the row changes. *)
Lemma bf_position_lanes OH OW st i n oh ow :
  1 <= H -> 1 <= W -> 0 <= oh < OH -> 0 <= ow < OW ->
  H * W <= 2 ^ 31 - 1 ->
  let st' := bf_position VECTOR_WIDTH input_data C H W OH OW st i n oh ow in
  let m := fun d =>
    local_max (channel_plane input_data C H W n d) W
              (start_index oh OH H) (end_index oh OH H)
              (start_index ow OW W) (end_index ow OW W) in
  (forall d, 0 <= d < C ->
     (bf_out st' (i * C + d), bf_ind st' (i * C + d))
     = (round_to BFloat16 (fst (m d)), snd (m d))) /\
  (forall a, ~ 0 <= a < C ->
     bf_out st' (i * C + a) = bf_out st (i * C + a) /\
     bf_ind st' (i * C + a) = bf_ind st (i * C + a)).
Proof.
  intros HH HW Hoh How Hfit.
  destruct (window_bounds oh OH H ltac:(lia) HH Hoh) as (Hh0 & Hh1 & Hh2).
  destruct (window_bounds ow OW W ltac:(lia) HW How) as (Hw0 & Hw1 & Hw2).
  destruct bf_len_spec as (_ & _ & Hlen).
  unfold bf_position.
  set (ih0 := start_index oh OH H) in *. set (ih1 := end_index oh OH H) in *.
  set (iw0 := start_index ow OW W) in *. set (iw1 := end_index ow OW W) in *.
  set (out := i * C). set (index0 := ih0 * W + iw0).
  assert (Hsmall : forall ih iw, ih0 <= ih < ih1 -> iw0 <= iw < iw1 ->
                     wrap_signed 32 (ih * W + iw) = ih * W + iw).
  { intros ih iw Hih Hiw. apply wrap_signed_32_small. nia. }
  destruct (bf_init_lanes out index0 st (Hsmall ih0 iw0 ltac:(lia) ltac:(lia)))
    as (I1 & I2 & I3).
  set (st1 := fold_left (bf_init_tail out index0) _ _) in *.
  set (R := fun (s : bf_state) (S : Z -> spec_float * Z) =>
              (forall a, 0 <= a < C -> bf_lane len out s a = S a) /\
              (forall a, ~ len <= a < C -> bf_ind s (out + a) = bf_ind st (out + a)) /\
              bf_out s = bf_out st).
  set (p := channel_plane input_data C H W n).
  assert (Hloop :
    R (fold_left
         (fun s ih =>
            fold_left (bf_pixel VECTOR_WIDTH input_data C H W out n ih)
                      (irange iw0 iw1) s)
         (irange ih0 ih1) st1)
      (fold_left
         (fun S ih =>
            fold_left (fun S iw a => max_step (p a) W ih (S a) iw)
                      (irange iw0 iw1) S)
         (irange ih0 ih1) (fun _ => (neg_infinity, index0)))).
  { apply fold_left_rel2.
    - intros s S ih Hih HR. apply In_irange in Hih.
      apply fold_left_rel2; [|exact HR].
      intros s' S' iw Hiw (A1 & A2 & A3). apply In_irange in Hiw.
      destruct (bf_pixel_lanes out n ih iw s' (Hsmall ih iw Hih Hiw))
        as (P1 & P2 & P3).
      split; [|split].
      + intros a Ha. rewrite (P1 a Ha), (A1 a Ha). reflexivity.
      + intros a Ha. rewrite (P2 a Ha). auto.
      + congruence.
    - split; [|split]; auto. }
  destruct Hloop as (L1 & L2 & L3).
  set (st2 := fold_left _ (irange ih0 ih1) st1) in *.
  assert (Hlanes : forall d, 0 <= d < C ->
            bf_lane len out st2 d = local_max (p d) W ih0 ih1 iw0 iw1).
  { intros d Hd. rewrite (L1 d Hd). unfold local_max.
    rewrite (fold_left_pointwise
               (fun S ih => fold_left (fun S iw a => max_step (p a) W ih (S a) iw)
                                      (irange iw0 iw1) S)
               (fun a s ih => fold_left (max_step (p a) W ih) (irange iw0 iw1) s)).
    - reflexivity.
    - intros S ih a.
      apply (fold_left_pointwise
               (fun S iw a => max_step (p a) W ih (S a) iw)
               (fun a s iw => max_step (p a) W ih s iw)).
      reflexivity. }
  destruct (bf_store_lanes out st2) as (S1 & S2 & S3 & S4).
  set (st3 := fold_left (bf_store_tail out) _ _) in *.
  cbv zeta. cbn [bf_out bf_ind].
  assert (Hconv : forall a,
            convert (bf_index_buffer st3) (bf_ind st3) out len (out + a)
            = if (0 <=? a) && (a <? len) then bf_index_buffer st3 a
              else bf_ind st3 (out + a)).
  { intros a. unfold convert.
    apply (fold_points (fun (dst : buffer Z) a => dst (out + a))
                       (fun dst k => upd dst (out + k) (bf_index_buffer st3 k))
                       (fun a _ => bf_index_buffer st3 a)) with (n := Z.to_nat (len - 0));
      [|reflexivity].
    intros dst d a'. unfold upd.
    destruct (Z.eqb_spec a' d), (Z.eqb_spec (out + a') (out + d));
      try reflexivity; try lia. now subst. }
  split.
  - intros d Hd. rewrite Hconv, (S1 d Hd), S3, S4.
    pose proof (Hlanes d Hd) as Hl. unfold bf_lane in Hl. rewrite <- Hl.
    cbn [fst snd].
    destruct (Z.leb_spec 0 d); [|lia]. cbn [andb]. reflexivity.
  - intros a Ha. rewrite Hconv, (S2 a Ha), S3, S4, L3. split; [reflexivity|].
    destruct (Z.leb_spec 0 a), (Z.ltb_spec a len); cbn [andb]; try lia;
      apply L2; lia.
Qed.

Lemma bf_position_frame OH OW st i n oh ow x :
  1 <= H -> 1 <= W -> 0 <= oh < OH -> 0 <= ow < OW ->
  H * W <= 2 ^ 31 - 1 ->
  ~ i * C <= x < i * C + C ->
  let st' := bf_position VECTOR_WIDTH input_data C H W OH OW st i n oh ow in
  bf_out st' x = bf_out st x /\ bf_ind st' x = bf_ind st x.
Proof.
  intros HH HW Hoh How Hfit Hx.
  destruct (bf_position_lanes OH OW st i n oh ow HH HW Hoh How Hfit) as [_ Hfr].
  specialize (Hfr (x - i * C) ltac:(lia)).
  replace (i * C + (x - i * C)) with x in Hfr by lia. exact Hfr.
Qed.
End ChannelsLastBFloat16Facts.

(** The worker of the [BFloat16] kernel on the sub-range [lo, hi). *)
Lemma bf_worker_rows VW data C H W N OH OW lo hi st :
  0 <= C -> 0 < Vec_size VW Float -> Vec_size VW BFloat16 = 2 * Vec_size VW Float ->
  0 < N -> 0 < OH -> 0 < OW -> 1 <= H -> 1 <= W ->
  H * W <= 2 ^ 31 - 1 ->
  0 <= lo -> lo < hi ->
  let st' := bf_worker VW data C H W N OH OW lo hi st in
  let m := fun i d =>
    local_max
      (channel_plane data C H W (fst (fst (position_coords N OH OW i))) d) W
      (start_index (snd (fst (position_coords N OH OW i))) OH H)
      (end_index (snd (fst (position_coords N OH OW i))) OH H)
      (start_index (snd (position_coords N OH OW i)) OW W)
      (end_index (snd (position_coords N OH OW i)) OW W) in
  (forall i d, lo <= i < hi -> 0 <= d < C ->
     (fst st' (i * C + d), snd st' (i * C + d))
     = (round_to BFloat16 (fst (m i d)), snd (m i d))) /\
  (forall x, ~ lo * C <= x < hi * C ->
     fst st' x = fst st x /\ snd st' x = snd st x).
Proof.
  intros HC Hf Hb HN HOH HOW HH HW Hfit Hlo Hhi. cbv zeta.
  unfold bf_worker. cbn [fst snd].
  rewrite data_index_init_coords by lia.
  pose proof (worker_loop bf_out bf_ind
                (bf_position VW data C H W OH OW)
                (fun n oh ow d =>
                   (round_to BFloat16
                      (fst (local_max (channel_plane data C H W n d) W
                              (start_index oh OH H) (end_index oh OH H)
                              (start_index ow OW W) (end_index ow OW W))),
                    snd (local_max (channel_plane data C H W n d) W
                              (start_index oh OH H) (end_index oh OH H)
                              (start_index ow OW W) (end_index ow OW W))))
                C N OH OW HC HN HOH HOW) as Hloop.
  specialize (Hloop
    (fun s i n' oh' ow' _ Hoh' How' =>
       conj (proj1 (bf_position_lanes VW data C H W HC Hf Hb
                      OH OW s i n' oh' ow' HH HW Hoh' How' Hfit))
            (fun x Hx => bf_position_frame VW data C H W HC Hf Hb
                           OH OW s i n' oh' ow' x HH HW Hoh' How' Hfit Hx))
    (mkBf (fst st) (snd st) (fun _ => 0) (fun _ => S754_zero false))
    lo (Z.to_nat (hi - lo)) Hlo).
  change (bf_worker_step VW data C H W N OH OW)
    with (worker_step (bf_position VW data C H W OH OW) N OH OW).
  cbv zeta in Hloop. rewrite Z2Nat.id in Hloop by lia.
  replace (lo + (hi - lo)) with hi in Hloop by lia.
  destruct Hloop as (_ & Hrows & Hframe). split; assumption.
Qed.

(** The [BFloat16] kernel on a 4D input: it returns, and cell
    [(n, c, oh, ow)] of its two tensors holds the value found by the scan of
    the window of channel [c], rounded to [BFloat16], and the index as
    found. *)
Lemma channels_last_bfloat16_cell pool VW out0 ind0 data
    N C H W OH OW n c oh ow :
  fair pool ->
  0 < Vec_size VW Float -> Vec_size VW BFloat16 = 2 * Vec_size VW Float ->
  1 <= H -> 1 <= W -> H * W <= 2 ^ 31 - 1 ->
  0 <= n < N -> 0 <= c < C -> 0 <= oh < OH -> 0 <= ow < OW ->
  let m := local_max (channel_plane data C H W n c) W
                     (start_index oh OH H) (end_index oh OH H)
                     (start_index ow OW W) (end_index ow OW W) in
  exists out ind,
    cpu_adaptive_max_pool_channels_last_BFloat16 pool VW out0 ind0
      (mkTensor BFloat16 [N; C; H; W] ChannelsLast data) [OH; OW] = Ok (out, ind) /\
    data_ptr out (offset_nhwc C OH OW n c oh ow) = round_to BFloat16 (fst m) /\
    long_data_ptr ind (offset_nhwc C OH OW n c oh ow) = snd m.
Proof.
  intros Hfair Hf Hb HH HW Hfit Hn Hc Hoh How. cbv zeta.
  unfold cpu_adaptive_max_pool_channels_last_BFloat16, ndimension, size.
  cbn [sizes data_ptr length nth].
  change (negb (Z.of_nat 4 =? 4)) with false. cbv iota.
  destruct (dim_of_4d N C H W) as (E0 & E1 & E2 & E3 & _ & _).
  rewrite E0, E1, E2, E3.
  destruct (Z.leb_spec (H * W) (2 ^ 31 - 1)); [|lia].
  cbn [negb]. eexists _, _. split; [reflexivity|].
  cbn [set_data set_long_data data_ptr long_data_ptr].
  unfold parallel_for.
  pose proof (position_index_range N OH OW n oh ow Hn Hoh How) as Hidx.
  destruct (workers_fill_rows
              (bf_worker VW data C H W N OH OW)
              (fun i d =>
                 (round_to BFloat16
                    (fst (local_max
                            (channel_plane data C H W
                               (fst (fst (position_coords N OH OW i))) d) W
                            (start_index (snd (fst (position_coords N OH OW i))) OH H)
                            (end_index (snd (fst (position_coords N OH OW i))) OH H)
                            (start_index (snd (position_coords N OH OW i)) OW W)
                            (end_index (snd (position_coords N OH OW i)) OW W))),
                  snd (local_max
                         (channel_plane data C H W
                            (fst (fst (position_coords N OH OW i))) d) W
                         (start_index (snd (fst (position_coords N OH OW i))) OH H)
                         (end_index (snd (fst (position_coords N OH OW i))) OH H)
                         (start_index (snd (position_coords N OH OW i)) OW W)
                         (end_index (snd (position_coords N OH OW i)) OW W))))
              C ltac:(lia)
              (fun lo hi st Hlo Hhi =>
                 bf_worker_rows VW data C H W N OH OW lo hi st
                   ltac:(lia) Hf Hb ltac:(lia) ltac:(lia) ltac:(lia) HH HW Hfit Hlo Hhi)
              (pool 0 (N * OH * OW)) 0 (N * OH * OW)
              (data_ptr out0, long_data_ptr ind0) ltac:(lia) (Hfair _ _))
    as [Hrows _].
  specialize (Hrows ((n * OH + oh) * OW + ow) c Hidx Hc).
  rewrite position_coords_offset in Hrows by lia. cbn [fst snd] in Hrows.
  unfold offset_nhwc. split; congruence.
Qed.

(* ================================================================== *)
(** * Both forward kernels on a 4D input *)
(* ================================================================== *)

Lemma Vec_size_lanes VW :
  0 < VW -> (8 | VW) ->
  0 < Vec_size VW Double /\ 0 < Vec_size VW Float /\
  Vec_size VW BFloat16 = 2 * Vec_size VW Float.
Proof.
  intros Hpos [k ->]. unfold Vec_size, sizeof.
  rewrite !Z.quot_div_nonneg by lia.
  assert (E8 : k * 8 / 8 = k) by (apply Z.div_mul; lia).
  assert (E4 : k * 8 / 4 = 2 * k).
  { replace (k * 8) with (2 * k * 4) by ring. apply Z.div_mul. lia. }
  assert (E2 : k * 8 / 2 = 4 * k).
  { replace (k * 8) with (4 * k * 2) by ring. apply Z.div_mul. lia. }
  rewrite E8, E4, E2. lia.
Qed.

(** The contiguous kernel on a 4D input: cell [(n, c, oh, ow)] holds the
    value found by the scan of its window, and the index found by the scan
    after its round trip through the element type. *)
Lemma contiguous_forward_cell pool scalar_t out0 ind0 data N C H W OH OW n c oh ow :
  fair pool ->
  0 <= n < N -> 0 <= c < C -> 0 <= oh < OH -> 0 <= ow < OW ->
  let r := cpu_adaptive_max_pool pool scalar_t out0 ind0
             (mkTensor scalar_t [N; C; H; W] Contiguous data) [OH; OW] in
  let m := local_max (shift data (offset_nchw C H W n c 0 0)) W
                     (start_index oh OH H) (end_index oh OH H)
                     (start_index ow OW W) (end_index ow OW W) in
  data_ptr (fst r) (offset_nchw C OH OW n c oh ow) = acc_to_scalar scalar_t (fst m) /\
  long_data_ptr (snd r) (offset_nchw C OH OW n c oh ow)
  = index_through_scalar scalar_t (snd m).
Proof.
  intros Hfair Hn Hc Hoh How. cbv zeta.
  unfold cpu_adaptive_max_pool, ndimension, size.
  cbn [sizes data_ptr length nth fst snd set_data set_long_data long_data_ptr].
  change (Z.of_nat 4 =? 3) with false. cbv iota.
  destruct (dim_of_4d N C H W) as (E0 & E1 & _ & _ & E4 & E5).
  rewrite E0, E1, E4, E5.
  rewrite parallel_for_ranges by assumption.
  assert (Hp : 0 <= n * C + c < N * C).
  { assert (0 <= n * C) by (apply Z.mul_nonneg_nonneg; lia).
    assert ((n + 1) * C <= N * C) by (apply Z.mul_le_mono_nonneg_r; lia). lia. }
  replace (offset_nchw C OH OW n c oh ow)
    with ((n * C + c) * OH * OW + (oh * OW + ow)) by (unfold offset_nchw; ring).
  replace (offset_nchw C H W n c 0 0) with ((n * C + c) * H * W)
    by (unfold offset_nchw; ring).
  apply (pool_planes_cell scalar_t data H W OH OW (N * C)
           (data_ptr out0, long_data_ptr ind0) (n * C + c) oh ow Hp Hoh How).
Qed.

(** The channels-last kernel selected for the element type, on a 4D input:
    cell [(n, c, oh, ow)] holds the value and the index found by the scan of
    its window. *)
Lemma channels_last_forward_cell pool scalar_t VW out0 ind0 data N C H W OH OW n c oh ow :
  fair pool -> 0 < VW -> (8 | VW) ->
  1 <= H -> 1 <= W -> H * W <= integer_t_max scalar_t ->
  0 <= n < N -> 0 <= c < C -> 0 <= oh < OH -> 0 <= ow < OW ->
  let m := local_max (channel_plane data C H W n c) W
                     (start_index oh OH H) (end_index oh OH H)
                     (start_index ow OW W) (end_index ow OW W) in
  exists out ind,
    channels_last_instance pool scalar_t VW out0 ind0
      (mkTensor scalar_t [N; C; H; W] ChannelsLast data) [OH; OW] = Ok (out, ind) /\
    data_ptr out (offset_nhwc C OH OW n c oh ow) = acc_to_scalar scalar_t (fst m) /\
    long_data_ptr ind (offset_nhwc C OH OW n c oh ow) = snd m.
Proof.
  intros Hfair HVW Hdiv HH HW Hfit Hn Hc Hoh How. cbv zeta.
  destruct (Vec_size_lanes VW HVW Hdiv) as (Hd & Hf & Hb).
  destruct scalar_t; unfold channels_last_instance, acc_to_scalar.
  - destruct (channels_last_generic_cell pool Float VW out0 ind0 data
                N C H W OH OW n c oh ow Hfair Hf HH HW Hfit Hn Hc Hoh How)
      as (out & ind & Hok & Hcell).
    exists out, ind. split; [exact Hok|]. rewrite <- Hcell. split; reflexivity.
  - destruct (channels_last_generic_cell pool Double VW out0 ind0 data
                N C H W OH OW n c oh ow Hfair Hd HH HW Hfit Hn Hc Hoh How)
      as (out & ind & Hok & Hcell).
    exists out, ind. split; [exact Hok|]. rewrite <- Hcell. split; reflexivity.
  - apply (channels_last_bfloat16_cell pool VW out0 ind0 data
             N C H W OH OW n c oh ow Hfair Hf Hb HH HW Hfit Hn Hc Hoh How).
Qed.

(** Two planes that agree on a list of positions are scanned alike. *)
Lemma scan_ext p p' l init :
  (forall k, In k l -> p k = p' k) -> scan p l init = scan p' l init.
Proof.
  intros Hagree. unfold scan. apply fold_left_ext_in.
  intros st k Hk. unfold scan_step. now rewrite (Hagree k Hk).
Qed.

Lemma to_channels_last_offset C H W data n c h w :
  0 <= c < C -> 0 <= h < H -> 0 <= w < W ->
  to_channels_last C H W data (offset_nhwc C H W n c h w)
  = data (offset_nchw C H W n c h w).
Proof.
  intros Hc Hh Hw. unfold to_channels_last, offset_nhwc.
  assert (E1 : (((n * H + h) * W + w) * C + c) mod C = c).
  { symmetry. apply (Z.mod_unique _ C ((n * H + h) * W + w) c); [left; lia | ring]. }
  assert (E2 : (((n * H + h) * W + w) * C + c) / C = (n * H + h) * W + w).
  { symmetry. apply (Z.div_unique _ C _ c); [left; lia | ring]. }
  assert (E3 : ((n * H + h) * W + w) mod W = w).
  { symmetry. apply (Z.mod_unique _ W (n * H + h) w); [left; lia | ring]. }
  assert (E4 : ((n * H + h) * W + w) / W = n * H + h).
  { symmetry. apply (Z.div_unique _ W _ w); [left; lia | ring]. }
  assert (E5 : (n * H + h) mod H = h).
  { symmetry. apply (Z.mod_unique _ H n h); [left; lia | ring]. }
  assert (E6 : (n * H + h) / H = n).
  { symmetry. apply (Z.div_unique _ H _ h); [left; lia | ring]. }
  cbv zeta. rewrite E1, E2, E3, E4, E5, E6. reflexivity.
Qed.

(** The window of a cell of the permuted input holds the same elements as
    the window of that cell of the row-major input. *)
Lemma local_max_layouts data C H W OH OW n c oh ow :
  1 <= H -> 1 <= W -> 0 <= c < C -> 0 <= oh < OH -> 0 <= ow < OW ->
  local_max (channel_plane (to_channels_last C H W data) C H W n c) W
            (start_index oh OH H) (end_index oh OH H)
            (start_index ow OW W) (end_index ow OW W)
  = local_max (shift data (offset_nchw C H W n c 0 0)) W
              (start_index oh OH H) (end_index oh OH H)
              (start_index ow OW W) (end_index ow OW W).
Proof.
  intros HH HW Hc Hoh How. rewrite !local_max_scan. apply scan_ext.
  intros k Hk.
  destruct (cell_window_in_plane H W OH OW oh ow k HH HW Hoh How Hk)
    as (ih & iw & Hih & Hiw & -> & _).
  unfold channel_plane, shift.
  replace (n * H * W * C + (ih * W + iw) * C + c)
    with (offset_nhwc C H W n c ih iw) by (unfold offset_nhwc; ring).
  rewrite to_channels_last_offset by assumption.
  f_equal. unfold offset_nchw. ring.
Qed.

(** P5, as the code has it: on the same 4D input in the two layouts, the
    kernels store the same output value in every cell, and the index stored
    by the contiguous kernel is the index stored by the channels-last kernel
    after a round trip through the element type. *)
Lemma forward_layouts_related pool pool' scalar_t VW out0 ind0 out0' ind0' data
    N C H W OH OW n c oh ow :
  fair pool -> fair pool' -> 0 < VW -> (8 | VW) ->
  1 <= H -> 1 <= W -> H * W <= integer_t_max scalar_t ->
  0 <= n < N -> 0 <= c < C -> 0 <= oh < OH -> 0 <= ow < OW ->
  let contiguous :=
    cpu_adaptive_max_pool pool scalar_t out0 ind0
      (mkTensor scalar_t [N; C; H; W] Contiguous data) [OH; OW] in
  exists out ind,
    channels_last_instance pool' scalar_t VW out0' ind0'
      (mkTensor scalar_t [N; C; H; W] ChannelsLast (to_channels_last C H W data))
      [OH; OW] = Ok (out, ind) /\
    data_ptr (fst contiguous) (offset_nchw C OH OW n c oh ow)
    = data_ptr out (offset_nhwc C OH OW n c oh ow) /\
    long_data_ptr (snd contiguous) (offset_nchw C OH OW n c oh ow)
    = index_through_scalar scalar_t
        (long_data_ptr ind (offset_nhwc C OH OW n c oh ow)).
Proof.
  intros Hfair Hfair' HVW Hdiv HH HW Hfit Hn Hc Hoh How. cbv zeta.
  destruct (channels_last_forward_cell pool' scalar_t VW out0' ind0'
              (to_channels_last C H W data) N C H W OH OW n c oh ow
              Hfair' HVW Hdiv HH HW Hfit Hn Hc Hoh How)
    as (out & ind & Hok & Hval & Hidx).
  destruct (contiguous_forward_cell pool scalar_t out0 ind0 data
              N C H W OH OW n c oh ow Hfair Hn Hc Hoh How) as (Cval & Cidx).
  rewrite (local_max_layouts data C H W OH OW n c oh ow HH HW Hc Hoh How)
    in Hval, Hidx.
  exists out, ind. split; [exact Hok|]. split; congruence.
Qed.

(* ================================================================== *)
(** * When the index survives the round trip through the element type *)
(* ================================================================== *)

Lemma digits2_pos_bounds m :
  2 ^ (Zpos (digits2_pos m) - 1) <= Zpos m < 2 ^ Zpos (digits2_pos m).
Proof.
  induction m as [m IH | m IH |]; cbn [digits2_pos].
  - rewrite Pos2Z.inj_succ.
    replace (Z.succ (Zpos (digits2_pos m)) - 1) with (Z.succ (Zpos (digits2_pos m) - 1)) by lia.
    rewrite !Z.pow_succ_r by lia. lia.
  - rewrite Pos2Z.inj_succ.
    replace (Z.succ (Zpos (digits2_pos m)) - 1) with (Z.succ (Zpos (digits2_pos m) - 1)) by lia.
    rewrite !Z.pow_succ_r by lia. lia.
  - simpl. lia.
Qed.

Lemma iter_xO_digits m p :
  digits2_pos (Pos.iter xO m p) = (digits2_pos m + p)%positive.
Proof.
  induction p as [|p IH] using Pos.peano_ind.
  - simpl. lia.
  - rewrite Pos.iter_succ. cbn [digits2_pos]. rewrite IH. lia.
Qed.

Lemma iter_xO_value m p : Zpos (Pos.iter xO m p) = Zpos m * 2 ^ Zpos p.
Proof.
  induction p as [|p IH] using Pos.peano_ind.
  - simpl. lia.
  - rewrite Pos.iter_succ, Pos2Z.inj_xO, IH, Pos2Z.inj_succ, Z.pow_succ_r by lia. ring.
Qed.

Lemma int64_to_exact_at prec emax m :
  0 < prec -> prec < emax ->
  Zpos m < 2 ^ prec ->
  to_int64 (binary_normalize prec emax (Zpos m) 0 false) = Zpos m.
Proof.
  intros Hprec Hemax Hm.
  pose proof (digits2_pos_bounds m) as Hd.
  assert (Hdp : Zpos (digits2_pos m) <= prec).
  { destruct (Z.le_gt_cases (Zpos (digits2_pos m)) prec); [assumption|].
    assert (2 ^ prec <= 2 ^ (Zpos (digits2_pos m) - 1))
      by (apply Z.pow_le_mono_r; lia).
    lia. }
  unfold binary_normalize, binary_round.
  set (d := digits2_pos m) in *.
  assert (Hfexp : forall x e, x + e = Zpos d -> fexp prec emax (x + e) = Zpos d - prec).
  { intros x e ->. unfold fexp, emin. lia. }
  rewrite (Hfexp (Zpos d) 0) by lia. unfold shl_align.
  destruct (Zpos d - prec - 0) as [|p|p] eqn:Hp; try lia.
  - (* the integer has exactly [prec] digits *)
    unfold binary_round_aux, shr_fexp. cbn [Zdigits2 shr_record_of_loc].
    fold d. rewrite (Hfexp (Zpos d) 0) by lia.
    replace (Zpos d - prec - 0) with 0 by lia.
    cbn [shr shr_m loc_of_shr_record round_nearest_even Zdigits2 shr_record_of_loc].
    fold d. rewrite (Hfexp (Zpos d) 0) by lia.
    replace (Zpos d - prec - 0) with 0 by lia.
    cbn [shr shr_m].
    destruct (Z.leb_spec 0 (emax - prec)); [|lia].
    cbn [to_int64]. simpl. lia.
  - (* fewer digits: the significand is shifted left by [p] *)
    unfold binary_round_aux, shr_fexp. cbn [Zdigits2 shr_record_of_loc].
    rewrite iter_xO_digits. fold d.
    rewrite (Hfexp (Zpos (d + p)) (Zpos d - prec)) by lia.
    rewrite Z.sub_diag.
    cbn [shr shr_m loc_of_shr_record round_nearest_even Zdigits2 shr_record_of_loc].
    rewrite iter_xO_digits. fold d.
    rewrite (Hfexp (Zpos (d + p)) (Zpos d - prec)) by lia.
    rewrite Z.sub_diag.
    cbn [shr shr_m].
    destruct (Z.leb_spec (Zpos d - prec) (emax - prec)); [|lia].
    cbn [to_int64].
    destruct (Z.leb_spec 0 (Zpos d - prec)); [lia|].
    rewrite iter_xO_value.
    replace (- (Zpos d - prec)) with (Zpos p) by lia.
    apply Z.div_mul. apply Z.pow_nonzero; lia.
Qed.

Lemma index_through_scalar_bfloat16 z :
  0 <= z < 2 ^ 8 -> index_through_scalar BFloat16 z = z.
Proof.
  intros Hz.
  assert (Hall : forallb (fun z => index_through_scalar BFloat16 z =? z)
                         (irange 0 (2 ^ 8)) = true)
    by (vm_compute; reflexivity).
  rewrite forallb_forall in Hall.
  apply Z.eqb_eq, Hall, In_irange. exact Hz.
Qed.

(** An index below [2 ^ prec] is stored unchanged by the contiguous
    kernel. *)
Lemma index_through_scalar_exact t z :
  0 <= z < 2 ^ prec t -> index_through_scalar t z = z.
Proof.
  intros Hz. destruct t.
  - unfold index_through_scalar, scalar_of_int64, int64_to.
    destruct z as [|m|m]; [reflexivity| |lia].
    apply int64_to_exact_at; cbn [prec emax] in *; lia.
  - unfold index_through_scalar, scalar_of_int64, int64_to.
    destruct z as [|m|m]; [reflexivity| |lia].
    apply int64_to_exact_at; cbn [prec emax] in *; lia.
  - now apply index_through_scalar_bfloat16.
Qed.

(** Narrowing the accumulator gives back an element of the input. *)
Lemma acc_to_scalar_representable t x :
  representable t x -> acc_to_scalar t x = x.
Proof. unfold representable, acc_to_scalar. destruct t; auto. Qed.

(** The channels-last kernels meet P1 to P4 on every 4D input whose elements
    are values of the element type: the stored index [j] is a position of
    the window, the stored value is the element at [j]; if the window holds a
    NaN, [j] is the position of its last NaN; otherwise no element of the
    window is greater than the element at [j] and every element scanned
    before [j] is strictly smaller. *)
Lemma channels_last_forward_correct pool scalar_t VW out0 ind0 data
    N C H W OH OW n c oh ow :
  fair pool -> 0 < VW -> (8 | VW) ->
  1 <= H -> 1 <= W -> H * W <= integer_t_max scalar_t ->
  0 <= n < N -> 0 <= c < C -> 0 <= oh < OH -> 0 <= ow < OW ->
  let plane := channel_plane data C H W n c in
  let win := cell_window H W OH OW oh ow in
  (forall k, In k win -> representable scalar_t (plane k)) ->
  exists out ind,
    channels_last_instance pool scalar_t VW out0 ind0
      (mkTensor scalar_t [N; C; H; W] ChannelsLast data) [OH; OW] = Ok (out, ind) /\
    let v := data_ptr out (offset_nhwc C OH OW n c oh ow) in
    let j := long_data_ptr ind (offset_nhwc C OH OW n c oh ow) in
    In j win /\ 0 <= j < H * W /\ v = plane j /\
    ((exists k, In k win /\ isnan (plane k) = true) ->
     isnan v = true /\
     exists l1 l2, win = l1 ++ j :: l2 /\
                   forall k, In k l2 -> isnan (plane k) = false) /\
    ((forall k, In k win -> isnan (plane k) = false) ->
     (forall k, In k win -> gt (plane k) v = false) /\
     exists l1 l2, win = l1 ++ j :: l2 /\
                   forall k, In k l1 -> gt v (plane k) = true) /\
    ((forall k, In k win -> plane k = neg_infinity) ->
     v = neg_infinity /\
     j = start_index oh OH H * W + start_index ow OW W).
Proof.
  intros Hfair HVW Hdiv HH HW Hfit Hn Hc Hoh How plane win Hrep.
  destruct (channels_last_forward_cell pool scalar_t VW out0 ind0 data
              N C H W OH OW n c oh ow Hfair HVW Hdiv HH HW Hfit Hn Hc Hoh How)
    as (out & ind & Hok & Hval & Hidx).
  exists out, ind. split; [exact Hok|]. cbv zeta.
  destruct (window_bounds oh OH H ltac:(lia) HH Hoh) as (Hh0 & Hh1 & Hh2).
  destruct (window_bounds ow OW W ltac:(lia) HW How) as (Hw0 & Hw1 & Hw2).
  fold plane in Hval, Hidx.
  set (m := local_max plane W (start_index oh OH H) (end_index oh OH H)
                      (start_index ow OW W) (end_index ow OW W)) in *.
  assert (Hin : In (snd m) win)
    by (apply local_max_in_window; lia).
  assert (Hv : fst m = plane (snd m))
    by (apply local_max_value; lia).
  assert (Hacc : acc_to_scalar scalar_t (fst m) = fst m).
  { apply acc_to_scalar_representable. rewrite Hv. now apply Hrep. }
  rewrite Hval, Hidx, Hacc.
  split; [exact Hin|]. split.
  { destruct (cell_window_in_plane H W OH OW oh ow (snd m) HH HW Hoh How Hin)
      as (ih & iw & _ & _ & _ & Hr). exact Hr. }
  split; [exact Hv|]. split; [|split].
  - intros Hnan.
    destruct (local_max_last_nan plane W _ _ _ _ Hnan) as (l1 & l2 & Hl & Hf & Hj & Hl2).
    fold m in Hl, Hf, Hj. split; [now rewrite Hf|]. eauto.
  - intros Hno.
    destruct (local_max_first_max plane W (start_index oh OH H) (end_index oh OH H)
                (start_index ow OW W) (end_index ow OW W)
                ltac:(lia) ltac:(lia) Hno) as (l1 & l2 & Hl & _ & Hl1 & Hall).
    fold m in Hl, Hl1, Hall. split; [exact Hall|]. eauto.
  - intros Hall.
    pose proof (local_max_all_neg_infinity plane W _ _ _ _ Hall) as Hm.
    fold m in Hm. rewrite Hm. split; reflexivity.
Qed.

(** The contiguous kernel meets P1 to P4 on every 4D input whose planes have
    at most [2 ^ prec] elements, where [prec] is the precision of the
    element type: there the index survives its round trip through
    [scalar_t]. *)
Lemma contiguous_forward_correct pool scalar_t out0 ind0 data
    N C H W OH OW n c oh ow :
  fair pool ->
  1 <= H -> 1 <= W -> H * W <= 2 ^ prec scalar_t ->
  0 <= n < N -> 0 <= c < C -> 0 <= oh < OH -> 0 <= ow < OW ->
  let plane := shift data (offset_nchw C H W n c 0 0) in
  let win := cell_window H W OH OW oh ow in
  (forall k, In k win -> representable scalar_t (plane k)) ->
  let r := cpu_adaptive_max_pool pool scalar_t out0 ind0
             (mkTensor scalar_t [N; C; H; W] Contiguous data) [OH; OW] in
  let v := data_ptr (fst r) (offset_nchw C OH OW n c oh ow) in
  let j := long_data_ptr (snd r) (offset_nchw C OH OW n c oh ow) in
  In j win /\ 0 <= j < H * W /\ v = plane j /\
  ((exists k, In k win /\ isnan (plane k) = true) ->
   isnan v = true /\
   exists l1 l2, win = l1 ++ j :: l2 /\
                 forall k, In k l2 -> isnan (plane k) = false) /\
  ((forall k, In k win -> isnan (plane k) = false) ->
   (forall k, In k win -> gt (plane k) v = false) /\
   exists l1 l2, win = l1 ++ j :: l2 /\
                 forall k, In k l1 -> gt v (plane k) = true) /\
  ((forall k, In k win -> plane k = neg_infinity) ->
   v = neg_infinity /\
   j = start_index oh OH H * W + start_index ow OW W).
Proof.
  intros Hfair HH HW Hfit Hn Hc Hoh How plane win Hrep. cbv zeta.
  destruct (contiguous_forward_cell pool scalar_t out0 ind0 data
              N C H W OH OW n c oh ow Hfair Hn Hc Hoh How) as (Hval & Hidx).
  destruct (window_bounds oh OH H ltac:(lia) HH Hoh) as (Hh0 & Hh1 & Hh2).
  destruct (window_bounds ow OW W ltac:(lia) HW How) as (Hw0 & Hw1 & Hw2).
  fold plane in Hval, Hidx.
  set (m := local_max plane W (start_index oh OH H) (end_index oh OH H)
                      (start_index ow OW W) (end_index ow OW W)) in *.
  assert (Hin : In (snd m) win)
    by (apply local_max_in_window; lia).
  assert (Hv : fst m = plane (snd m))
    by (apply local_max_value; lia).
  assert (Hacc : acc_to_scalar scalar_t (fst m) = fst m).
  { apply acc_to_scalar_representable. rewrite Hv. now apply Hrep. }
  destruct (cell_window_in_plane H W OH OW oh ow (snd m) HH HW Hoh How Hin)
    as (ih & iw & _ & _ & _ & Hr).
  assert (Hexact : index_through_scalar scalar_t (snd m) = snd m)
    by (apply index_through_scalar_exact; lia).
  rewrite Hval, Hidx, Hacc, Hexact.
  split; [exact Hin|]. split; [exact Hr|].
  split; [exact Hv|]. split; [|split].
  - intros Hnan.
    destruct (local_max_last_nan plane W _ _ _ _ Hnan) as (l1 & l2 & Hl & Hf & Hj & Hl2).
    fold m in Hl, Hf, Hj. split; [now rewrite Hf|]. eauto.
  - intros Hno.
    destruct (local_max_first_max plane W (start_index oh OH H) (end_index oh OH H)
                (start_index ow OW W) (end_index ow OW W)
                ltac:(lia) ltac:(lia) Hno) as (l1 & l2 & Hl & _ & Hl1 & Hall).
    fold m in Hl, Hl1, Hall. split; [exact Hall|]. eauto.
  - intros Hall.
    pose proof (local_max_all_neg_infinity plane W _ _ _ _ Hall) as Hm.
    fold m in Hm. rewrite Hm. split; reflexivity.
Qed.
(* ================================================================== *)
(** * The index stored by the contiguous forward kernel *)
(* ================================================================== *)

(** A cell of the contiguous kernel, from the scan of its window evaluated
    on the input at hand. *)
Lemma contiguous_cell_evaluated pool scalar_t out0 ind0 data
    N C H W OH OW n c oh ow v j v' j' :
  fair pool ->
  0 <= n < N -> 0 <= c < C -> 0 <= oh < OH -> 0 <= ow < OW ->
  local_max (shift data (offset_nchw C H W n c 0 0)) W
            (start_index oh OH H) (end_index oh OH H)
            (start_index ow OW W) (end_index ow OW W) = (v, j) ->
  acc_to_scalar scalar_t v = v' ->
  index_through_scalar scalar_t j = j' ->
  let r := cpu_adaptive_max_pool pool scalar_t out0 ind0
             (mkTensor scalar_t [N; C; H; W] Contiguous data) [OH; OW] in
  data_ptr (fst r) (offset_nchw C OH OW n c oh ow) = v' /\
  long_data_ptr (snd r) (offset_nchw C OH OW n c oh ow) = j'.
Proof.
  intros Hfair Hn Hc Hoh How Hm Hv Hj.
  pose proof (contiguous_forward_cell pool scalar_t out0 ind0 data
                N C H W OH OW n c oh ow Hfair Hn Hc Hoh How) as Hcell.
  cbv zeta in Hcell |- *. rewrite Hm in Hcell. cbn [fst snd] in Hcell.
  rewrite Hv, Hj in Hcell. exact Hcell.
Qed.

(** A cell of the channels-last [BFloat16] kernel with 256-bit registers,
    from the scan of its window evaluated on the input at hand. *)
Lemma channels_last_cell_evaluated pool out0 ind0 data
    N C H W OH OW n c oh ow v j v' :
  fair pool ->
  1 <= H -> 1 <= W -> H * W <= 2 ^ 31 - 1 ->
  0 <= n < N -> 0 <= c < C -> 0 <= oh < OH -> 0 <= ow < OW ->
  local_max (channel_plane data C H W n c) W
            (start_index oh OH H) (end_index oh OH H)
            (start_index ow OW W) (end_index ow OW W) = (v, j) ->
  acc_to_scalar BFloat16 v = v' ->
  exists out ind,
    channels_last_instance pool BFloat16 32 out0 ind0
      (mkTensor BFloat16 [N; C; H; W] ChannelsLast data) [OH; OW] = Ok (out, ind) /\
    data_ptr out (offset_nhwc C OH OW n c oh ow) = v' /\
    long_data_ptr ind (offset_nhwc C OH OW n c oh ow) = j.
Proof.
  intros Hfair HH HW Hfit Hn Hc Hoh How Hm Hv.
  assert (Hdiv : (8 | 32)) by (exists 4; reflexivity).
  pose proof (channels_last_forward_cell pool BFloat16 32 out0 ind0 data
                N C H W OH OW n c oh ow Hfair ltac:(lia) Hdiv HH HW Hfit
                Hn Hc Hoh How) as Hcell.
  cbv zeta in Hcell. destruct Hcell as (out & ind & Hok & Hval & Hidx).
  rewrite Hm in Hval, Hidx. cbn [fst snd] in Hval, Hidx.
  rewrite Hv in Hval. exists out, ind. auto.
Qed.

(** C1.  Contiguous kernel under any fair pool, [BFloat16] input of
    1 x 1 x 1 x 260 whose only non-zero element is at flat index 259, one
    output cell.  The scan finds the maximum at 259; the kernel stores 260,
    the index after rounding to [BFloat16], which is outside [0, H * W); the
    stored output value is the element at 259. *)
Theorem contiguous_index_leaves_range pool (Hfair : fair pool) :
  let r := cpu_adaptive_max_pool pool BFloat16
             (fst (empty_like BFloat16 [1; 1; 1; 1]))
             (snd (empty_like BFloat16 [1; 1; 1; 1]))
             peak_at_259 [1; 1] in
  local_max (data_ptr peak_at_259) 260 0 1 0 260 = (bf_one, 259) /\
  long_data_ptr (snd r) 0 = 260 /\
  ~ (0 <= long_data_ptr (snd r) 0 < 1 * 260) /\
  data_ptr (fst r) 0 = data_ptr peak_at_259 259.
Proof.
  cbv zeta.
  pose proof (contiguous_cell_evaluated pool BFloat16
                (fst (empty_like BFloat16 [1; 1; 1; 1]))
                (snd (empty_like BFloat16 [1; 1; 1; 1]))
                (data_ptr peak_at_259) 1 1 1 260 1 1 0 0 0 0
                bf_one 259 bf_one 260 Hfair
                ltac:(lia) ltac:(lia) ltac:(lia) ltac:(lia)
                ltac:(vm_compute; reflexivity) ltac:(vm_compute; reflexivity)
                ltac:(vm_compute; reflexivity)) as Hcell.
  cbv zeta in Hcell.
  change (offset_nchw 1 1 1 0 0 0 0) with 0 in Hcell.
  change (mkTensor BFloat16 [1; 1; 1; 260] Contiguous (data_ptr peak_at_259))
    with peak_at_259 in Hcell.
  destruct Hcell as [Hval Hidx]. rewrite Hval, Hidx.
  split; [vm_compute; reflexivity|]. split; [reflexivity|].
  split; [lia | vm_compute; reflexivity].
Qed.

Lemma contiguous_index_leaves_range_witness :
  fair two_workers /\
  long_data_ptr
    (snd (cpu_adaptive_max_pool two_workers BFloat16
            (fst (empty_like BFloat16 [1; 1; 1; 1]))
            (snd (empty_like BFloat16 [1; 1; 1; 1]))
            peak_at_259 [1; 1])) 0 = 260.
Proof.
  split; [exact two_workers_fair|].
  pose proof (contiguous_index_leaves_range two_workers two_workers_fair) as H.
  cbv zeta in H. exact (proj1 (proj2 H)).
Defined.

(** C2.  The same 1 x 2 x 1 x 258 [BFloat16] input in both layouts, one
    output cell per channel, each kernel under any fair pool.  The two
    kernels agree on the output values and on the index of channel 1, and
    differ on the index of channel 0: the channels-last kernel stores 257,
    the contiguous kernel 256. *)
Theorem layouts_disagree_on_index pool pool'
    (Hfair : fair pool) (Hfair' : fair pool') :
  let contiguous :=
    cpu_adaptive_max_pool pool BFloat16
      (fst (empty_like BFloat16 [1; 2; 1; 1]))
      (snd (empty_like BFloat16 [1; 2; 1; 1]))
      two_channel_contiguous [1; 1] in
  exists channels_last,
    channels_last_instance pool' BFloat16 32
      (at_empty BFloat16 [1; 2; 1; 1] ChannelsLast)
      (at_empty_long [1; 2; 1; 1] ChannelsLast)
      two_channel_channels_last [1; 1] = Ok channels_last /\
    data_ptr (fst contiguous) (offset_nchw 2 1 1 0 0 0 0)
    = data_ptr (fst channels_last) (offset_nhwc 2 1 1 0 0 0 0) /\
    data_ptr (fst contiguous) (offset_nchw 2 1 1 0 1 0 0)
    = data_ptr (fst channels_last) (offset_nhwc 2 1 1 0 1 0 0) /\
    long_data_ptr (snd contiguous) (offset_nchw 2 1 1 0 1 0 0)
    = long_data_ptr (snd channels_last) (offset_nhwc 2 1 1 0 1 0 0) /\
    long_data_ptr (snd contiguous) (offset_nchw 2 1 1 0 0 0 0) = 256 /\
    long_data_ptr (snd channels_last) (offset_nhwc 2 1 1 0 0 0 0) = 257.
Proof.
  cbv zeta.
  pose proof (contiguous_cell_evaluated pool BFloat16
                (fst (empty_like BFloat16 [1; 2; 1; 1]))
                (snd (empty_like BFloat16 [1; 2; 1; 1]))
                two_channel_data 1 2 1 258 1 1 0 0 0 0
                bf_one 257 bf_one 256 Hfair
                ltac:(lia) ltac:(lia) ltac:(lia) ltac:(lia)
                ltac:(vm_compute; reflexivity) ltac:(vm_compute; reflexivity)
                ltac:(vm_compute; reflexivity)) as [Cv0 Ci0].
  pose proof (contiguous_cell_evaluated pool BFloat16
                (fst (empty_like BFloat16 [1; 2; 1; 1]))
                (snd (empty_like BFloat16 [1; 2; 1; 1]))
                two_channel_data 1 2 1 258 1 1 0 1 0 0
                bf_one 3 bf_one 3 Hfair
                ltac:(lia) ltac:(lia) ltac:(lia) ltac:(lia)
                ltac:(vm_compute; reflexivity) ltac:(vm_compute; reflexivity)
                ltac:(vm_compute; reflexivity)) as [Cv1 Ci1].
  destruct (channels_last_cell_evaluated pool'
              (at_empty BFloat16 [1; 2; 1; 1] ChannelsLast)
              (at_empty_long [1; 2; 1; 1] ChannelsLast)
              (to_channels_last 2 1 258 two_channel_data)
              1 2 1 258 1 1 0 0 0 0 bf_one 257 bf_one Hfair'
              ltac:(lia) ltac:(lia) ltac:(lia)
              ltac:(lia) ltac:(lia) ltac:(lia) ltac:(lia)
              ltac:(vm_compute; reflexivity) ltac:(vm_compute; reflexivity))
    as (out & ind & Hok & Lv0 & Li0).
  destruct (channels_last_cell_evaluated pool'
              (at_empty BFloat16 [1; 2; 1; 1] ChannelsLast)
              (at_empty_long [1; 2; 1; 1] ChannelsLast)
              (to_channels_last 2 1 258 two_channel_data)
              1 2 1 258 1 1 0 1 0 0 bf_one 3 bf_one Hfair'
              ltac:(lia) ltac:(lia) ltac:(lia)
              ltac:(lia) ltac:(lia) ltac:(lia) ltac:(lia)
              ltac:(vm_compute; reflexivity) ltac:(vm_compute; reflexivity))
    as (out' & ind' & Hok' & Lv1 & Li1).
  pose proof (eq_trans (eq_sym Hok) Hok') as Esame.
  injection Esame as <- <-.
  exists (out, ind). cbn [fst snd].
  split; [exact Hok|].
  change two_channel_contiguous
    with (mkTensor BFloat16 [1; 2; 1; 258] Contiguous two_channel_data).
  rewrite Cv0, Cv1, Ci0, Ci1, Lv0, Lv1, Li0, Li1.
  repeat split; reflexivity.
Qed.

Lemma layouts_disagree_on_index_witness :
  (fair two_workers /\ fair single_worker) /\
  long_data_ptr
    (snd (cpu_adaptive_max_pool two_workers BFloat16
            (fst (empty_like BFloat16 [1; 2; 1; 1]))
            (snd (empty_like BFloat16 [1; 2; 1; 1]))
            two_channel_contiguous [1; 1]))
    (offset_nchw 2 1 1 0 0 0 0) = 256.
Proof.
  split; [split; [exact two_workers_fair | exact single_worker_fair]|].
  destruct (layouts_disagree_on_index two_workers single_worker
              two_workers_fair single_worker_fair)
    as (channels_last & _ & _ & _ & _ & Hidx & _).
  exact Hidx.
Defined.

(** C3.  Contiguous kernel under any fair pool, [BFloat16] input of
    1 x 1 x 1 x 258 with NaN at flat indices 3 and 257 only, one output
    cell.  The output is NaN; the last NaN of the window is at 257, and the
    kernel stores 256, where the input is not NaN. *)
Theorem contiguous_nan_index_rounded pool (Hfair : fair pool) :
  let r := cpu_adaptive_max_pool pool BFloat16
             (fst (empty_like BFloat16 [1; 1; 1; 1]))
             (snd (empty_like BFloat16 [1; 1; 1; 1]))
             nan_at_3_and_257 [1; 1] in
  data_ptr (fst r) 0 = S754_nan /\
  isnan (data_ptr nan_at_3_and_257 257) = true /\
  long_data_ptr (snd r) 0 = 256 /\
  isnan (data_ptr nan_at_3_and_257 (long_data_ptr (snd r) 0)) = false.
Proof.
  cbv zeta.
  pose proof (contiguous_cell_evaluated pool BFloat16
                (fst (empty_like BFloat16 [1; 1; 1; 1]))
                (snd (empty_like BFloat16 [1; 1; 1; 1]))
                (data_ptr nan_at_3_and_257) 1 1 1 258 1 1 0 0 0 0
                S754_nan 257 S754_nan 256 Hfair
                ltac:(lia) ltac:(lia) ltac:(lia) ltac:(lia)
                ltac:(vm_compute; reflexivity) ltac:(vm_compute; reflexivity)
                ltac:(vm_compute; reflexivity)) as Hcell.
  cbv zeta in Hcell.
  change (offset_nchw 1 1 1 0 0 0 0) with 0 in Hcell.
  change (mkTensor BFloat16 [1; 1; 1; 258] Contiguous (data_ptr nan_at_3_and_257))
    with nan_at_3_and_257 in Hcell.
  destruct Hcell as [Hval Hidx]. rewrite Hval, Hidx.
  repeat split; vm_compute; reflexivity.
Qed.

Lemma contiguous_nan_index_rounded_witness :
  fair two_workers /\
  long_data_ptr
    (snd (cpu_adaptive_max_pool two_workers BFloat16
            (fst (empty_like BFloat16 [1; 1; 1; 1]))
            (snd (empty_like BFloat16 [1; 1; 1; 1]))
            nan_at_3_and_257 [1; 1])) 0 = 256.
Proof.
  split; [exact two_workers_fair|].
  pose proof (contiguous_nan_index_rounded two_workers two_workers_fair) as H.
  cbv zeta in H. exact (proj1 (proj2 (proj2 H))).
Defined.

(** C4.  Contiguous kernel under any fair pool, [BFloat16] input of
    1 x 1 x 1 x 300 without NaN, zero before flat index 257 and one from
    there on, one output cell.  The output is the maximum, one, whose
    earliest position is 257; the kernel stores 256, where the input is
    zero. *)
Theorem contiguous_first_max_index_rounded pool (Hfair : fair pool) :
  let r := cpu_adaptive_max_pool pool BFloat16
             (fst (empty_like BFloat16 [1; 1; 1; 1]))
             (snd (empty_like BFloat16 [1; 1; 1; 1]))
             step_at_257 [1; 1] in
  data_ptr (fst r) 0 = bf_one /\
  snd (local_max (data_ptr step_at_257) 300 0 1 0 300) = 257 /\
  long_data_ptr (snd r) 0 = 256 /\
  data_ptr step_at_257 (long_data_ptr (snd r) 0) = bf_zero.
Proof.
  cbv zeta.
  pose proof (contiguous_cell_evaluated pool BFloat16
                (fst (empty_like BFloat16 [1; 1; 1; 1]))
                (snd (empty_like BFloat16 [1; 1; 1; 1]))
                (data_ptr step_at_257) 1 1 1 300 1 1 0 0 0 0
                bf_one 257 bf_one 256 Hfair
                ltac:(lia) ltac:(lia) ltac:(lia) ltac:(lia)
                ltac:(vm_compute; reflexivity) ltac:(vm_compute; reflexivity)
                ltac:(vm_compute; reflexivity)) as Hcell.
  cbv zeta in Hcell.
  change (offset_nchw 1 1 1 0 0 0 0) with 0 in Hcell.
  change (mkTensor BFloat16 [1; 1; 1; 300] Contiguous (data_ptr step_at_257))
    with step_at_257 in Hcell.
  destruct Hcell as [Hval Hidx]. rewrite Hval, Hidx.
  repeat split; vm_compute; reflexivity.
Qed.

Lemma contiguous_first_max_index_rounded_witness :
  fair two_workers /\
  long_data_ptr
    (snd (cpu_adaptive_max_pool two_workers BFloat16
            (fst (empty_like BFloat16 [1; 1; 1; 1]))
            (snd (empty_like BFloat16 [1; 1; 1; 1]))
            step_at_257 [1; 1])) 0 = 256.
Proof.
  split; [exact two_workers_fair|].
  pose proof (contiguous_first_max_index_rounded two_workers two_workers_fair) as H.
  cbv zeta in H. exact (proj1 (proj2 (proj2 H))).
Defined.

(** C10.  Contiguous kernel under any fair pool, [BFloat16] input of
    1 x 1 x 1 x 514 filled with minus infinity, two output cells.  The
    window of the second cell is [257, 514); the kernel stores minus
    infinity as its value and 256 as its index, which is not the first
    position 257 and not inside the window. *)
Theorem contiguous_init_index_rounded pool (Hfair : fair pool) :
  let r := cpu_adaptive_max_pool pool BFloat16
             (fst (empty_like BFloat16 [1; 1; 1; 2]))
             (snd (empty_like BFloat16 [1; 1; 1; 2]))
             all_neg_infinity [1; 2] in
  start_index 1 2 514 = 257 /\ end_index 1 2 514 = 514 /\
  data_ptr (fst r) 1 = neg_infinity /\
  long_data_ptr (snd r) 1 = 256 /\
  ~ In (long_data_ptr (snd r) 1) (cell_window 1 514 1 2 0 1).
Proof.
  cbv zeta.
  pose proof (contiguous_cell_evaluated pool BFloat16
                (fst (empty_like BFloat16 [1; 1; 1; 2]))
                (snd (empty_like BFloat16 [1; 1; 1; 2]))
                (data_ptr all_neg_infinity) 1 1 1 514 1 2 0 0 0 1
                neg_infinity 257 neg_infinity 256 Hfair
                ltac:(lia) ltac:(lia) ltac:(lia) ltac:(lia)
                ltac:(vm_compute; reflexivity) ltac:(vm_compute; reflexivity)
                ltac:(vm_compute; reflexivity)) as Hcell.
  cbv zeta in Hcell.
  change (offset_nchw 1 1 2 0 0 0 1) with 1 in Hcell.
  change (mkTensor BFloat16 [1; 1; 1; 514] Contiguous (data_ptr all_neg_infinity))
    with all_neg_infinity in Hcell.
  destruct Hcell as [Hval Hidx]. rewrite Hval, Hidx.
  split; [reflexivity|]. split; [reflexivity|].
  split; [reflexivity|]. split; [reflexivity|].
  unfold cell_window, window.
  change (start_index 0 1 1) with 0. change (end_index 0 1 1) with 1.
  change (start_index 1 2 514) with 257. change (end_index 1 2 514) with 514.
  rewrite in_flat_map. intros (ih & Hih & Hin).
  apply In_irange in Hih. apply in_map_iff in Hin.
  destruct Hin as (iw & Heq & Hiw). apply In_irange in Hiw. lia.
Qed.

Lemma contiguous_init_index_rounded_witness :
  fair two_workers /\
  long_data_ptr
    (snd (cpu_adaptive_max_pool two_workers BFloat16
            (fst (empty_like BFloat16 [1; 1; 1; 2]))
            (snd (empty_like BFloat16 [1; 1; 1; 2]))
            all_neg_infinity [1; 2])) 1 = 256.
Proof.
  split; [exact two_workers_fair|].
  pose proof (contiguous_init_index_rounded two_workers two_workers_fair) as H.
  cbv zeta in H. exact (proj1 (proj2 (proj2 (proj2 H)))).
Defined.
(* ================================================================== *)
(** * The forward path, from the shell to the cell *)
(* ================================================================== *)



(** The index a scan finds in a window of a cell is a position of the
    plane. *)
Lemma local_max_index_range p H W OH OW oh ow :
  1 <= H -> 1 <= W -> 0 <= oh < OH -> 0 <= ow < OW ->
  0 <= snd (local_max p W (start_index oh OH H) (end_index oh OH H)
                      (start_index ow OW W) (end_index ow OW W)) < H * W.
Proof.
  intros HH HW Hoh How.
  destruct (window_bounds oh OH H ltac:(lia) HH Hoh) as (Hh0 & Hh1 & Hh2).
  destruct (window_bounds ow OW W ltac:(lia) HW How) as (Hw0 & Hw1 & Hw2).
  pose proof (local_max_in_window p W _ _ _ _ Hh1 Hw1) as Hin.
  destruct (cell_window_in_plane H W OH OW oh ow _ HH HW Hoh How Hin)
    as (ih & iw & _ & _ & _ & Hr).
  exact Hr.
Qed.

Lemma first_empty_dim_4d N C H W :
  0 < C -> 0 < H -> 0 < W -> first_empty_dim [N; C; H; W] = None.
Proof.
  intros HC HH HW. apply first_empty_dim_none. intros i Hi.
  change (Z.of_nat (length [N; C; H; W])) with 4 in Hi.
  assert (Hcase : i = 1 \/ i = 2 \/ i = 3) by lia.
  destruct Hcase as [-> | [-> | ->]]; assumption.
Qed.


(** The shell on a 4D input without empty non-batch dimension: the kernel
    is run on two fresh tensors of shape [N, C, OH, OW] in the layout of the
    input. *)
Lemma shell_rank4 pool VW t fmt data N C H W OH OW :
  0 <= N -> 0 < C -> 0 < H -> 0 < W -> 0 <= OH -> 0 <= OW ->
  adaptive_max_pool2d_out_cpu pool VW (mkTensor t [N; C; H; W] fmt data) [OH; OW]
  = adaptive_max_pool2d_kernel_impl pool VW
      (at_empty t [N; C; OH; OW] fmt) (at_empty_long [N; C; OH; OW] fmt)
      (mkTensor t [N; C; H; W] fmt data) [OH; OW].
Proof.
  intros HN HC HH HW HOH HOW. unfold adaptive_max_pool2d_out_cpu.
  change (ndimension (mkTensor t [N; C; H; W] fmt data)) with 4.
  cbn [sizes scalar_type suggest_memory_format].
  rewrite (first_empty_dim_4d N C H W HC HH HW).
  cbn [length Z.of_nat Pos.of_succ_nat Pos.succ Z.eqb Pos.eqb negb orb nth
       check_size_nonnegative forallb].
  change (size (mkTensor t [N; C; H; W] fmt data) 0) with N.
  change (size (mkTensor t [N; C; H; W] fmt data) (2 - 1)) with C.
  rewrite (proj2 (Z.leb_le 0 N) HN), (proj2 (Z.leb_le 0 C) ltac:(lia)),
          (proj2 (Z.leb_le 0 OH) HOH), (proj2 (Z.leb_le 0 OW) HOW).
  reflexivity.
Qed.












(** X5.  The forward shell on the same 4D data in the two layouts, with
    [H * W] within the index lane: both calls return; at every cell the two
    outputs hold the same value; the index of the row-major run is the index
    of the channels-last run after the conversion of line 71, and the two
    indices are equal when the plane has at most [2 ^ prec] elements. *)
Theorem forward_layouts_agree
    (pool pool' : ThreadPool) (scalar_t : ScalarType) (VECTOR_WIDTH : Z)
    (data : buffer spec_float) (N C H W OH OW n c oh ow : Z)
    (Hfair : fair pool) (Hfair' : fair pool')
    (HVW : 0 < VECTOR_WIDTH) (Hdiv : (8 | VECTOR_WIDTH))
    (HH : 1 <= H) (HW : 1 <= W) (Hfit : H * W <= integer_t_max scalar_t)
    (Hn : 0 <= n < N) (Hc : 0 <= c < C) (Hoh : 0 <= oh < OH) (How : 0 <= ow < OW) :
  exists output indices output' indices',
    adaptive_max_pool2d_out_cpu pool VECTOR_WIDTH
      (mkTensor scalar_t [N; C; H; W] Contiguous data) [OH; OW]
    = Ok (output, indices) /\
    adaptive_max_pool2d_out_cpu pool' VECTOR_WIDTH
      (mkTensor scalar_t [N; C; H; W] ChannelsLast (to_channels_last C H W data))
      [OH; OW]
    = Ok (output', indices') /\
    data_ptr output (offset_nchw C OH OW n c oh ow)
    = data_ptr output' (offset_nhwc C OH OW n c oh ow) /\
    long_data_ptr indices (offset_nchw C OH OW n c oh ow)
    = index_through_scalar scalar_t
        (long_data_ptr indices' (offset_nhwc C OH OW n c oh ow)) /\
    (H * W <= 2 ^ prec scalar_t ->
     long_data_ptr indices (offset_nchw C OH OW n c oh ow)
     = long_data_ptr indices' (offset_nhwc C OH OW n c oh ow)).
Proof.
  rewrite !shell_rank4 by lia.
  unfold adaptive_max_pool2d_kernel_impl. cbn [suggest_memory_format scalar_type].
  destruct (channels_last_forward_cell pool' scalar_t VECTOR_WIDTH
              (at_empty scalar_t [N; C; OH; OW] ChannelsLast)
              (at_empty_long [N; C; OH; OW] ChannelsLast)
              (to_channels_last C H W data) N C H W OH OW n c oh ow
              Hfair' HVW Hdiv HH HW Hfit Hn Hc Hoh How)
    as (out' & ind' & Hok & Hval & Hidx).
  destruct (contiguous_forward_cell pool scalar_t
              (at_empty scalar_t [N; C; OH; OW] Contiguous)
              (at_empty_long [N; C; OH; OW] Contiguous)
              data N C H W OH OW n c oh ow Hfair Hn Hc Hoh How) as (Cval & Cidx).
  rewrite (local_max_layouts data C H W OH OW n c oh ow HH HW Hc Hoh How)
    in Hval, Hidx.
  pose proof (local_max_index_range (shift data (offset_nchw C H W n c 0 0))
                H W OH OW oh ow HH HW Hoh How) as Hr.
  eexists _, _, out', ind'. split; [f_equal; apply surjective_pairing|].
  split; [exact Hok|]. rewrite Cval, Cidx, Hval, Hidx.
  split; [reflexivity|]. split; [reflexivity|].
  intros Hsmall. apply index_through_scalar_exact. lia.
Qed.

Lemma forward_layouts_agree_witness :
  (fair two_workers /\ fair single_worker) /\ (8 | 32) /\
  4 * 4 <= integer_t_max Float /\
  exists output indices output' indices',
    adaptive_max_pool2d_out_cpu two_workers 32
      (mkTensor Float [1; 1; 4; 4] Contiguous peak_at_5) [2; 2]
    = Ok (output, indices) /\
    adaptive_max_pool2d_out_cpu single_worker 32
      (mkTensor Float [1; 1; 4; 4] ChannelsLast (to_channels_last 1 4 4 peak_at_5))
      [2; 2]
    = Ok (output', indices') /\
    data_ptr output (offset_nchw 1 2 2 0 0 0 0)
    = data_ptr output' (offset_nhwc 1 2 2 0 0 0 0).
Proof.
  assert (Hdiv : (8 | 32)) by (exists 4; reflexivity).
  assert (Hfit : 4 * 4 <= integer_t_max Float) by (vm_compute; discriminate).
  split; [split; [exact two_workers_fair | exact single_worker_fair]|].
  split; [exact Hdiv|]. split; [exact Hfit|].
  destruct (forward_layouts_agree two_workers single_worker Float 32 peak_at_5
              1 1 4 4 2 2 0 0 0 0 two_workers_fair single_worker_fair
              ltac:(lia) Hdiv ltac:(lia) ltac:(lia) Hfit
              ltac:(lia) ltac:(lia) ltac:(lia) ltac:(lia))
    as (o & i & o' & i' & Hok & Hok' & Hval & _).
  exists o, i, o', i'. split; [exact Hok|]. split; [exact Hok' | exact Hval].
Defined.

(* ================================================================== *)
(** * What the forward kernels write, and what they depend on *)
(* ================================================================== *)

Lemma covers_empty b e chunks : e <= b -> covers b e chunks -> chunks = [].
Proof.
  intros Hle Hc. destruct chunks as [|chunk rest]; [reflexivity|].
  cbn [covers] in Hc. lia.
Qed.

Lemma cell_offset_range channels OH OW c oh ow :
  0 <= c < channels -> 0 <= oh < OH -> 0 <= ow < OW ->
  0 <= c * OH * OW + (oh * OW + ow) < channels * OH * OW.
Proof.
  intros Hc Hoh How.
  assert (H1 : 0 <= c * (OH * OW)) by (apply Z.mul_nonneg_nonneg; nia).
  assert (H2 : (c + 1) * (OH * OW) <= channels * (OH * OW))
    by (apply Z.mul_le_mono_nonneg_r; nia).
  assert (H3 : (oh + 1) * OW <= OH * OW)
    by (apply Z.mul_le_mono_nonneg_r; lia).
  assert (H4 : 0 <= oh * OW) by (apply Z.mul_nonneg_nonneg; lia).
  nia.
Qed.

(** The planes loop of the contiguous kernel writes the cells of its planes
    only. *)
Lemma pool_planes_frame scalar_t input_data H W OH OW channels st a :
  ~ 0 <= a < channels * OH * OW ->
  let r := fold_left (pool_plane scalar_t input_data H W OH OW)
                     (irange 0 channels) st in
  fst r a = fst st a /\ snd r a = snd st a.
Proof.
  intros Ha. cbv zeta. rewrite pool_planes_flat.
  apply (fold_store_pair_out
           (fun k => fst (fst k) * OH * OW + (snd (fst k) * OW + snd k))
           (fun k => acc_to_scalar scalar_t
                       (fst (local_max (shift input_data (fst (fst k) * H * W)) W
                               (start_index (snd (fst k)) OH H)
                               (end_index (snd (fst k)) OH H)
                               (start_index (snd k) OW W) (end_index (snd k) OW W))))
           (fun k => index_through_scalar scalar_t
                       (snd (local_max (shift input_data (fst (fst k) * H * W)) W
                               (start_index (snd (fst k)) OH H)
                               (end_index (snd (fst k)) OH H)
                               (start_index (snd k) OW W) (end_index (snd k) OW W))))
           (forward_cells channels OH OW) st a).
  intros [[c oh] ow] Hin. apply In_forward_cells in Hin. cbn [fst snd].
  destruct Hin as (Hc & Hoh & How).
  pose proof (cell_offset_range channels OH OW c oh ow Hc Hoh How). lia.
Qed.

Lemma contiguous_forward_frame pool scalar_t out0 ind0 data N C H W OH OW a :
  fair pool -> ~ 0 <= a < N * C * OH * OW ->
  let r := cpu_adaptive_max_pool pool scalar_t out0 ind0
             (mkTensor scalar_t [N; C; H; W] Contiguous data) [OH; OW] in
  data_ptr (fst r) a = data_ptr out0 a /\
  long_data_ptr (snd r) a = long_data_ptr ind0 a.
Proof.
  intros Hfair Ha. cbv zeta.
  unfold cpu_adaptive_max_pool, ndimension, size.
  cbn [sizes data_ptr length nth fst snd set_data set_long_data long_data_ptr].
  change (Z.of_nat 4 =? 3) with false. cbv iota.
  destruct (dim_of_4d N C H W) as (E0 & E1 & _ & _ & E4 & E5).
  rewrite E0, E1, E4, E5.
  rewrite parallel_for_ranges by assumption.
  apply (pool_planes_frame scalar_t data H W OH OW (N * C)
           (data_ptr out0, long_data_ptr ind0) a Ha).
Qed.

Lemma positive_factors N OH OW :
  0 <= N -> 0 <= OH -> 0 <= OW -> N * OH * OW <> 0 -> 0 < N /\ 0 < OH /\ 0 < OW.
Proof. intros HN HOH HOW Hne. nia. Qed.

(** The generic channels-last kernel writes the [N * OH * OW] rows of [C]
    elements only. *)
Lemma channels_last_generic_frame pool scalar_t VW out0 ind0 data
    N C H W OH OW a :
  fair pool -> 0 < Vec_size VW scalar_t ->
  0 <= N -> 0 <= C -> 0 <= OH -> 0 <= OW ->
  1 <= H -> 1 <= W -> H * W <= integer_t_max scalar_t ->
  ~ 0 <= a < N * OH * OW * C ->
  exists out ind,
    cpu_adaptive_max_pool_channels_last pool scalar_t VW out0 ind0
      (mkTensor scalar_t [N; C; H; W] ChannelsLast data) [OH; OW] = Ok (out, ind) /\
    data_ptr out a = data_ptr out0 a /\
    long_data_ptr ind a = long_data_ptr ind0 a.
Proof.
  intros Hfair HL HN HC HOH HOW HH HW Hfit Ha.
  unfold cpu_adaptive_max_pool_channels_last, ndimension, size.
  cbn [sizes data_ptr length nth].
  change (negb (Z.of_nat 4 =? 4)) with false. cbv iota.
  destruct (dim_of_4d N C H W) as (E0 & E1 & E2 & E3 & _ & _).
  rewrite E0, E1, E2, E3.
  destruct (Z.leb_spec (H * W) (integer_t_max scalar_t)); [|lia].
  cbn [negb]. eexists _, _. split; [reflexivity|].
  cbn [set_data set_long_data data_ptr long_data_ptr].
  unfold parallel_for.
  destruct (Z.eq_dec (N * OH * OW) 0) as [Hz|Hnz].
  - rewrite (covers_empty 0 (N * OH * OW) (pool 0 (N * OH * OW))
               ltac:(lia) (Hfair _ _)).
    split; reflexivity.
  - destruct (positive_factors N OH OW HN HOH HOW Hnz) as (HN' & HOH' & HOW').
    destruct (workers_fill_rows
                (cl_worker scalar_t VW data C H W N OH OW)
                (fun i d =>
                   local_max
                     (channel_plane data C H W (fst (fst (position_coords N OH OW i))) d) W
                     (start_index (snd (fst (position_coords N OH OW i))) OH H)
                     (end_index (snd (fst (position_coords N OH OW i))) OH H)
                     (start_index (snd (position_coords N OH OW i)) OW W)
                     (end_index (snd (position_coords N OH OW i)) OW W))
                C HC
                (fun lo hi st Hlo Hhi =>
                   cl_worker_rows scalar_t VW data C H W N OH OW lo hi st
                     HC HL HN' HOH' HOW' HH HW Hfit Hlo Hhi)
                (pool 0 (N * OH * OW)) 0 (N * OH * OW)
                (data_ptr out0, long_data_ptr ind0) ltac:(lia) (Hfair _ _))
      as [_ Hframe].
    apply (Hframe a). lia.
Qed.

Lemma channels_last_bfloat16_frame pool VW out0 ind0 data
    N C H W OH OW a :
  fair pool ->
  0 < Vec_size VW Float -> Vec_size VW BFloat16 = 2 * Vec_size VW Float ->
  0 <= N -> 0 <= C -> 0 <= OH -> 0 <= OW ->
  1 <= H -> 1 <= W -> H * W <= 2 ^ 31 - 1 ->
  ~ 0 <= a < N * OH * OW * C ->
  exists out ind,
    cpu_adaptive_max_pool_channels_last_BFloat16 pool VW out0 ind0
      (mkTensor BFloat16 [N; C; H; W] ChannelsLast data) [OH; OW] = Ok (out, ind) /\
    data_ptr out a = data_ptr out0 a /\
    long_data_ptr ind a = long_data_ptr ind0 a.
Proof.
  intros Hfair Hf Hb HN HC HOH HOW HH HW Hfit Ha.
  unfold cpu_adaptive_max_pool_channels_last_BFloat16, ndimension, size.
  cbn [sizes data_ptr length nth].
  change (negb (Z.of_nat 4 =? 4)) with false. cbv iota.
  destruct (dim_of_4d N C H W) as (E0 & E1 & E2 & E3 & _ & _).
  rewrite E0, E1, E2, E3.
  destruct (Z.leb_spec (H * W) (2 ^ 31 - 1)); [|lia].
  cbn [negb]. eexists _, _. split; [reflexivity|].
  cbn [set_data set_long_data data_ptr long_data_ptr].
  unfold parallel_for.
  destruct (Z.eq_dec (N * OH * OW) 0) as [Hz|Hnz].
  - rewrite (covers_empty 0 (N * OH * OW) (pool 0 (N * OH * OW))
               ltac:(lia) (Hfair _ _)).
    split; reflexivity.
  - destruct (positive_factors N OH OW HN HOH HOW Hnz) as (HN' & HOH' & HOW').
    pose proof (fun lo hi st Hlo Hhi =>
                  bf_worker_rows VW data C H W N OH OW lo hi st
                    HC Hf Hb HN' HOH' HOW' HH HW Hfit Hlo Hhi) as Hworker.
    cbv zeta in Hworker.
    destruct (workers_fill_rows
                (bf_worker VW data C H W N OH OW) _ C HC Hworker
                (pool 0 (N * OH * OW)) 0 (N * OH * OW)
                (data_ptr out0, long_data_ptr ind0) ltac:(lia) (Hfair _ _))
      as [_ Hframe].
    apply (Hframe a). lia.
Qed.

(** A cell of the result of the forward dispatch on a 4D input, in either
    layout, whatever the two tensors it is given hold beforehand. *)
Lemma forward_kernel_cell pool scalar_t VW out0 ind0 fmt data
    N C H W OH OW n c oh ow :
  fair pool -> 0 < VW -> (8 | VW) ->
  fmt = Contiguous \/ fmt = ChannelsLast ->
  1 <= H -> 1 <= W ->
  (fmt = ChannelsLast -> H * W <= integer_t_max scalar_t) ->
  0 <= n < N -> 0 <= c < C -> 0 <= oh < OH -> 0 <= ow < OW ->
  let m := local_max (plane_of fmt data C H W n c) W
                     (start_index oh OH H) (end_index oh OH H)
                     (start_index ow OW W) (end_index ow OW W) in
  exists output indices,
    adaptive_max_pool2d_kernel_impl pool VW out0 ind0
      (mkTensor scalar_t [N; C; H; W] fmt data) [OH; OW] = Ok (output, indices) /\
    data_ptr output (cell_offset fmt C OH OW n c oh ow)
    = acc_to_scalar scalar_t (fst m) /\
    long_data_ptr indices (cell_offset fmt C OH OW n c oh ow)
    = match fmt with
      | ChannelsLast => snd m
      | _ => index_through_scalar scalar_t (snd m)
      end.
Proof.
  intros Hfair HVW Hdiv Hfmt HH HW Hfit Hn Hc Hoh How. cbv zeta.
  unfold adaptive_max_pool2d_kernel_impl. cbn [suggest_memory_format scalar_type].
  destruct Hfmt as [-> | ->]; cbn [plane_of cell_offset].
  - eexists _, _. split; [f_equal; apply surjective_pairing|].
    apply (contiguous_forward_cell pool scalar_t _ _ data
             N C H W OH OW n c oh ow Hfair Hn Hc Hoh How).
  - apply (channels_last_forward_cell pool scalar_t VW _ _ data
             N C H W OH OW n c oh ow Hfair HVW Hdiv HH HW (Hfit eq_refl)
             Hn Hc Hoh How).
Qed.

Lemma forward_shell_cell pool scalar_t VW fmt data N C H W OH OW n c oh ow :
  fair pool -> 0 < VW -> (8 | VW) ->
  fmt = Contiguous \/ fmt = ChannelsLast ->
  1 <= H -> 1 <= W ->
  (fmt = ChannelsLast -> H * W <= integer_t_max scalar_t) ->
  0 <= n < N -> 0 <= c < C -> 0 <= oh < OH -> 0 <= ow < OW ->
  let m := local_max (plane_of fmt data C H W n c) W
                     (start_index oh OH H) (end_index oh OH H)
                     (start_index ow OW W) (end_index ow OW W) in
  exists output indices,
    adaptive_max_pool2d_out_cpu pool VW
      (mkTensor scalar_t [N; C; H; W] fmt data) [OH; OW] = Ok (output, indices) /\
    data_ptr output (cell_offset fmt C OH OW n c oh ow)
    = acc_to_scalar scalar_t (fst m) /\
    long_data_ptr indices (cell_offset fmt C OH OW n c oh ow)
    = match fmt with
      | ChannelsLast => snd m
      | _ => index_through_scalar scalar_t (snd m)
      end.
Proof.
  intros Hfair HVW Hdiv Hfmt HH HW Hfit Hn Hc Hoh How.
  rewrite shell_rank4 by lia.
  now apply forward_kernel_cell.
Qed.

(** The scan of a window depends on the elements of the window only. *)
Lemma local_max_ext p p' W ih0 ih1 iw0 iw1 :
  (forall k, In k (window W ih0 ih1 iw0 iw1) -> p k = p' k) ->
  local_max p W ih0 ih1 iw0 iw1 = local_max p' W ih0 ih1 iw0 iw1.
Proof. intros Hagree. rewrite !local_max_scan. now apply scan_ext. Qed.







(** X6.  The forward dispatch on a 4D input in either layout, given any two
    tensors to fill: it returns, and outside the [N * C * OH * OW] elements
    of the result the memory behind the output and the indices is left as it
    was, also when the batch or the output is empty. *)
Theorem forward_kernels_write_in_bounds
    (pool : ThreadPool) (scalar_t : ScalarType) (VECTOR_WIDTH : Z)
    (out0 : Tensor) (ind0 : LongTensor) (fmt : MemoryFormat)
    (data : buffer spec_float) (N C H W OH OW a : Z)
    (Hfair : fair pool) (HVW : 0 < VECTOR_WIDTH) (Hdiv : (8 | VECTOR_WIDTH))
    (Hfmt : fmt = Contiguous \/ fmt = ChannelsLast)
    (HN : 0 <= N) (HC : 0 <= C) (HOH : 0 <= OH) (HOW : 0 <= OW)
    (HH : 1 <= H) (HW : 1 <= W)
    (Hfit : fmt = ChannelsLast -> H * W <= integer_t_max scalar_t)
    (Ha : ~ 0 <= a < N * C * OH * OW) :
  exists output indices,
    adaptive_max_pool2d_kernel_impl pool VECTOR_WIDTH out0 ind0
      (mkTensor scalar_t [N; C; H; W] fmt data) [OH; OW] = Ok (output, indices) /\
    data_ptr output a = data_ptr out0 a /\
    long_data_ptr indices a = long_data_ptr ind0 a.
Proof.
  unfold adaptive_max_pool2d_kernel_impl. cbn [suggest_memory_format scalar_type].
  destruct Hfmt as [-> | ->].
  - eexists _, _. split; [f_equal; apply surjective_pairing|].
    now apply contiguous_forward_frame.
  - specialize (Hfit eq_refl).
    assert (Ha' : ~ 0 <= a < N * OH * OW * C).
    { replace (N * OH * OW * C) with (N * C * OH * OW) by ring. exact Ha. }
    destruct (Vec_size_lanes VECTOR_WIDTH HVW Hdiv) as (Hd & Hf & Hb).
    destruct scalar_t; unfold channels_last_instance.
    + now apply channels_last_generic_frame.
    + now apply channels_last_generic_frame.
    + now apply channels_last_bfloat16_frame.
Qed.

Lemma forward_kernels_write_in_bounds_witness :
  fair two_workers /\ (8 | 32) /\
  (ChannelsLast = ChannelsLast -> 4 * 4 <= integer_t_max Float) /\
  ~ 0 <= 4 < 1 * 1 * 2 * 2 /\
  exists output indices,
    adaptive_max_pool2d_kernel_impl two_workers 32
      (at_empty Float [1; 1; 2; 2] ChannelsLast)
      (at_empty_long [1; 1; 2; 2] ChannelsLast)
      (mkTensor Float [1; 1; 4; 4] ChannelsLast peak_at_5) [2; 2]
    = Ok (output, indices) /\
    long_data_ptr indices 4 = 0.
Proof.
  assert (Hdiv : (8 | 32)) by (exists 4; reflexivity).
  assert (Hfit : ChannelsLast = ChannelsLast -> 4 * 4 <= integer_t_max Float)
    by (intros _; vm_compute; discriminate).
  assert (Ha : ~ 0 <= 4 < 1 * 1 * 2 * 2) by lia.
  split; [exact two_workers_fair|]. split; [exact Hdiv|].
  split; [exact Hfit|]. split; [exact Ha|].
  destruct (forward_kernels_write_in_bounds two_workers Float 32
              (at_empty Float [1; 1; 2; 2] ChannelsLast)
              (at_empty_long [1; 1; 2; 2] ChannelsLast)
              ChannelsLast peak_at_5 1 1 4 4 2 2 4
              two_workers_fair ltac:(lia) Hdiv (or_intror eq_refl)
              ltac:(lia) ltac:(lia) ltac:(lia) ltac:(lia) ltac:(lia) ltac:(lia)
              Hfit Ha)
    as (output & indices & Hok & _ & Hind).
  exists output, indices. split; [exact Hok | exact Hind].
Defined.

(** X7.  The forward dispatch on a 4D input in either layout overwrites
    every cell of the result: the value and the index of a cell are the same
    for any two fair pools, any two vector widths (multiples of 8 bytes) and
    whatever the tensors to fill held beforehand. *)
Theorem forward_cells_overwritten
    (pool pool' : ThreadPool) (scalar_t : ScalarType) (VECTOR_WIDTH VECTOR_WIDTH' : Z)
    (out0 out0' : Tensor) (ind0 ind0' : LongTensor) (fmt : MemoryFormat)
    (data : buffer spec_float) (N C H W OH OW n c oh ow : Z)
    (Hfair : fair pool) (Hfair' : fair pool')
    (HVW : 0 < VECTOR_WIDTH) (Hdiv : (8 | VECTOR_WIDTH))
    (HVW' : 0 < VECTOR_WIDTH') (Hdiv' : (8 | VECTOR_WIDTH'))
    (Hfmt : fmt = Contiguous \/ fmt = ChannelsLast)
    (HH : 1 <= H) (HW : 1 <= W)
    (Hfit : fmt = ChannelsLast -> H * W <= integer_t_max scalar_t)
    (Hn : 0 <= n < N) (Hc : 0 <= c < C) (Hoh : 0 <= oh < OH) (How : 0 <= ow < OW) :
  exists output indices output' indices',
    adaptive_max_pool2d_kernel_impl pool VECTOR_WIDTH out0 ind0
      (mkTensor scalar_t [N; C; H; W] fmt data) [OH; OW] = Ok (output, indices) /\
    adaptive_max_pool2d_kernel_impl pool' VECTOR_WIDTH' out0' ind0'
      (mkTensor scalar_t [N; C; H; W] fmt data) [OH; OW] = Ok (output', indices') /\
    data_ptr output (cell_offset fmt C OH OW n c oh ow)
    = data_ptr output' (cell_offset fmt C OH OW n c oh ow) /\
    long_data_ptr indices (cell_offset fmt C OH OW n c oh ow)
    = long_data_ptr indices' (cell_offset fmt C OH OW n c oh ow).
Proof.
  destruct (forward_kernel_cell pool scalar_t VECTOR_WIDTH out0 ind0 fmt data
              N C H W OH OW n c oh ow Hfair HVW Hdiv Hfmt HH HW Hfit Hn Hc Hoh How)
    as (o & i & Hok & Hval & Hidx).
  destruct (forward_kernel_cell pool' scalar_t VECTOR_WIDTH' out0' ind0' fmt data
              N C H W OH OW n c oh ow Hfair' HVW' Hdiv' Hfmt HH HW Hfit Hn Hc Hoh How)
    as (o' & i' & Hok' & Hval' & Hidx').
  exists o, i, o', i'. split; [exact Hok|]. split; [exact Hok'|].
  split; congruence.
Qed.

Lemma forward_cells_overwritten_witness :
  (fair two_workers /\ fair single_worker) /\ ((8 | 32) /\ (8 | 64)) /\
  (ChannelsLast = ChannelsLast -> 4 * 4 <= integer_t_max Float) /\
  exists output indices output' indices',
    adaptive_max_pool2d_kernel_impl two_workers 32
      (at_empty Float [1; 1; 2; 2] ChannelsLast)
      (at_empty_long [1; 1; 2; 2] ChannelsLast)
      (mkTensor Float [1; 1; 4; 4] ChannelsLast peak_at_5) [2; 2]
    = Ok (output, indices) /\
    adaptive_max_pool2d_kernel_impl single_worker 64
      (mkTensor Float [1; 1; 2; 2] ChannelsLast ones)
      (mkLongTensor [1; 1; 2; 2] ChannelsLast (fun _ => 7))
      (mkTensor Float [1; 1; 4; 4] ChannelsLast peak_at_5) [2; 2]
    = Ok (output', indices') /\
    long_data_ptr indices (cell_offset ChannelsLast 1 2 2 0 0 0 0)
    = long_data_ptr indices' (cell_offset ChannelsLast 1 2 2 0 0 0 0).
Proof.
  assert (Hdiv : (8 | 32)) by (exists 4; reflexivity).
  assert (Hdiv' : (8 | 64)) by (exists 8; reflexivity).
  assert (Hfit : ChannelsLast = ChannelsLast -> 4 * 4 <= integer_t_max Float)
    by (intros _; vm_compute; discriminate).
  split; [split; [exact two_workers_fair | exact single_worker_fair]|].
  split; [split; [exact Hdiv | exact Hdiv']|]. split; [exact Hfit|].
  destruct (forward_cells_overwritten two_workers single_worker Float 32 64
              (at_empty Float [1; 1; 2; 2] ChannelsLast)
              (mkTensor Float [1; 1; 2; 2] ChannelsLast ones)
              (at_empty_long [1; 1; 2; 2] ChannelsLast)
              (mkLongTensor [1; 1; 2; 2] ChannelsLast (fun _ => 7))
              ChannelsLast peak_at_5 1 1 4 4 2 2 0 0 0 0
              two_workers_fair single_worker_fair
              ltac:(lia) Hdiv ltac:(lia) Hdiv' (or_intror eq_refl)
              ltac:(lia) ltac:(lia) Hfit
              ltac:(lia) ltac:(lia) ltac:(lia) ltac:(lia))
    as (o & i & o' & i' & Hok & Hok' & _ & Hidx).
  exists o, i, o', i'. split; [exact Hok|]. split; [exact Hok' | exact Hidx].
Defined.

(** X8.  A cell of the result of the forward shell depends on the elements
    of its window only: two 4D inputs of the same shape and layout that
    agree on the window of cell [(n, c, oh, ow)] give that cell the same
    value and the same index, whatever they hold elsewhere. *)
Theorem forward_cell_depends_on_window_only
    (pool : ThreadPool) (scalar_t : ScalarType) (VECTOR_WIDTH : Z)
    (fmt : MemoryFormat) (data data' : buffer spec_float)
    (N C H W OH OW n c oh ow : Z)
    (Hfair : fair pool) (HVW : 0 < VECTOR_WIDTH) (Hdiv : (8 | VECTOR_WIDTH))
    (Hfmt : fmt = Contiguous \/ fmt = ChannelsLast)
    (HH : 1 <= H) (HW : 1 <= W)
    (Hfit : fmt = ChannelsLast -> H * W <= integer_t_max scalar_t)
    (Hn : 0 <= n < N) (Hc : 0 <= c < C) (Hoh : 0 <= oh < OH) (How : 0 <= ow < OW)
    (Hagree : forall k, In k (cell_window H W OH OW oh ow) ->
                plane_of fmt data C H W n c k = plane_of fmt data' C H W n c k) :
  exists output indices output' indices',
    adaptive_max_pool2d_out_cpu pool VECTOR_WIDTH
      (mkTensor scalar_t [N; C; H; W] fmt data) [OH; OW] = Ok (output, indices) /\
    adaptive_max_pool2d_out_cpu pool VECTOR_WIDTH
      (mkTensor scalar_t [N; C; H; W] fmt data') [OH; OW] = Ok (output', indices') /\
    data_ptr output (cell_offset fmt C OH OW n c oh ow)
    = data_ptr output' (cell_offset fmt C OH OW n c oh ow) /\
    long_data_ptr indices (cell_offset fmt C OH OW n c oh ow)
    = long_data_ptr indices' (cell_offset fmt C OH OW n c oh ow).
Proof.
  destruct (forward_shell_cell pool scalar_t VECTOR_WIDTH fmt data
              N C H W OH OW n c oh ow Hfair HVW Hdiv Hfmt HH HW Hfit Hn Hc Hoh How)
    as (o & i & Hok & Hval & Hidx).
  destruct (forward_shell_cell pool scalar_t VECTOR_WIDTH fmt data'
              N C H W OH OW n c oh ow Hfair HVW Hdiv Hfmt HH HW Hfit Hn Hc Hoh How)
    as (o' & i' & Hok' & Hval' & Hidx').
  rewrite (local_max_ext _ _ W _ _ _ _ Hagree) in Hval, Hidx.
  exists o, i, o', i'. split; [exact Hok|]. split; [exact Hok'|].
  split; congruence.
Qed.

Lemma forward_cell_depends_on_window_only_witness :
  fair two_workers /\ (8 | 32) /\
  (forall k, In k (cell_window 4 4 2 2 0 0) ->
     plane_of Contiguous peak_at_5 1 4 4 0 0 k
     = plane_of Contiguous peak_at_5_and_100 1 4 4 0 0 k) /\
  exists output indices output' indices',
    adaptive_max_pool2d_out_cpu two_workers 32
      (mkTensor Float [1; 1; 4; 4] Contiguous peak_at_5) [2; 2]
    = Ok (output, indices) /\
    adaptive_max_pool2d_out_cpu two_workers 32
      (mkTensor Float [1; 1; 4; 4] Contiguous peak_at_5_and_100) [2; 2]
    = Ok (output', indices') /\
    data_ptr output (cell_offset Contiguous 1 2 2 0 0 0 0)
    = data_ptr output' (cell_offset Contiguous 1 2 2 0 0 0 0).
Proof.
  assert (Hdiv : (8 | 32)) by (exists 4; reflexivity).
  assert (Hagree : forall k, In k (cell_window 4 4 2 2 0 0) ->
            plane_of Contiguous peak_at_5 1 4 4 0 0 k
            = plane_of Contiguous peak_at_5_and_100 1 4 4 0 0 k).
  { intros k Hk. vm_compute in Hk.
    destruct Hk as [<- | [<- | [<- | [<- | []]]]]; reflexivity. }
  split; [exact two_workers_fair|]. split; [exact Hdiv|]. split; [exact Hagree|].
  destruct (forward_cell_depends_on_window_only two_workers Float 32 Contiguous
              peak_at_5 peak_at_5_and_100 1 1 4 4 2 2 0 0 0 0
              two_workers_fair ltac:(lia) Hdiv (or_introl eq_refl)
              ltac:(lia) ltac:(lia) ltac:(intros E; discriminate E)
              ltac:(lia) ltac:(lia) ltac:(lia) ltac:(lia) Hagree)
    as (o & i & o' & i' & Hok & Hok' & Hval & _).
  exists o, i, o', i'. split; [exact Hok|]. split; [exact Hok' | exact Hval].
Defined.





(* ================================================================== *)
(** * The backward path, from the shell to the element *)
(* ================================================================== *)

(** Two descriptions of the same gradients give the same contributions. *)
Lemma contributions_agree {A} (go go' : buffer A) ind ind' addr addr' t cells :
  (forall cell, In cell cells ->
     go (addr cell) = go' (addr' cell) /\ ind (addr cell) = ind' (addr' cell)) ->
  contributions go ind addr t cells = contributions go' ind' addr' t cells.
Proof.
  intros H. unfold contributions.
  induction cells as [|cell l IH]; simpl; [reflexivity|].
  destruct (H cell (or_introl eq_refl)) as [Hg Hi].
  assert (IH' : map (fun cell => go (addr cell))
                    (filter (fun cell => ind (addr cell) =? t) l)
                = map (fun cell => go' (addr' cell))
                      (filter (fun cell => ind' (addr' cell) =? t) l)).
  { apply IH. intros; apply H; now right. }
  rewrite <- Hi.
  destruct (_ =? t); simpl; rewrite ?Hg; now rewrite IH'.
Qed.

(** A property of the plane [p = n * C + c], read plane by plane. *)
Lemma by_plane (P : Z -> Prop) N C OH OW :
  0 <= N ->
  (forall n c oh ow,
     0 <= n < N -> 0 <= c < C -> 0 <= oh < OH -> 0 <= ow < OW ->
     P (offset_nchw C OH OW n c oh ow)) ->
  forall p oh ow,
    0 <= p < N * C -> 0 <= oh < OH -> 0 <= ow < OW ->
    P (p * OH * OW + (oh * OW + ow)).
Proof.
  intros HN Hall p oh ow Hp Hoh How.
  assert (HCpos : 0 < C) by nia.
  pose proof (Z.div_mod p C ltac:(lia)) as Hdm.
  pose proof (Z.mod_pos_bound p C HCpos) as Hmod.
  assert (Hq : 0 <= p / C < N).
  { split; [apply Z.div_pos; lia | apply Z.div_lt_upper_bound; nia]. }
  specialize (Hall (p / C) (p mod C) oh ow Hq Hmod Hoh How).
  unfold offset_nchw in Hall.
  replace (p * OH * OW + (oh * OW + ow))
    with (((p / C * C + p mod C) * OH + oh) * OW + ow) by nia.
  exact Hall.
Qed.

Section BackwardFrame.
Context {A : Type} (add : A -> A -> A).
Variable grad_output : buffer A.
Variable indices : buffer Z.

(** The contiguous kernel leaves every address outside the
    [channels * IH * IW] elements of [grad_input] as it was. *)
Lemma backward_planes_frame pool channels IH IW OH OW gi a :
  fair pool -> 0 <= IH -> 0 <= IW ->
  (forall c oh ow, 0 <= c < channels -> 0 <= oh < OH -> 0 <= ow < OW ->
     0 <= indices (c * OH * OW + (oh * OW + ow)) < IH * IW) ->
  ~ 0 <= a < channels * IH * IW ->
  backward_planes add grad_output indices pool channels IH IW OH OW gi a = gi a.
Proof.
  intros Hfair HIH HIW Hind Ha. unfold backward_planes.
  rewrite parallel_for_ranges by assumption.
  apply fold_bwd_plane_other. intros c Hc. apply In_irange in Hc. split.
  - intros oh ow Hoh How. apply Hind; lia.
  - assert (0 <= c * (IH * IW)) by (apply Z.mul_nonneg_nonneg; nia).
    assert ((c + 1) * (IH * IW) <= channels * (IH * IW))
      by (apply Z.mul_le_mono_nonneg_r; nia).
    nia.
Qed.

(** So does the channels-last kernel, for [N * IH * IW * C] elements. *)
Lemma backward_batches_frame pool N C IH IW OH OW gi a :
  fair pool -> 0 <= C -> 0 <= IH -> 0 <= IW ->
  (forall n oh ow c, 0 <= n < N -> 0 <= oh < OH -> 0 <= ow < OW -> 0 <= c < C ->
     0 <= indices (n * OH * OW * C + (oh * OW * C + ow * C) + c) < IH * IW) ->
  ~ 0 <= a < N * IH * IW * C ->
  backward_batches add grad_output indices pool N C IH IW OH OW gi a = gi a.
Proof.
  intros Hfair HC HIH HIW Hind Ha. unfold backward_batches.
  rewrite parallel_for_ranges by assumption.
  apply fold_bwd_cl_batch_other; [assumption|].
  intros n Hn. apply In_irange in Hn. split.
  - intros oh ow c Hoh How Hc. apply Hind; lia.
  - assert (0 <= n * (IH * IW * C))
      by (apply Z.mul_nonneg_nonneg; [lia|]; apply Z.mul_nonneg_nonneg; nia).
    assert ((n + 1) * (IH * IW * C) <= N * (IH * IW * C)).
    { apply Z.mul_le_mono_nonneg_r; [|lia].
      apply Z.mul_nonneg_nonneg; nia. }
    nia.
Qed.
End BackwardFrame.

(** An element of the result of the backward dispatch on 4D tensors in
    either layout, whatever [grad_input] holds beforehand: the gradients of
    the cells whose index names it, added to its content in visiting order;
    and the memory outside [grad_input] is left as it was. *)
Lemma backward_kernel_cell pool scalar_t fmt gi0 go ind N C IH IW OH OW :
  fair pool -> fmt = Contiguous \/ fmt = ChannelsLast ->
  0 <= N -> 0 <= C -> 0 <= IH -> 0 <= IW ->
  (forall n c oh ow,
     0 <= n < N -> 0 <= c < C -> 0 <= oh < OH -> 0 <= ow < OW ->
     0 <= ind (cell_offset fmt C OH OW n c oh ow) < IH * IW) ->
  exists grad_input,
    adaptive_max_pool2d_backward_kernel_impl pool
      (mkTensor scalar_t [N; C; IH; IW] fmt gi0)
      (mkTensor scalar_t [N; C; OH; OW] fmt go)
      (mkLongTensor [N; C; OH; OW] fmt ind) = Ok grad_input /\
    sizes grad_input = [N; C; IH; IW] /\
    (forall n c ih iw,
       0 <= n < N -> 0 <= c < C -> 0 <= ih < IH -> 0 <= iw < IW ->
       data_ptr grad_input (cell_offset fmt C IH IW n c ih iw)
       = fold_left (scalar_add scalar_t)
           (contributions go ind
              (fun cell => cell_offset fmt C OH OW n c (fst cell) (snd cell))
              (ih * IW + iw) (plane_cells OH OW))
           (gi0 (cell_offset fmt C IH IW n c ih iw))) /\
    (forall a, ~ 0 <= a < N * C * IH * IW -> data_ptr grad_input a = gi0 a).
Proof.
  intros Hfair Hfmt HN HC HIH HIW Hind.
  unfold adaptive_max_pool2d_backward_kernel_impl.
  cbn [suggest_memory_format scalar_type].
  destruct (dim_of_4d N C IH IW) as (E0 & E1 & E2 & E3 & E4 & E5).
  destruct (dim_of_4d N C OH OW) as (F0 & F1 & F2 & F3 & F4 & F5).
  destruct Hfmt as [-> | ->]; cbn [cell_offset] in *.
  - eexists. split; [reflexivity|]. split; [reflexivity|].
    unfold cpu_adaptive_max_pool_backward, set_data, ndimension, size.
    cbn [data_ptr sizes long_data_ptr length].
    change (Z.of_nat 4 =? 3) with false. cbv iota.
    rewrite ?E4, ?E5, ?F0, ?F1, ?F4, ?F5.
    pose proof (by_plane (fun a => 0 <= ind a < IH * IW) N C OH OW HN Hind) as Hplane.
    cbv beta in Hplane.
    split.
    + intros n c ih iw Hn Hc Hih Hiw.
      replace (offset_nchw C IH IW n c ih iw)
        with ((n * C + c) * IH * IW + (ih * IW + iw)) by (unfold offset_nchw; ring).
      assert (Hp : 0 <= n * C + c < N * C).
      { assert (0 <= n * C) by (apply Z.mul_nonneg_nonneg; lia).
        assert ((n + 1) * C <= N * C) by (apply Z.mul_le_mono_nonneg_r; lia). lia. }
      assert (Ht : 0 <= ih * IW + iw < IH * IW).
      { assert (0 <= ih * IW) by (apply Z.mul_nonneg_nonneg; lia).
        assert ((ih + 1) * IW <= IH * IW) by (apply Z.mul_le_mono_nonneg_r; lia). lia. }
      rewrite (backward_planes_at (scalar_add scalar_t) go ind pool (N * C)
                 IH IW OH OW gi0 (n * C + c) (ih * IW + iw)
                 Hfair HIH HIW Hplane Hp Ht).
      f_equal. apply contributions_ext.
      intros cell _. unfold offset_nchw. ring.
    + intros a Ha.
      apply (backward_planes_frame (scalar_add scalar_t) go ind pool (N * C)
               IH IW OH OW gi0 a Hfair HIH HIW Hplane Ha).
  - unfold cpu_adaptive_max_pool_backward_channels_last, set_data, ndimension, size.
    cbn [data_ptr sizes long_data_ptr length].
    change (negb (Z.of_nat 4 =? 4)) with false. cbv iota.
    rewrite ?E0, ?E1, ?E2, ?E3, ?F2, ?F3.
    eexists. split; [reflexivity|]. split; [reflexivity|]. cbn [data_ptr].
    assert (Hrows : forall n' oh ow c',
              0 <= n' < N -> 0 <= oh < OH -> 0 <= ow < OW -> 0 <= c' < C ->
              0 <= ind (n' * OH * OW * C + (oh * OW * C + ow * C) + c') < IH * IW).
    { intros n' oh ow c' Hn' Hoh How Hc'.
      specialize (Hind n' c' oh ow Hn' Hc' Hoh How).
      unfold offset_nhwc in Hind.
      replace (n' * OH * OW * C + (oh * OW * C + ow * C) + c')
        with (((n' * OH + oh) * OW + ow) * C + c') by ring.
      exact Hind. }
    split.
    + intros n c ih iw Hn Hc Hih Hiw.
      replace (offset_nhwc C IH IW n c ih iw)
        with (n * IH * IW * C + ((ih * IW + iw) * C + c)) by (unfold offset_nhwc; ring).
      assert (Ht : 0 <= ih * IW + iw < IH * IW).
      { assert (0 <= ih * IW) by (apply Z.mul_nonneg_nonneg; lia).
        assert ((ih + 1) * IW <= IH * IW) by (apply Z.mul_le_mono_nonneg_r; lia). lia. }
      rewrite (backward_batches_at (scalar_add scalar_t) go ind pool N C
                 IH IW OH OW gi0 n (ih * IW + iw) c
                 Hfair HC HIH HIW Hrows Hn Ht Hc).
      f_equal. apply contributions_ext.
      intros cell _. unfold offset_nhwc. ring.
    + intros a Ha.
      apply (backward_batches_frame (scalar_add scalar_t) go ind pool N C
               IH IW OH OW gi0 a Hfair HC HIH HIW Hrows).
      replace (N * IH * IW * C) with (N * C * IH * IW) by ring. exact Ha.
Qed.

(** The backward shell on a 4D [grad_output] without empty non-batch
    dimension and of the element type of the input: the kernel is run on a
    fresh [grad_input] of the shape and layout of the input, filled with
    zeros. *)
Lemma backward_shell_rank4 pool t fmt fmt' go x shape indices N C OH OW :
  0 < C -> 0 < OH -> 0 < OW ->
  adaptive_max_pool2d_backward_out_cpu pool
    (mkTensor t [N; C; OH; OW] fmt' go) (mkTensor t shape fmt x) indices
  = adaptive_max_pool2d_backward_kernel_impl pool
      (mkTensor t shape fmt zeros) (mkTensor t [N; C; OH; OW] fmt' go) indices.
Proof.
  intros HC HOH HOW. unfold adaptive_max_pool2d_backward_out_cpu.
  change (ndimension (mkTensor t [N; C; OH; OW] fmt' go)) with 4.
  cbn [sizes scalar_type suggest_memory_format].
  rewrite (first_empty_dim_4d N C OH OW HC HOH HOW).
  destruct t; reflexivity.
Qed.



Lemma s6_same_elements {A} (b : buffer A) : same_elements 1 1 2 2 b b.
Proof.
  intros n c h w Hn Hc Hh Hw.
  assert (n = 0) as -> by lia. assert (c = 0) as -> by lia.
  f_equal. unfold offset_nhwc, offset_nchw. ring.
Qed.



(** X12.  The backward shell on the same gradients and indices in the two
    layouts, with every stored index in [0, IH * IW): both calls return a
    [grad_input] of the shape of the input, and the two hold the same value
    at every element, bit for bit, since both kernels add the gradients of a
    plane in the same order. *)
Theorem backward_layouts_agree
    (pool pool' : ThreadPool) (scalar_t : ScalarType)
    (grad_output grad_output' x x' : buffer spec_float) (indices indices' : buffer Z)
    (N C IH IW OH OW n c ih iw : Z)
    (Hfair : fair pool) (Hfair' : fair pool')
    (HOH : 0 < OH) (HOW : 0 < OW)
    (Hn : 0 <= n < N) (Hc : 0 <= c < C) (Hih : 0 <= ih < IH) (Hiw : 0 <= iw < IW)
    (Hgo : same_elements N C OH OW grad_output grad_output')
    (Hidx : same_elements N C OH OW indices indices')
    (Hind : forall n c oh ow,
              0 <= n < N -> 0 <= c < C -> 0 <= oh < OH -> 0 <= ow < OW ->
              0 <= indices (offset_nchw C OH OW n c oh ow) < IH * IW) :
  exists grad_input grad_input',
    adaptive_max_pool2d_backward_out_cpu pool
      (mkTensor scalar_t [N; C; OH; OW] Contiguous grad_output)
      (mkTensor scalar_t [N; C; IH; IW] Contiguous x)
      (mkLongTensor [N; C; OH; OW] Contiguous indices) = Ok grad_input /\
    adaptive_max_pool2d_backward_out_cpu pool'
      (mkTensor scalar_t [N; C; OH; OW] ChannelsLast grad_output')
      (mkTensor scalar_t [N; C; IH; IW] ChannelsLast x')
      (mkLongTensor [N; C; OH; OW] ChannelsLast indices') = Ok grad_input' /\
    sizes grad_input = [N; C; IH; IW] /\ sizes grad_input' = [N; C; IH; IW] /\
    data_ptr grad_input' (offset_nhwc C IH IW n c ih iw)
    = data_ptr grad_input (offset_nchw C IH IW n c ih iw).
Proof.
  rewrite !backward_shell_rank4 by lia.
  assert (Hind' : forall n c oh ow,
            0 <= n < N -> 0 <= c < C -> 0 <= oh < OH -> 0 <= ow < OW ->
            0 <= indices' (cell_offset ChannelsLast C OH OW n c oh ow) < IH * IW).
  { intros n' c' oh ow Hn' Hc' Hoh How. cbn [cell_offset].
    rewrite (Hidx n' c' oh ow Hn' Hc' Hoh How). now apply Hind. }
  destruct (backward_kernel_cell pool scalar_t Contiguous zeros grad_output indices
              N C IH IW OH OW Hfair (or_introl eq_refl)
              ltac:(lia) ltac:(lia) ltac:(lia) ltac:(lia) Hind)
    as (gi & Hok & Hsz & Hcell & _).
  destruct (backward_kernel_cell pool' scalar_t ChannelsLast zeros grad_output' indices'
              N C IH IW OH OW Hfair' (or_intror eq_refl)
              ltac:(lia) ltac:(lia) ltac:(lia) ltac:(lia) Hind')
    as (gi' & Hok' & Hsz' & Hcell' & _).
  exists gi, gi'. split; [exact Hok|]. split; [exact Hok'|].
  split; [exact Hsz|]. split; [exact Hsz'|].
  specialize (Hcell n c ih iw Hn Hc Hih Hiw).
  specialize (Hcell' n c ih iw Hn Hc Hih Hiw).
  cbn [cell_offset] in Hcell, Hcell'.
  rewrite Hcell, Hcell'. f_equal.
  apply contributions_agree. intros [oh ow] Hin.
  apply In_plane_cells in Hin. destruct Hin as [Hoh How]. cbn [fst snd].
  split; [apply Hgo | apply Hidx]; assumption.
Qed.

Lemma backward_layouts_agree_witness :
  (fair two_workers /\ fair single_worker) /\
  same_elements 1 1 2 2 s6_grad_output s6_grad_output /\
  same_elements 1 1 2 2 s6_indices s6_indices /\
  (forall n c oh ow,
     0 <= n < 1 -> 0 <= c < 1 -> 0 <= oh < 2 -> 0 <= ow < 2 ->
     0 <= s6_indices (offset_nchw 1 2 2 n c oh ow) < 4 * 4) /\
  exists grad_input grad_input',
    adaptive_max_pool2d_backward_out_cpu two_workers
      (mkTensor Float [1; 1; 2; 2] Contiguous s6_grad_output)
      (mkTensor Float [1; 1; 4; 4] Contiguous peak_at_5)
      (mkLongTensor [1; 1; 2; 2] Contiguous s6_indices) = Ok grad_input /\
    adaptive_max_pool2d_backward_out_cpu single_worker
      (mkTensor Float [1; 1; 2; 2] ChannelsLast s6_grad_output)
      (mkTensor Float [1; 1; 4; 4] ChannelsLast peak_at_5)
      (mkLongTensor [1; 1; 2; 2] ChannelsLast s6_indices) = Ok grad_input' /\
    data_ptr grad_input' (offset_nhwc 1 4 4 0 0 1 1)
    = data_ptr grad_input (offset_nchw 1 4 4 0 0 1 1).
Proof.
  assert (Hind : forall n c oh ow,
            0 <= n < 1 -> 0 <= c < 1 -> 0 <= oh < 2 -> 0 <= ow < 2 ->
            0 <= s6_indices (offset_nchw 1 2 2 n c oh ow) < 4 * 4)
    by (intros; apply s6_indices_in_range).
  split; [split; [exact two_workers_fair | exact single_worker_fair]|].
  split; [exact (s6_same_elements s6_grad_output)|].
  split; [exact (s6_same_elements s6_indices)|]. split; [exact Hind|].
  destruct (backward_layouts_agree two_workers single_worker Float
              s6_grad_output s6_grad_output peak_at_5 peak_at_5
              s6_indices s6_indices 1 1 4 4 2 2 0 0 1 1
              two_workers_fair single_worker_fair ltac:(lia) ltac:(lia)
              ltac:(lia) ltac:(lia) ltac:(lia) ltac:(lia)
              (s6_same_elements s6_grad_output) (s6_same_elements s6_indices) Hind)
    as (gi & gi' & Hok & Hok' & _ & _ & Heq).
  exists gi, gi'. split; [exact Hok|]. split; [exact Hok' | exact Heq].
Defined.



(* ================================================================== *)
(** * The two shells: shapes and errors *)
(* ================================================================== *)

(** The forward dispatch returns the two tensors it was given, with new
    contents; its errors are those of the channels-last kernel and of the
    layout switch. *)
Lemma forward_kernel_keeps_shape pool VW out0 ind0 input osz output indices :
  adaptive_max_pool2d_kernel_impl pool VW out0 ind0 input osz = Ok (output, indices) ->
  sizes output = sizes out0 /\ scalar_type output = scalar_type out0 /\
  suggest_memory_format output = suggest_memory_format out0 /\
  long_sizes indices = long_sizes ind0 /\
  long_memory_format indices = long_memory_format ind0.
Proof.
  unfold adaptive_max_pool2d_kernel_impl.
  destruct (suggest_memory_format input); try discriminate.
  - intros Hok. injection Hok as <- <-. repeat split.
  - unfold channels_last_instance.
    destruct (scalar_type input);
      unfold cpu_adaptive_max_pool_channels_last,
             cpu_adaptive_max_pool_channels_last_BFloat16;
      destruct (negb (ndimension input =? 4)); try discriminate;
      destruct (negb (_ <=? _)); try discriminate;
      intros Hok; injection Hok as <- <-; repeat split.
Qed.

Lemma forward_kernel_errors pool VW out0 ind0 input osz e :
  adaptive_max_pool2d_kernel_impl pool VW out0 ind0 input osz = Throw e ->
  e = ChannelsLastNeeds4Dims \/ e = IndexLaneOverflow \/ e = UnsupportedMemoryFormat.
Proof.
  unfold adaptive_max_pool2d_kernel_impl.
  destruct (suggest_memory_format input); try discriminate;
    try (intros He; injection He as <-; tauto).
  unfold channels_last_instance.
  destruct (scalar_type input);
    unfold cpu_adaptive_max_pool_channels_last,
           cpu_adaptive_max_pool_channels_last_BFloat16;
    (destruct (negb (ndimension input =? 4));
     [intros He; injection He as <-; tauto|]);
    (destruct (negb (_ <=? _));
     [intros He; injection He as <-; tauto | discriminate]).
Qed.

(** [find] on a range returns its first hit. *)
Lemma find_irange_first f a b i :
  find f (irange a b) = Some i -> forall k, a <= k < i -> f k = false.
Proof.
  remember (Z.to_nat (b - a)) as m eqn:Hm. revert a Hm.
  induction m as [|m IH]; intros a Hm Hf k Hk.
  - rewrite irange_nil in Hf by lia. discriminate.
  - rewrite (irange_cons a b) in Hf by lia. cbn [find] in Hf.
    destruct (f a) eqn:Hfa.
    + injection Hf as <-. lia.
    + destruct (Z.eq_dec k a) as [->|Hne]; [exact Hfa|].
      apply (IH (a + 1)); [lia | exact Hf | lia].
Qed.

(** X14.  When the forward shell returns, its two tensors have the shape
    [C, OH, OW] for a 3D input and [N, C, OH, OW] for a 4D one, the output
    has the element type of the input, and both are row-major for a 3D
    input and in the layout of the input for a 4D one; the input then has
    rank 3 or 4 and no empty non-batch dimension, and [output_size] has two
    elements. *)
Theorem forward_shell_result_shape
    (pool : ThreadPool) (VECTOR_WIDTH : Z) (input : Tensor) (output_size : list Z)
    (output : Tensor) (indices : LongTensor)
    (Hok : adaptive_max_pool2d_out_cpu pool VECTOR_WIDTH input output_size
           = Ok (output, indices)) :
  let shape :=
    if ndimension input =? 3
    then [size input 0; nth 0 output_size 0; nth 1 output_size 0]
    else [size input 0; size input 1; nth 0 output_size 0; nth 1 output_size 0] in
  let layout :=
    if ndimension input =? 3 then Contiguous else suggest_memory_format input in
  sizes output = shape /\ long_sizes indices = shape /\
  scalar_type output = scalar_type input /\
  suggest_memory_format output = layout /\ long_memory_format indices = layout /\
  (ndimension input = 3 \/ ndimension input = 4) /\
  (forall i, 1 <= i < ndimension input -> 0 < size input i) /\
  length output_size = 2%nat.
Proof.
  cbv zeta. unfold adaptive_max_pool2d_out_cpu in Hok.
  destruct ((ndimension input =? 3) || (ndimension input =? 4)) eqn:Hr;
    [|discriminate].
  cbn [negb] in Hok.
  destruct (first_empty_dim (sizes input)) as [i|] eqn:He; [discriminate|].
  destruct (Z.of_nat (length output_size) =? 2) eqn:Ha; [|discriminate].
  cbn [negb] in Hok.
  assert (Hrank : ndimension input = 3 \/ ndimension input = 4).
  { apply orb_true_iff in Hr. destruct Hr as [Hr | Hr]; apply Z.eqb_eq in Hr; auto. }
  assert (Hdims : forall i, 1 <= i < ndimension input -> 0 < size input i).
  { intros i Hi. now apply (proj1 (first_empty_dim_none (sizes input)) He). }
  assert (Hlen : length output_size = 2%nat) by (apply Z.eqb_eq in Ha; lia).
  destruct Hrank as [E | E]; rewrite E in Hok |- *.
  - change (3 =? 3) with true in *. change (3 =? 4) with false in Hok.
    cbv iota in Hok |- *.
    destruct (negb (check_size_nonnegative _)); [discriminate|].
    apply forward_kernel_keeps_shape in Hok.
    cbn [sizes long_sizes scalar_type suggest_memory_format long_memory_format
         at_empty at_empty_long] in Hok.
    destruct Hok as (H1 & H2 & H4 & H5 & H6).
    change (1 - 1) with 0 in H1, H5.
    repeat split; solve [assumption | rewrite <- E; assumption | now left].
  - change (4 =? 3) with false in *. change (4 =? 4) with true in Hok.
    cbv iota in Hok |- *.
    destruct (negb (check_size_nonnegative _)); [discriminate|].
    apply forward_kernel_keeps_shape in Hok.
    cbn [sizes long_sizes scalar_type suggest_memory_format long_memory_format
         at_empty at_empty_long] in Hok.
    destruct Hok as (H1 & H2 & H4 & H5 & H6).
    change (2 - 1) with 1 in H1, H5.
    repeat split; solve [assumption | rewrite <- E; assumption | now right].
Qed.

Lemma forward_shell_result_shape_witness :
  exists output indices,
    adaptive_max_pool2d_out_cpu two_workers 32 small_input [2; 2]
    = Ok (output, indices) /\
    sizes output = [1; 1; 2; 2].
Proof.
  assert (Hok : adaptive_max_pool2d_out_cpu two_workers 32 small_input [2; 2]
                = Ok (fst (cpu_adaptive_max_pool two_workers Float
                             (at_empty Float [1; 1; 2; 2] Contiguous)
                             (at_empty_long [1; 1; 2; 2] Contiguous)
                             small_input [2; 2]),
                      snd (cpu_adaptive_max_pool two_workers Float
                             (at_empty Float [1; 1; 2; 2] Contiguous)
                             (at_empty_long [1; 1; 2; 2] Contiguous)
                             small_input [2; 2]))).
  { unfold small_input. rewrite shell_rank4 by lia.
    unfold adaptive_max_pool2d_kernel_impl. cbn [suggest_memory_format scalar_type].
    reflexivity. }
  eexists _, _. split; [exact Hok|].
  exact (proj1 (forward_shell_result_shape two_workers 32 small_input [2; 2] _ _ Hok)).
Defined.

(** X15.  When the forward shell reports an empty non-batch dimension, the
    input has rank 3 or 4 and the dimension named is the first one, from
    dimension 1 on, whose size is not positive. *)
Theorem forward_shell_reports_first_empty_dim
    (pool : ThreadPool) (VECTOR_WIDTH : Z) (input : Tensor) (output_size : list Z)
    (i : Z)
    (Herr : adaptive_max_pool2d_out_cpu pool VECTOR_WIDTH input output_size
            = Throw (EmptyNonBatchDim i)) :
  (ndimension input = 3 \/ ndimension input = 4) /\
  1 <= i < ndimension input /\ size input i <= 0 /\
  forall k, 1 <= k < i -> 0 < size input k.
Proof.
  unfold adaptive_max_pool2d_out_cpu in Herr.
  destruct ((ndimension input =? 3) || (ndimension input =? 4)) eqn:Hr;
    [|discriminate].
  cbn [negb] in Herr.
  assert (Hrank : ndimension input = 3 \/ ndimension input = 4).
  { apply orb_true_iff in Hr. destruct Hr as [Hr | Hr]; apply Z.eqb_eq in Hr; auto. }
  destruct (first_empty_dim (sizes input)) as [j|] eqn:He.
  - injection Herr as ->.
    destruct (first_empty_dim_some _ _ He) as [Hi Hz].
    split; [exact Hrank|]. split; [exact Hi|]. split; [exact Hz|].
    intros k Hk. unfold first_empty_dim in He.
    pose proof (find_irange_first _ _ _ _ He k Hk) as Hf.
    apply negb_false_iff in Hf. unfold size. lia.
  - destruct (Z.of_nat (length output_size) =? 2); [|discriminate].
    cbn [negb] in Herr.
    destruct (negb (check_size_nonnegative _)); [discriminate|].
    destruct (ndimension input =? 3);
      apply forward_kernel_errors in Herr;
      destruct Herr as [E | [E | E]]; discriminate E.
Qed.

Lemma forward_shell_reports_first_empty_dim_witness :
  adaptive_max_pool2d_out_cpu two_workers 32
    (mkTensor Float [2; 3; 0; 0] Contiguous zeros) [2; 2]
  = Throw (EmptyNonBatchDim 2) /\
  forall k, 1 <= k < 2 -> 0 < size (mkTensor Float [2; 3; 0; 0] Contiguous zeros) k.
Proof.
  assert (Herr : adaptive_max_pool2d_out_cpu two_workers 32
                   (mkTensor Float [2; 3; 0; 0] Contiguous zeros) [2; 2]
                 = Throw (EmptyNonBatchDim 2)) by reflexivity.
  split; [exact Herr|].
  exact (proj2 (proj2 (proj2
           (forward_shell_reports_first_empty_dim two_workers 32
              (mkTensor Float [2; 3; 0; 0] Contiguous zeros) [2; 2] 2 Herr)))).
Defined.



(* ================================================================== *)
(** * Forward, then backward *)
(* ================================================================== *)







(* ================================================================== *)
(** * Backward kernels: linearity where nothing is accumulated *)
(* ================================================================== *)











(** Why the amended claim speaks of finite scalars and of the sign of a
    zero.  At an element that no cell points at, the gradient of any
    combination is [+0]; with [alpha = beta = -1] the combination of the two
    gradients is [-0], and with [alpha] infinite it is NaN. *)
Lemma backward_linearity_limits :
  lin_backward_wide (axpby (scalar_add Double) (scalar_mul Double)
                           d_minus_one d_minus_one lin_g1 lin_g2) 1
  = S754_zero false /\
  scalar_add Double
    (scalar_mul Double d_minus_one (lin_backward_wide lin_g1 1))
    (scalar_mul Double d_minus_one (lin_backward_wide lin_g2 1))
  = S754_zero true /\
  lin_backward_wide (axpby (scalar_add Double) (scalar_mul Double)
                           d_infinity d_one lin_g1 lin_g2) 1
  = S754_zero false /\
  scalar_add Double
    (scalar_mul Double d_infinity (lin_backward_wide lin_g1 1))
    (scalar_mul Double d_one (lin_backward_wide lin_g2 1))
  = S754_nan.
Proof. repeat split; vm_compute; reflexivity. Qed.




